(** * nacs-firebase: bracket reconstruction, stat normalisation, serie grouping

    A shallow embedding of the three pure cores of the dashboard:

    - [Bracket]: [parseBracket] of [app/matches/pro/components/bracket.tsx];
    - [Faceit], [Panda], [Grid] and [Table]: the stat normalizers of
      [lib/normalizers] and [aggregatePlayerStats] of
      [app/components/MatchStatsTable.tsx];
    - [Home]: [groupBySerie] of [app/page.tsx].

    Around them, the code that calls or is called by these cores:

    - [Views]: the bracket area of the tournament page and of [SerieTabs];
    - [Columns]: the cell colours of [lib/types/match-stats.ts] and
      [getSortColumn], [sortPlayers] and the tab label of
      [MatchStatsTable.tsx];
    - [EventList]: [proToUnified] of [app/components/EventList.tsx];
    - [Profile]: [getScore], [getMatchTeamScore], [getOpponent],
      [buildTournamentName] and [deriveEffectiveStats] of the match cards
      and the pro overview;
    - [MatchPage]: [formatDuration] of the PandaScore match page;
    - [Paging]: [fetchAllPages] of [app/api/matches/route.ts].

    Conventions.  Match, game and team identifiers are JavaScript numbers
    holding integers and are modelled by [Z]; depths and indices by [nat].
    Statistic values are JavaScript numbers; they are modelled by the exact
    rationals [Qc], so rounding, NaN and the infinities of IEEE doubles are
    outside the model.  Where the value of a computed statistic is stated,
    it is stated as the expression the code evaluates, operation by
    operation; [Binary64] holds the operations on doubles for the place
    where rounding is shown to matter.  A [Map] or [Set] that is only
    probed by key is a [gmap] or [gset]; a [Map] whose insertion order is
    observed is an association list.  The memoised recursion [getDepth] is run with a fuel
    bound that stands for the call stack: it runs out exactly when the
    recursion would not come back. *)

From Stdlib Require Import ZArith QArith Qcanon Ascii String DecimalString DecimalZ SpecFloat.
From stdpp Require Import gmap strings list fin_maps sorting.

Local Open Scope Z_scope.
Local Open Scope nat_scope.

(** ** Shared helpers *)

(** [Math.max(...l)] on depths.  Both call sites spread a non-empty list,
    so JavaScript's [-Infinity] for an empty spread is never produced. *)
Definition Math_max (l : list nat) : nat := foldr Nat.max 0 l.

(** Template literal [${n}] of a non-negative integer. *)
Definition show_nat (n : nat) : string := NilZero.string_of_uint (Nat.to_uint n).

(** Template literal [${z}] of an integer, also [String(z)]. *)
Definition show_Z (z : Z) : string := NilEmpty.string_of_int (Z.to_int z).

(** [Array.prototype.sort(cmp)]: the sort is stable, and [x] stays in
    front of [y] whenever [cmp x y <= 0]. *)
Section StableSort.
Context {A : Type} (cmp : A → A → Z).

Fixpoint insert_sorted (x : A) (l : list A) : list A :=
  match l with
  | [] => [x]
  | y :: l' => if (cmp x y <=? 0)%Z then x :: l else y :: insert_sorted x l'
  end.

Definition sort_by : list A → list A := foldr insert_sorted [].
End StableSort.

(** An insertion-ordered [Map<K, V[]>] filled by
    [if (!m.has(k)) m.set(k, []); m.get(k).push(v)]. *)
Section Groups.
Context {K V : Type} (eqb : K → K → bool).

Fixpoint pushGroup (k : K) (v : V) (groups : list (K * list V)) : list (K * list V) :=
  match groups with
  | [] => [(k, [v])]
  | (k', vs) :: rest =>
    if eqb k k' then (k', vs ++ [v]) :: rest else (k', vs) :: pushGroup k v rest
  end.

Fixpoint groupGet (k : K) (groups : list (K * list V)) : list V :=
  match groups with
  | [] => []
  | (k', vs) :: rest => if eqb k k' then vs else groupGet k rest
  end.
End Groups.

(** ASCII case mapping; the strings of the model are byte strings, and
    only the letters [A-Z] and [a-z] are mapped. *)
Definition lower_ascii (c : ascii) : ascii :=
  let n := nat_of_ascii c in
  if (65 <=? n) && (n <=? 90) then ascii_of_nat (n + 32) else c.

Definition upper_ascii (c : ascii) : ascii :=
  let n := nat_of_ascii c in
  if (97 <=? n) && (n <=? 122) then ascii_of_nat (n - 32) else c.

Fixpoint string_map (f : ascii → ascii) (s : string) : string :=
  match s with
  | EmptyString => EmptyString
  | String c s' => String (f c) (string_map f s')
  end.

Definition toLowerCase : string → string := string_map lower_ascii.
Definition toUpperCase : string → string := string_map upper_ascii.

(** [a || b] on strings: the empty string is falsy. *)
Definition str_or (a b : string) : string := if String.eqb a "" then b else a.

(** [a || b] where [a] may also be [null] or [undefined]. *)
Definition opt_str_or (a : option string) (b : string) : string :=
  match a with
  | Some s => str_or s b
  | None => b
  end.

(** First-occurrence [String.prototype.replace(pat, rep)] for a string
    pattern. *)
Fixpoint replace_first (pat rep s : string) : string :=
  if String.prefix pat s then rep +:+ String.substring (String.length pat) (String.length s - String.length pat) s
  else match s with
       | EmptyString => EmptyString
       | String c s' => String c (replace_first pat rep s')
       end.

(** ** The bracket engine *)

Module Bracket.

Inductive PrevType : Set := winner | loser.

Record PrevMatch : Set := { type : PrevType; match_id : Z }.

(** [PSBracketMatch].  Of the [PSMatch] fields only [id] is read by
    [parseBracket]; [name] stands for the remaining payload, which is
    carried through untouched.  [previous_matches] is an array by its type;
    the guards of the source for an absent one ([|| []], [?.length]) treat
    it as the empty list. *)
Record PSBracketMatch : Set := {
  id : Z;
  name : string;
  previous_matches : list PrevMatch
}.

Record BracketRound : Set := { label : string; matches : list PSBracketMatch }.

Record ParsedBracket : Set := {
  upperBracket : list BracketRound;
  lowerBracket : list BracketRound;
  grandFinal : option PSBracketMatch
}.

(** The invariant of the data model that [previous_matches] is a directed
    acyclic graph, witnessed by a rank that decreases along every
    reference (also along one to an id absent from the list). *)
Definition acyclic (rank : Z → nat) (bracketMatches : list PSBracketMatch) : Prop :=
  Forall (λ m, Forall (λ p, rank (match_id p) < rank (id m)) (previous_matches m))
         bracketMatches.

(** The recursion budget covers the rank of every match. *)
Definition enough (fuel : nat) (rank : Z → nat) (bracketMatches : list PSBracketMatch) : Prop :=
  Forall (λ m, rank (id m) < fuel) bracketMatches.

(** Match ids identify: no two entries of the list share one. *)
Definition distinct_ids (bracketMatches : list PSBracketMatch) : Prop :=
  NoDup (id <$> bracketMatches).

Global Instance PrevType_eq_dec : EqDecision PrevType.
Proof. solve_decision. Defined.
Global Instance PrevMatch_eq_dec : EqDecision PrevMatch.
Proof. solve_decision. Defined.
Global Instance PSBracketMatch_eq_dec : EqDecision PSBracketMatch.
Proof. solve_decision. Defined.
Global Instance BracketRound_eq_dec : EqDecision BracketRound.
Proof. solve_decision. Defined.
Global Instance ParsedBracket_eq_dec : EqDecision ParsedBracket.
Proof. solve_decision. Defined.

Definition is_winner (t : PrevType) : bool := bool_decide (t = winner).
Definition is_loser (t : PrevType) : bool := bool_decide (t = loser).

(** [matchMap]: later entries overwrite earlier ones with the same id. *)
Definition buildMatchMap (bracketMatches : list PSBracketMatch) : gmap Z PSBracketMatch :=
  fold_left (λ acc m, <[id m := m]> acc) bracketMatches ∅.

(** A computation over the mutable [depthCache] that may fail to come
    back. *)
Definition Memo (A : Type) : Type := gmap Z nat → option (A * gmap Z nat).

Definition memo_ret {A} (a : A) : Memo A := λ c, Some (a, c).

Definition memo_bind {A B} (m : Memo A) (k : A → Memo B) : Memo B :=
  λ c, match m c with
       | Some (a, c') => k a c'
       | None => None
       end.

Notation "'let*' x := m 'in' k" := (memo_bind m (λ x, k))
  (at level 10, x pattern, m at level 100, k at level 200).

Fixpoint memo_map {A B} (f : A → Memo B) (l : list A) : Memo (list B) :=
  match l with
  | [] => memo_ret []
  | a :: l' => let* b := f a in let* bs := memo_map f l' in memo_ret (b :: bs)
  end.

Definition cache_set (k : Z) (d : nat) : Memo unit := λ c, Some (tt, <[k := d]> c).

Section WithMatchMap.
Variable matchMap : gmap Z PSBracketMatch.

Fixpoint getDepth (fuel : nat) (matchId : Z) : Memo nat :=
  match fuel with
  | O => λ _, None
  | S fuel' => λ depthCache,
    match depthCache !! matchId with
    | Some d => Some (d, depthCache)
    | None =>
      match matchMap !! matchId with
      | None => (let* _ := cache_set matchId 0 in memo_ret 0) depthCache
      | Some m =>
        match previous_matches m with
        | [] => (let* _ := cache_set matchId 0 in memo_ret 0) depthCache
        | _ :: _ =>
          (let* ds := memo_map (λ p, getDepth fuel' (match_id p)) (previous_matches m) in
           let depth := Math_max ds + 1 in
           let* _ := cache_set matchId depth in memo_ret depth) depthCache
        end
      end
    end
  end.

(** The un-memoised recursion, used as the reference for what the cache
    holds. *)
Fixpoint depthOf (fuel : nat) (matchId : Z) : option nat :=
  match fuel with
  | O => None
  | S fuel' =>
    match matchMap !! matchId with
    | None => Some 0
    | Some m =>
      match previous_matches m with
      | [] => Some 0
      | _ :: _ =>
        ds ← mapM (λ p, depthOf fuel' (match_id p)) (previous_matches m);
        Some (Math_max ds + 1)
      end
    end
  end.

(** [hasDepth x d]: the recursion of step 2 of the algorithm gives [x] the
    depth [d]. *)
Definition hasDepth (x : Z) (d : nat) : Prop := ∃ fuel, depthOf fuel x = Some d.

(** What the cache holds is what the recursion computes, and whoever is
    cached has its predecessors cached. *)
Definition cache_ok (c : gmap Z nat) : Prop :=
  (∀ x d, c !! x = Some d → hasDepth x d) ∧
  (∀ x m p, is_Some (c !! x) → matchMap !! x = Some m → p ∈ previous_matches m →
     is_Some (c !! match_id p)).

End WithMatchMap.

(** [for (const m of bracketMatches) getDepth(m.id)]. *)
Definition fillDepthCache (matchMap : gmap Z PSBracketMatch) (fuel : nat)
    (bracketMatches : list PSBracketMatch) : Memo unit :=
  let* _ := memo_map (λ m, getDepth matchMap fuel (id m)) bracketMatches in memo_ret tt.

(** The [depthCache] once that loop has run, when it comes back. *)
Definition depthCacheOf (fuel : nat) (bracketMatches : list PSBracketMatch) : option (gmap Z nat) :=
  snd <$> fillDepthCache (buildMatchMap bracketMatches) fuel bracketMatches ∅.

(** [depthCache.get(m.id) || 0]. *)
Definition cachedDepth (depthCache : gmap Z nat) (m : PSBracketMatch) : nat :=
  default 0 (depthCache !! id m).

Definition buildHasLoserIncoming (bracketMatches : list PSBracketMatch) : gset Z :=
  fold_left (λ acc m,
    fold_left (λ acc' prev, if is_loser (type prev) then {[id m]} ∪ acc' else acc')
              (previous_matches m) acc)
    bracketMatches ∅.

(** [classifyLB]: the boolean result and the updated [isLBMatch]. *)
Definition classifyLB (matchMap : gmap Z PSBracketMatch) (hasLoserIncoming : gset Z)
    (matchId : Z) (isLBMatch : gset Z) : bool * gset Z :=
  if bool_decide (matchId ∈ isLBMatch) then (true, isLBMatch)
  else match matchMap !! matchId with
       | None => (false, isLBMatch)
       | Some m =>
         if bool_decide (matchId ∈ hasLoserIncoming) then (true, {[matchId]} ∪ isLBMatch)
         else if existsb (λ prev, is_winner (type prev) && bool_decide (match_id prev ∈ isLBMatch))
                         (previous_matches m)
              then (true, {[matchId]} ∪ isLBMatch)
              else (false, isLBMatch)
       end.

Definition sortedByDepth (depthCache : gmap Z nat) (bracketMatches : list PSBracketMatch)
    : list PSBracketMatch :=
  sort_by (λ a b, Z.of_nat (cachedDepth depthCache a) - Z.of_nat (cachedDepth depthCache b))%Z
          bracketMatches.

(** The two loops over [sortedByDepth] that fill [isLBMatch]. *)
Definition seedLB (hasLoserIncoming : gset Z) (sorted : list PSBracketMatch) (isLBMatch : gset Z) : gset Z :=
  fold_left (λ acc m, if bool_decide (id m ∈ hasLoserIncoming) then {[id m]} ∪ acc else acc)
            sorted isLBMatch.

Definition propagateLB (matchMap : gmap Z PSBracketMatch) (hasLoserIncoming : gset Z)
    (sorted : list PSBracketMatch) (isLBMatch : gset Z) : gset Z :=
  fold_left (λ acc m, snd (classifyLB matchMap hasLoserIncoming (id m) acc)) sorted isLBMatch.

Definition buildIsLBMatch (depthCache : gmap Z nat) (bracketMatches : list PSBracketMatch) : gset Z :=
  let matchMap := buildMatchMap bracketMatches in
  let hasLoserIncoming := buildHasLoserIncoming bracketMatches in
  let sorted := sortedByDepth depthCache bracketMatches in
  propagateLB matchMap hasLoserIncoming sorted (seedLB hasLoserIncoming sorted ∅).

(** [Math.max(...Array.from(depthCache.values()))]. *)
Definition maxDepthOf (depthCache : gmap Z nat) : nat :=
  Math_max (snd <$> map_to_list depthCache).

(** The test of the first grand-final loop. *)
Definition convergence (depthCache : gmap Z nat) (isLBMatch : gset Z) (maxDepth : nat)
    (m : PSBracketMatch) : bool :=
  (cachedDepth depthCache m =? maxDepth) && (2 <=? length (previous_matches m))
  && existsb (λ p, negb (bool_decide (match_id p ∈ isLBMatch))) (previous_matches m)
  && existsb (λ p, bool_decide (match_id p ∈ isLBMatch)) (previous_matches m).

Definition findGrandFinal (depthCache : gmap Z nat) (isLBMatch : gset Z)
    (bracketMatches : list PSBracketMatch) : option PSBracketMatch :=
  let maxDepth := maxDepthOf depthCache in
  match find (convergence depthCache isLBMatch maxDepth) bracketMatches with
  | Some m => Some m
  | None =>
    match filter (λ m, cachedDepth depthCache m = maxDepth) bracketMatches with
    | [g] => Some g
    | _ => None
    end
  end.

(** [grandFinal && m.id === grandFinal.id]. *)
Definition isGrandFinal (gf : option PSBracketMatch) (m : PSBracketMatch) : bool :=
  match gf with
  | Some g => bool_decide (id m = id g)
  | None => false
  end.

Definition ubMatchesOf (isLBMatch : gset Z) (gf : option PSBracketMatch)
    (bracketMatches : list PSBracketMatch) : list PSBracketMatch :=
  filter (λ m, isGrandFinal gf m = false ∧ id m ∉ isLBMatch) bracketMatches.

Definition lbMatchesOf (isLBMatch : gset Z) (gf : option PSBracketMatch)
    (bracketMatches : list PSBracketMatch) : list PSBracketMatch :=
  filter (λ m, isGrandFinal gf m = false ∧ id m ∈ isLBMatch) bracketMatches.

Definition groupByRounds (depthCache : gmap Z nat) (ms : list PSBracketMatch)
    : list (nat * list PSBracketMatch) :=
  fold_left (λ rounds m, pushGroup Nat.eqb (cachedDepth depthCache m) m rounds) ms [].

Definition roundLabel (isLower : bool) (totalRounds idx nmatches : nat) : string :=
  let total := Z.of_nat totalRounds in
  let i := Z.of_nat idx in
  if isLower then
    if (i =? total - 1)%Z then "LB Final" else "LB Round " +:+ show_nat (idx + 1)
  else
    if (total <=? 1)%Z then "Final"
    else if (i =? total - 1)%Z then "UB Final"
    else if (i =? total - 2)%Z then "UB Semifinal"
    else if (i =? total - 3)%Z && (nmatches =? 4) then "UB Quarterfinal"
    else "UB Round " +:+ show_nat (idx + 1).

Definition buildRounds (depthCache : gmap Z nat) (ms : list PSBracketMatch) (isLower : bool)
    : list BracketRound :=
  let roundMap := groupByRounds depthCache ms in
  let depths := sort_by (λ a b, Z.of_nat a - Z.of_nat b)%Z (fst <$> roundMap) in
  let totalRounds := length depths in
  imap (λ idx depth,
          let roundMatches := groupGet Nat.eqb depth roundMap in
          {| label := roundLabel isLower totalRounds idx (length roundMatches);
             matches := roundMatches |})
       depths.

Definition stripUB (r : BracketRound) : BracketRound :=
  {| label := replace_first "UB " "" (label r); matches := matches r |}.

(** [parseBracket].  The outer [None] is a [getDepth] recursion that does
    not come back within [fuel]; [Some None] is the [null] result.  The set
    [referencedIds], which the source fills and never reads, is left out. *)
Definition parseBracket (fuel : nat) (bracketMatches : list PSBracketMatch)
    : option (option ParsedBracket) :=
  match bracketMatches with
  | [] => Some None
  | _ :: _ =>
    match depthCacheOf fuel bracketMatches with
    | None => None
    | Some depthCache =>
      let isLBMatch := buildIsLBMatch depthCache bracketMatches in
      let gf := findGrandFinal depthCache isLBMatch bracketMatches in
      let ub := buildRounds depthCache (ubMatchesOf isLBMatch gf bracketMatches) false in
      let lb := buildRounds depthCache (lbMatchesOf isLBMatch gf bracketMatches) true in
      let ub' := match lb with [] => stripUB <$> ub | _ :: _ => ub end in
      Some (Some {| upperBracket := ub'; lowerBracket := lb; grandFinal := gf |})
    end
  end.

(** Sample brackets.  [doubleElim4] is a four-team double elimination:
    two opening matches, the upper final 3, the lower matches 4 and 5 and
    the grand final 6.  [singleElim7] is the single elimination of four
    quarterfinals, two semifinals and a final.  [partialFetch] refers to
    the ids 90 and 91, which the list does not hold. *)
Definition mkMatch (i : Z) (prev : list (PrevType * Z)) : PSBracketMatch :=
  {| id := i; name := "match " +:+ show_Z i;
     previous_matches := (λ p, {| type := p.1; match_id := p.2 |}) <$> prev |}.

Definition doubleElim4 : list PSBracketMatch :=
  [ mkMatch 1 []; mkMatch 2 [];
    mkMatch 3 [(winner, 1); (winner, 2)];
    mkMatch 4 [(loser, 1); (loser, 2)];
    mkMatch 5 [(winner, 4); (loser, 3)];
    mkMatch 6 [(winner, 3); (winner, 5)] ]%Z.

Definition singleElim7 : list PSBracketMatch :=
  [ mkMatch 1 []; mkMatch 2 []; mkMatch 3 []; mkMatch 4 [];
    mkMatch 5 [(winner, 1); (winner, 2)];
    mkMatch 6 [(winner, 3); (winner, 4)];
    mkMatch 7 [(winner, 5); (winner, 6)] ]%Z.

Definition partialFetch : list PSBracketMatch :=
  [ mkMatch 101 [(winner, 90); (winner, 91)];
    mkMatch 102 [];
    mkMatch 103 [(winner, 101); (winner, 102)] ]%Z.

(** [lostFeeder] is the end of a bracket whose match 15 takes the winner
    of a match 9 that the list does not hold: 11 and 12 open, 13 takes
    their losers, and 14 and 15 both sit at the maximum depth. *)
Definition lostFeeder : list PSBracketMatch :=
  [ mkMatch 11 []; mkMatch 12 [];
    mkMatch 13 [(loser, 11); (loser, 12)];
    mkMatch 14 [(winner, 13)];
    mkMatch 15 [(winner, 9); (winner, 13)] ]%Z.

(** Two matches that feed each other, and one id carried twice: lists
    outside the data model. *)
Definition cyclicPair : list PSBracketMatch :=
  [ mkMatch 1 [(winner, 2)]; mkMatch 2 [(winner, 1)] ]%Z.

Definition twins : list PSBracketMatch :=
  [ mkMatch 1 []; mkMatch 1 [] ]%Z.

(** [deepest c ms m]: no match of the list is deeper than [m]. *)
Definition deepest (c : gmap Z nat) (ms : list PSBracketMatch) (m : PSBracketMatch) : Prop :=
  ∀ m', m' ∈ ms → cachedDepth c m' ≤ cachedDepth c m.

(** [converges lb m]: [m] has at least two references, one to an id that
    is not lower-bracket and one to an id that is. *)
Definition converges (lb : gset Z) (m : PSBracketMatch) : Prop :=
  2 ≤ length (previous_matches m)
  ∧ (∃ p, p ∈ previous_matches m ∧ match_id p ∉ lb)
  ∧ (∃ p, p ∈ previous_matches m ∧ match_id p ∈ lb).

(** The shape Scenario A expects: three upper rounds of 4, 2 and 1
    matches, the last one labelled "Final", and no lower bracket. *)
Definition scenarioA_expected (pb : ParsedBracket) : Prop :=
  (λ r, length (matches r)) <$> upperBracket pb = [4; 2; 1]
  ∧ label <$> last (upperBracket pb) = Some "Final"
  ∧ lowerBracket pb = [].

(** What [parseBracket] returns on a list [l] holding the matches of
    [singleElim7]: the final is taken out as the grand final, and the two
    upper rounds left are the quarterfinals under the label "Semifinal"
    and the semifinals under the label "Final", each in list order. *)
Definition scenarioA_actual (l : list PSBracketMatch) : Prop :=
  parseBracket 8 l =
    Some (Some {| upperBracket :=
                    [ {| label := "Semifinal"; matches := filter (λ m, (id m <= 4)%Z) l |};
                      {| label := "Final";
                         matches := filter (λ m, (5 <= id m)%Z ∧ (id m <= 6)%Z) l |} ];
                  lowerBracket := [];
                  grandFinal := Some (mkMatch 7 [(winner, 5%Z); (winner, 6%Z)]) |}).

End Bracket.

(** ** JavaScript numbers as doubles *)

(** The arithmetic of a JavaScript number: IEEE 754 binary64, every
    operation rounded to the nearest double, ties to even. *)
Module Binary64.

Definition prec : Z := 53.
Definition emax : Z := 1024.

(** The double of an integer literal. *)
Definition of_Z (z : Z) : spec_float := binary_normalize prec emax z 0 false.

Definition add : spec_float → spec_float → spec_float := SFadd prec emax.
Definition sub : spec_float → spec_float → spec_float := SFsub prec emax.
Definition mul : spec_float → spec_float → spec_float := SFmul prec emax.
Definition div : spec_float → spec_float → spec_float := SFdiv prec emax.

(** [x > 0]. *)
Definition positive (x : spec_float) : bool := SFltb (of_Z 0) x.

End Binary64.

(** ** Normalised statistics *)

Module Stats.

Local Open Scope Qc_scope.

Definition hundred : Qc := Q2Qc 100.
Definition two : Qc := Q2Qc 2.

(** [NormalizedPlayerStat]; an optional field is [None] when the property
    is [undefined].  The optional [faceitId], which no normalizer sets, is
    left out. *)
Record NormalizedPlayerStat : Set := {
  playerId : string;
  nickname : string;
  kills : Qc;
  deaths : Qc;
  assists : Qc;
  kdDiff : Qc;
  kdRatio : Qc;
  hsPercent : option Qc;
  krRatio : option Qc;
  mvps : option Qc;
  adr : option Qc;
  kast : option Qc;
  rating : option Qc;
  tripleKills : option Qc;
  quadroKills : option Qc;
  pentaKills : option Qc
}.

Record NormalizedMapStats : Set := {
  mapName : string;
  mapNumber : nat;
  team1Score : Qc;
  team2Score : Qc;
  team1Won : bool;
  team1FirstHalf : option Qc;
  team1SecondHalf : option Qc;
  team2FirstHalf : option Qc;
  team2SecondHalf : option Qc;
  team1Overtime : option Qc;
  team2Overtime : option Qc;
  team1Players : list NormalizedPlayerStat;
  team2Players : list NormalizedPlayerStat
}.

Inductive Source : Set := faceit | hltv | grid | pandascore.

Inductive StatColumnKey : Set :=
  | col_kills | col_deaths | col_assists | col_kdDiff | col_kdRatio | col_hsPercent
  | col_krRatio | col_mvps | col_adr | col_kast | col_rating.

Record NormalizedMatchStats : Set := {
  source : Source;
  team1Name : string;
  team2Name : string;
  team1ImageUrl : option string;
  team2ImageUrl : option string;
  maps : list NormalizedMapStats;
  availableColumns : list StatColumnKey;
  hasSideSplits : bool
}.

Global Instance StatColumnKey_eq_dec : EqDecision StatColumnKey.
Proof. solve_decision. Defined.
Global Instance NormalizedPlayerStat_eq_dec : EqDecision NormalizedPlayerStat.
Proof. solve_decision. Defined.

(** The value a record holds under a column key, [None] when the record
    leaves the property [undefined]. *)
Definition column (k : StatColumnKey) (p : NormalizedPlayerStat) : option Qc :=
  match k with
  | col_kills => Some (kills p)
  | col_deaths => Some (deaths p)
  | col_assists => Some (assists p)
  | col_kdDiff => Some (kdDiff p)
  | col_kdRatio => Some (kdRatio p)
  | col_hsPercent => hsPercent p
  | col_krRatio => krRatio p
  | col_mvps => mvps p
  | col_adr => adr p
  | col_kast => kast p
  | col_rating => rating p
  end.

(** All player records a normalizer emitted. *)
Definition playersOf (s : NormalizedMatchStats) : list NormalizedPlayerStat :=
  flat_map (λ m, team1Players m ++ team2Players m) (maps s).

(** [kdDiff] is the difference; [kdRatio] is the quotient when there is a
    death and the kill count when there is none, so it never comes from a
    division by zero. *)
Definition kd_invariant (p : NormalizedPlayerStat) : Prop :=
  kdDiff p = kills p - deaths p
  ∧ (0 < deaths p → kdRatio p = kills p / deaths p)
  ∧ (deaths p = 0 → kdRatio p = kills p).

(** Every listed column holds a value in every emitted record. *)
Definition listed_are_populated (s : NormalizedMatchStats) : Prop :=
  ∀ k r, k ∈ availableColumns s → r ∈ playersOf s → is_Some (column k r).

(** Every column that holds a value in some emitted record is listed. *)
Definition populated_are_listed (s : NormalizedMatchStats) : Prop :=
  ∀ k r, r ∈ playersOf s → is_Some (column k r) → k ∈ availableColumns s.

(** The body shared by the two [formatMapName] helpers:
    [raw.replace(/^de_/i, '')], then the first letter in upper case. *)
Definition stripAndCapitalize (raw : string) : string :=
  let stripped :=
    if String.eqb (toLowerCase (String.substring 0 3 raw)) "de_"
    then String.substring 3 (String.length raw - 3) raw else raw in
  match stripped with
  | EmptyString => EmptyString
  | String c rest => String (upper_ascii c) rest
  end.

End Stats.

(** *** FACEIT *)

Module Faceit.
Import Stats.
Local Open Scope Qc_scope.

(** A [string | number] value of a FACEIT stats dictionary. *)
Inductive RawStat : Set := RawStr (s : string) | RawNum (q : Qc).

Record FaceitPlayerStats : Set := {
  player_id : string;
  nickname : string;
  player_stats : gmap string RawStat
}.

Record FaceitTeam : Set := {
  team_name : string;
  team_id : option string;
  team_stats : gmap string RawStat;
  players : list FaceitPlayerStats
}.

Record FaceitRound : Set := {
  round_stats : gmap string string;
  teams : list FaceitTeam
}.

Record FaceitMatchStats : Set := { rounds : list FaceitRound }.

Section WithParseFloat.
(** The built-in [parseFloat]; [None] is [NaN]. *)
Variable parseFloat : string → option Qc.

Definition parseNum (value : option RawStat) : Qc :=
  match value with
  | None => 0
  | Some (RawNum q) => q
  | Some (RawStr s) => default 0 (parseFloat s)
  end.

Definition parseNumOpt (value : option RawStat) : option Qc :=
  match value with
  | None => None
  | Some (RawNum q) => Some q
  | Some (RawStr s) => parseFloat s
  end.

Definition normalizePlayer (p : FaceitPlayerStats) : NormalizedPlayerStat :=
  let kills := parseNum (player_stats p !! "Kills") in
  let deaths := parseNum (player_stats p !! "Deaths") in
  let assists := parseNum (player_stats p !! "Assists") in
  {| Stats.playerId := player_id p;
     Stats.nickname := nickname p;
     Stats.kills := kills;
     Stats.deaths := deaths;
     Stats.assists := assists;
     Stats.kdDiff := kills - deaths;
     Stats.kdRatio := if bool_decide (0 < deaths) then kills / deaths else kills;
     Stats.hsPercent := parseNumOpt (player_stats p !! "Headshots %");
     Stats.krRatio := parseNumOpt (player_stats p !! "K/R Ratio");
     Stats.mvps := parseNumOpt (player_stats p !! "MVPs");
     Stats.adr := None;
     Stats.kast := None;
     Stats.rating := None;
     Stats.tripleKills := parseNumOpt (player_stats p !! "Triple Kills");
     Stats.quadroKills := parseNumOpt (player_stats p !! "Quadro Kills");
     Stats.pentaKills := parseNumOpt (player_stats p !! "Penta Kills") |}.

(** [t?.team_stats?.[key]]. *)
Definition teamStat (t : option FaceitTeam) (key : string) : option RawStat :=
  t ≫= λ t', team_stats t' !! key.

(** [a ?? b]. *)
Definition nullish {A} (a b : option A) : option A :=
  match a with Some _ => a | None => b end.

Definition normalizeRound (i : nat) (round : FaceitRound) : NormalizedMapStats :=
  let t1 := teams round !! 0%nat in
  let t2 := teams round !! 1%nat in
  let team1Score := parseNum (nullish (teamStat t1 "Final Score") (teamStat t1 "FinalScore")) in
  let team2Score := parseNum (nullish (teamStat t2 "Final Score") (teamStat t2 "FinalScore")) in
  {| mapName := opt_str_or (round_stats round !! "Map") ("Map " +:+ show_nat (i + 1));
     mapNumber := (i + 1)%nat;
     Stats.team1Score := team1Score;
     Stats.team2Score := team2Score;
     team1Won := bool_decide (team2Score < team1Score);
     team1FirstHalf := parseNumOpt (teamStat t1 "First Half Score");
     team1SecondHalf := parseNumOpt (teamStat t1 "Second Half Score");
     team2FirstHalf := parseNumOpt (teamStat t2 "First Half Score");
     team2SecondHalf := parseNumOpt (teamStat t2 "Second Half Score");
     team1Overtime := parseNumOpt (teamStat t1 "Overtime score");
     team2Overtime := parseNumOpt (teamStat t2 "Overtime score");
     team1Players := normalizePlayer <$> from_option players [] t1;
     team2Players := normalizePlayer <$> from_option players [] t2 |}.

Definition availableColumns : list StatColumnKey :=
  [col_kills; col_deaths; col_assists; col_kdDiff; col_kdRatio; col_hsPercent;
   col_krRatio; col_mvps].

Definition normalizeFaceitStats (stats : FaceitMatchStats) (team1Name team2Name : string)
    : option NormalizedMatchStats :=
  match rounds stats with
  | [] => None
  | _ :: _ =>
    Some {| source := faceit;
            Stats.team1Name := team1Name;
            Stats.team2Name := team2Name;
            team1ImageUrl := None;
            team2ImageUrl := None;
            maps := imap normalizeRound (rounds stats);
            Stats.availableColumns := availableColumns;
            hasSideSplits := false |}
  end.

End WithParseFloat.

(** An instance of [parseFloat] for the examples: it reads the strings of
    decimal digits and gives [NaN] on everything else. *)
Definition parseDigits (s : string) : option Qc :=
  if String.eqb s "" then None
  else (λ u, Q2Qc (inject_Z (Z.of_uint u))) <$> NilEmpty.uint_of_string s.

Definition mkPlayer (pid nick : string) (stats : list (string * RawStat)) : FaceitPlayerStats :=
  {| player_id := pid; nickname := nick; player_stats := list_to_map stats |}.

(** A player for whom FACEIT reports a headshot percentage but no kill. *)
Definition benched : FaceitPlayerStats :=
  mkPlayer "p-3" "sub" [("Headshots %", RawStr "50")].

(** A player whose dictionary lacks the [MVPs] entry. *)
Definition noMvps : FaceitPlayerStats :=
  mkPlayer "p-4" "rook" [("Kills", RawStr "7"); ("Deaths", RawStr "9")].

(** Two maps on each of which [benched] is the only player of team 1. *)
Definition benchedTwice : FaceitMatchStats :=
  let round :=
    {| round_stats := ∅;
       teams := [ {| team_name := "alpha"; team_id := None; team_stats := ∅;
                     players := [benched] |} ] |} in
  {| rounds := [round; round] |}.

(** A two-map match with the same two players on team 1. *)
Definition sampleStats : FaceitMatchStats :=
  let team1 (k1 d1 k2 : string) :=
    {| team_name := "alpha"; team_id := None;
       team_stats := list_to_map [("Final Score", RawStr "13")];
       players :=
         [ mkPlayer "p-1" "ace" [("Kills", RawStr k1); ("Deaths", RawStr d1);
                                 ("Assists", RawNum 1); ("Headshots %", RawStr "40");
                                 ("MVPs", RawStr "2")];
           mkPlayer "p-2" "bolt" [("Kills", RawStr k2); ("Deaths", RawStr "0");
                                  ("Assists", RawNum 0); ("Headshots %", RawStr "25")] ] |} in
  let team2 :=
    {| team_name := "beta"; team_id := None;
       team_stats := list_to_map [("Final Score", RawStr "9")];
       players := [noMvps] |} in
  {| rounds :=
       [ {| round_stats := list_to_map [("Map", "de_mirage")];
            teams := [team1 "15" "10" "4"; team2] |};
         {| round_stats := ∅;
            teams := [team1 "5" "12" "8"; team2] |} ] |}.

End Faceit.

(** *** PandaScore *)

Module Panda.
Import Stats.
Local Open Scope Qc_scope.

(** The [stats] object of [PSMatchPlayerStats]; [null] is [None]. *)
Record PSStats : Set := {
  kills : Qc;
  deaths : Qc;
  assists : Qc;
  headshots : Qc;
  adr : option Qc;
  kast : option Qc;
  rating : option Qc
}.

Record PSMatchPlayerStats : Set := {
  player_id : Z;
  team_id : Z;
  stats : PSStats;
  game_id : Z
}.

Record PSWinner : Set := { winner_id : Z; winner_type : string }.

Record PSGame : Set := {
  id : Z;
  position : Z;
  status : string;
  finished : bool;
  map : option (option string);
  winner : option PSWinner
}.

Definition formatMapName (raw : option string) : string :=
  match raw with
  | Some r => if String.eqb r "" then "Unknown" else stripAndCapitalize r
  | None => "Unknown"
  end.

Section WithContext.
Variables (team1Id team2Id : Z) (playerNames : option (gmap Z string)).

Definition normalizePS (ps : PSMatchPlayerStats) : NormalizedPlayerStat :=
  let kills := kills (stats ps) in
  let deaths := deaths (stats ps) in
  let assists := assists (stats ps) in
  let hsPercent := if bool_decide (0 < kills) then (headshots (stats ps) / kills) * hundred else 0 in
  {| playerId := show_Z (player_id ps);
     nickname := default ("Player " +:+ show_Z (player_id ps))
                         (playerNames ≫= λ names, names !! player_id ps);
     Stats.kills := kills;
     Stats.deaths := deaths;
     Stats.assists := assists;
     kdDiff := kills - deaths;
     kdRatio := if bool_decide (0 < deaths) then kills / deaths else kills;
     Stats.hsPercent := Some hsPercent;
     krRatio := None;
     mvps := None;
     Stats.adr := adr (stats ps);
     Stats.kast := kast (stats ps);
     Stats.rating := rating (stats ps);
     tripleKills := None;
     quadroKills := None;
     pentaKills := None |}.

Definition wonBy (game : PSGame) (teamId : Z) : bool :=
  match winner game with
  | Some w => bool_decide (winner_id w = teamId)
  | None => false
  end.

Definition normalizeGame (playerStats : list PSMatchPlayerStats) (i : nat) (game : PSGame)
    : NormalizedMapStats :=
  let gamePlayerStats := filter (λ ps, game_id ps = id game) playerStats in
  let t1Stats := filter (λ ps, team_id ps = team1Id) gamePlayerStats in
  let t2Stats := filter (λ ps, team_id ps = team2Id) gamePlayerStats in
  let t1Won := wonBy game team1Id in
  let t2Won := wonBy game team2Id in
  {| mapName := formatMapName (mjoin (map game));
     mapNumber := (i + 1)%nat;
     team1Score := if t1Won then 1 else 0;
     team2Score := if t2Won then 1 else 0;
     team1Won := t1Won;
     team1FirstHalf := None;
     team1SecondHalf := None;
     team2FirstHalf := None;
     team2SecondHalf := None;
     team1Overtime := None;
     team2Overtime := None;
     team1Players := normalizePS <$> t1Stats;
     team2Players := normalizePS <$> t2Stats |}.

End WithContext.

Definition columnsFor (hasAdr hasKast hasRating : bool) : list StatColumnKey :=
  [col_kills; col_deaths; col_assists; col_kdDiff; col_kdRatio; col_hsPercent]
  ++ (if hasAdr then [col_adr] else [])
  ++ (if hasKast then [col_kast] else [])
  ++ (if hasRating then [col_rating] else []).

Definition normalizePandaScoreStats (playerStats : list PSMatchPlayerStats) (games : list PSGame)
    (team1Name team2Name : string) (team1Id team2Id : Z)
    (team1ImageUrl team2ImageUrl : option string) (playerNames : option (gmap Z string))
    : option NormalizedMatchStats :=
  match playerStats, games with
  | [], _ => None
  | _, [] => None
  | _ :: _, _ :: _ =>
    let sortedGames := sort_by (λ a b, position a - position b)%Z games in
    let hasKast := existsb (λ ps, bool_decide (is_Some (kast (stats ps)))) playerStats in
    let hasRating := existsb (λ ps, bool_decide (is_Some (rating (stats ps)))) playerStats in
    let hasAdr := existsb (λ ps, bool_decide (is_Some (adr (stats ps)))) playerStats in
    let maps :=
      imap (normalizeGame team1Id team2Id playerNames playerStats)
           (filter (λ g, finished g = true ∨ status g = "running") sortedGames) in
    match maps with
    | [] => None
    | _ :: _ =>
      Some {| source := pandascore;
              Stats.team1Name := team1Name;
              Stats.team2Name := team2Name;
              Stats.team1ImageUrl := team1ImageUrl;
              Stats.team2ImageUrl := team2ImageUrl;
              Stats.maps := maps;
              availableColumns := columnsFor hasAdr hasKast hasRating;
              hasSideSplits := false |}
    end
  end.

(** A one-game match: player 11 of team 1 comes with an [adr], player 21
    of team 2 without. *)
Definition mkStat (pid tid gid : Z) (k d a hs : Z) (adr : option Qc) : PSMatchPlayerStats :=
  {| player_id := pid; team_id := tid; game_id := gid;
     stats := {| kills := Q2Qc (inject_Z k); deaths := Q2Qc (inject_Z d);
                 assists := Q2Qc (inject_Z a); headshots := Q2Qc (inject_Z hs);
                 adr := adr; kast := None; rating := None |} |}.

Definition samplePlayerStats : list PSMatchPlayerStats :=
  [ mkStat 11 1 500 10 5 2 4 (Some (Q2Qc 80)); mkStat 21 2 500 0 12 1 0 None ]%Z.

Definition sampleGames : list PSGame :=
  [ {| id := 500; position := 1; status := "finished"; finished := true;
       map := Some (Some "de_nuke");
       winner := Some {| winner_id := 1; winner_type := "Team" |} |} ]%Z.

End Panda.

(** *** Grid *)

Module Grid.
Import Stats.
Local Open Scope Qc_scope.

Record GridGamePlayerStats : Set := {
  id : string;
  name : string;
  kills : Qc;
  deaths : Qc;
  killAssistsGiven : Qc;
  headshots : Qc;
  damageDealt : Qc
}.

Record GridGameTeamStats : Set := {
  team_id : string;
  team_name : string;
  won : bool;
  score : Qc;
  players : list GridGamePlayerStats
}.

Record GridGameStats : Set := {
  game_id : string;
  sequenceNumber : Z;
  finished : bool;
  map : option string;
  teams : list GridGameTeamStats
}.

Record GridSeriesState : Set := {
  series_id : string;
  series_finished : bool;
  format : string;
  games : option (list GridGameStats)
}.

Definition normalizePlayer (p : GridGamePlayerStats) (totalRounds : Qc) : NormalizedPlayerStat :=
  let kills := kills p in
  let deaths := deaths p in
  let assists := killAssistsGiven p in
  let hsPercent := if bool_decide (0 < kills) then (headshots p / kills) * hundred else 0 in
  let adr := if bool_decide (0 < totalRounds) then damageDealt p / totalRounds else 0 in
  {| playerId := id p;
     nickname := name p;
     Stats.kills := kills;
     Stats.deaths := deaths;
     Stats.assists := assists;
     kdDiff := kills - deaths;
     kdRatio := if bool_decide (0 < deaths) then kills / deaths else kills;
     Stats.hsPercent := Some hsPercent;
     krRatio := None;
     mvps := None;
     Stats.adr := Some adr;
     kast := None;
     rating := None;
     tripleKills := None;
     quadroKills := None;
     pentaKills := None |}.

(** [a ?? b]. *)
Definition nullish_team (a b : option GridGameTeamStats) : option GridGameTeamStats :=
  match a with Some _ => a | None => b end.

(** One game of [normalizeGridStats]; [None] is the [TypeError] raised by
    reading [score] of an absent team. *)
Definition normalizeGame (team1Name team2Name : string) (i : nat) (game : GridGameStats)
    : option NormalizedMapStats :=
  t1 ← nullish_team (find (λ t, String.eqb (team_name t) team1Name) (teams game)) (teams game !! 0%nat);
  t2 ← nullish_team (find (λ t, String.eqb (team_name t) team2Name) (teams game)) (teams game !! 1%nat);
  let totalRounds := score t1 + score t2 in
  Some {| mapName := match map game with
                     | Some raw => if String.eqb raw "" then "Map " +:+ show_nat (i + 1)
                                   else stripAndCapitalize raw
                     | None => "Map " +:+ show_nat (i + 1)
                     end;
          mapNumber := (i + 1)%nat;
          team1Score := score t1;
          team2Score := score t2;
          team1Won := won t1;
          team1FirstHalf := None;
          team1SecondHalf := None;
          team2FirstHalf := None;
          team2SecondHalf := None;
          team1Overtime := None;
          team2Overtime := None;
          team1Players := (λ p, normalizePlayer p totalRounds) <$> players t1;
          team2Players := (λ p, normalizePlayer p totalRounds) <$> players t2 |}.

Definition availableColumns : list StatColumnKey :=
  [col_kills; col_deaths; col_assists; col_kdDiff; col_kdRatio; col_hsPercent; col_adr].

(** [normalizeGridStats].  The outer [None] is a raised [TypeError], the
    inner one the [null] result. *)
Definition normalizeGridStats (seriesState : GridSeriesState)
    (team1ImageUrl team2ImageUrl : option string) : option (option NormalizedMatchStats) :=
  match games seriesState with
  | None => Some None
  | Some gs =>
    let games :=
      sort_by (λ a b, sequenceNumber a - sequenceNumber b)%Z
        (filter (λ g, finished g = true ∨ Exists (λ t, 0 < score t) (teams g)) gs) in
    match games with
    | [] => Some None
    | firstGame :: _ =>
      match teams firstGame with
      | ta :: tb :: _ =>
        let team1Name := team_name ta in
        let team2Name := team_name tb in
        maps ← mapM (λ x, x) (imap (normalizeGame team1Name team2Name) games);
        Some (Some {| source := grid;
                      Stats.team1Name := team1Name;
                      Stats.team2Name := team2Name;
                      Stats.team1ImageUrl := team1ImageUrl;
                      Stats.team2ImageUrl := team2ImageUrl;
                      Stats.maps := maps;
                      Stats.availableColumns := availableColumns;
                      hasSideSplits := false |})
      | _ => Some None
      end
    end
  end.

End Grid.

(** *** The "Overall" row of the stats table *)

Module Table.
Import Stats.
Local Open Scope Qc_scope.

Inductive TeamKey : Set := key_team1Players | key_team2Players.

(** [map[teamKey]]. *)
Definition playersAt (teamKey : TeamKey) (map : NormalizedMapStats) : list NormalizedPlayerStat :=
  match teamKey with
  | key_team1Players => team1Players map
  | key_team2Players => team2Players map
  end.

(** [existing.f = (existing.f ?? 0) + p.f] under [if (p.f !== undefined)]. *)
Definition sumOpt (existing p : option Qc) : option Qc :=
  match p with
  | Some x => Some (default 0 existing + x)
  | None => existing
  end.

(** [existing.f = (existing.f + p.f) / 2] under
    [if (p.f !== undefined && existing.f !== undefined)]. *)
Definition avgOpt (existing p : option Qc) : option Qc :=
  match p, existing with
  | Some x, Some e => Some ((e + x) / two)
  | _, _ => existing
  end.

(** The [else] branch of the loop body: the in-place update of [existing]
    with the row [p] of a later map. *)
Definition accumulate (existing p : NormalizedPlayerStat) : NormalizedPlayerStat :=
  let kills' := kills existing + kills p in
  let deaths' := deaths existing + deaths p in
  let assists' := assists existing + assists p in
  {| playerId := playerId existing;
     nickname := nickname existing;
     kills := kills';
     deaths := deaths';
     assists := assists';
     kdDiff := kills' - deaths';
     kdRatio := if bool_decide (0 < deaths') then kills' / deaths' else kills';
     hsPercent :=
       match hsPercent p, hsPercent existing with
       | Some phs, Some ehs =>
         let prevHSCount := (kills' - kills p) * (ehs / hundred) in
         let curHSCount := kills p * (phs / hundred) in
         Some (if bool_decide (0 < kills') then ((prevHSCount + curHSCount) / kills') * hundred
               else 0)
       | _, _ => hsPercent existing
       end;
     krRatio := avgOpt (krRatio existing) (krRatio p);
     mvps := sumOpt (mvps existing) (mvps p);
     adr := avgOpt (adr existing) (adr p);
     kast := avgOpt (kast existing) (kast p);
     rating := avgOpt (rating existing) (rating p);
     tripleKills := sumOpt (tripleKills existing) (tripleKills p);
     quadroKills := sumOpt (quadroKills existing) (quadroKills p);
     pentaKills := sumOpt (pentaKills existing) (pentaKills p) |}.

(** One iteration of the inner loop on the insertion-ordered [playerMap]:
    a first row is copied in at the end, a later one is folded into the
    entry already there. *)
Fixpoint visit (p : NormalizedPlayerStat) (playerMap : list (string * NormalizedPlayerStat))
    : list (string * NormalizedPlayerStat) :=
  match playerMap with
  | [] => [(playerId p, p)]
  | (k, existing) :: rest =>
    if String.eqb (playerId p) k then (k, accumulate existing p) :: rest
    else (k, existing) :: visit p rest
  end.

Definition aggregatePlayerStats (maps : list NormalizedMapStats) (teamKey : TeamKey)
    : list NormalizedPlayerStat :=
  let playerMap :=
    fold_left (λ playerMap map, fold_left (λ pm p, visit p pm) (playersAt teamKey map) playerMap)
              maps [] in
  snd <$> playerMap.

(** [playerMap.get(k)]. *)
Definition lookupPM (k : string) (pm : list (string * NormalizedPlayerStat))
    : option NormalizedPlayerStat :=
  snd <$> find (λ e, String.eqb k e.1) pm.

(** The maps of the two FACEIT samples, normalised. *)
Definition sampleMaps : list NormalizedMapStats :=
  from_option maps []
    (Faceit.normalizeFaceitStats Faceit.parseDigits Faceit.sampleStats "alpha" "beta").

Definition benchedMaps : list NormalizedMapStats :=
  from_option maps []
    (Faceit.normalizeFaceitStats Faceit.parseDigits Faceit.benchedTwice "alpha" "beta").

(** The vocabulary of the aggregation rules. *)

(** The rows of the player [pid], in the order the loops visit them. *)
Definition rowsOf (maps : list NormalizedMapStats) (teamKey : TeamKey) (pid : string)
    : list NormalizedPlayerStat :=
  filter (λ p, playerId p = pid) (flat_map (playersAt teamKey) maps).

(** The sum as the loop builds it: started at the first value, one
    addition per later value. *)
Definition sumQc (l : list Qc) : Qc :=
  match l with
  | [] => 0
  | x :: xs => fold_left Qcplus xs x
  end.

(** The sum of the values that are there, undefined when none is. *)
Definition sumDefined (l : list (option Qc)) : option Qc :=
  match omap (λ o, o) l with
  | [] => None
  | x :: xs => Some (sumQc (x :: xs))
  end.

(** The headshot update of the loop body, written over any arithmetic:
    [kills'] is [existing.kills] after the addition of [pkills], [ehs] is
    [existing.hsPercent] and [phs] is [p.hsPercent]. *)
Section HsArith.
Context {N : Type} (add sub mul div : N → N → N) (positive : N → bool) (zero hundred : N).

Definition combineHsWith (kills' pkills ehs phs : N) : N :=
  let prevHSCount := mul (sub kills' pkills) (div ehs hundred) in
  let curHSCount := mul pkills (div phs hundred) in
  if positive kills' then mul (div (add prevHSCount curHSCount) kills') hundred else zero.
End HsArith.

(** The same update on the statistic values of the model. *)
Definition combineHs : Qc → Qc → Qc → Qc → Qc :=
  combineHsWith Qcplus Qcminus Qcmult Qcdiv (λ x, bool_decide (0 < x)) 0 hundred.

(** The headshot percentage after the rows [rest], each given by its kills
    and its percentage, when the rows before them hold [killsSoFar] kills
    and the percentage [hsSoFar]. *)
Fixpoint recombineHs (killsSoFar hsSoFar : Qc) (rest : list (Qc * Qc)) : Qc :=
  match rest with
  | [] => hsSoFar
  | (k, h) :: rest' =>
    recombineHs (killsSoFar + k) (combineHs (killsSoFar + k) k hsSoFar h) rest'
  end.

(** The number [n] as a statistic value. *)
Fixpoint natQc (n : nat) : Qc :=
  match n with
  | O => 0
  | S n' => 1 + natQc n'
  end.

(** The "in particular" of C5: [n] maps with the same single row [p] give
    [n] times its kills and its headshot percentage. *)
Definition identical_maps_claim : Prop :=
  ∀ maps teamKey p r,
    Forall (λ m, playersAt teamKey m = [p]) maps →
    r ∈ aggregatePlayerStats maps teamKey →
    kills r = natQc (length maps) * kills p ∧ hsPercent r = hsPercent p.

End Table.

(** ** Grouping tournaments by serie *)

Module Home.

Record League : Set := {
  league_id : Z;
  league_name : string;
  league_url : option string;
  league_image_url : option string
}.

Record Serie : Set := {
  serie_id : Z;
  full_name : option string;
  serie_name : option string;
  year : option Z
}.

Inductive Status : Set := ongoing | upcoming | completed.

(** [AnnotatedTournament].  [serie] is optional because every access in
    [groupBySerie] goes through [t.serie?.].  Field names that several
    interfaces share ([id], [name], [tier]) carry a prefix on the input
    records. *)
Record AnnotatedTournament : Set := {
  t_id : Z;
  t_name : string;
  t_tier : string;
  begin_at : option string;
  end_at : option string;
  league : League;
  serie : option Serie;
  _status : Status;
  _isNA : bool
}.

Record ProEvent : Set := {
  id : string;
  name : string;
  tier : string;
  league_of : string;
  leagueImageUrl : option string;
  startDate : string;
  endDate : option string;
  status : Status;
  url : option string;
  isNA : bool;
  serieId : option Z;
  tournamentCount : option nat
}.

Global Instance Status_eq_dec : EqDecision Status.
Proof. solve_decision. Defined.

(** What indexing the object literal [TIER_RANK] can yield: the number
    stored under an own key, or, for a name the literal inherits from
    [Object.prototype], the built-in function found there or, under
    [__proto__], the prototype object itself. *)
Inductive Property : Set :=
  | own_rank (n : nat)
  | native_function (fname : string)
  | object_prototype.

Global Instance Property_eq_dec : EqDecision Property.
Proof. solve_decision. Defined.

(** The methods of [Object.prototype]; each is a built-in function whose
    name is its key, except [constructor], which is [Object]. *)
Definition prototypeMethods : list string :=
  [ "hasOwnProperty"; "isPrototypeOf"; "propertyIsEnumerable"; "toLocaleString";
    "toString"; "valueOf"; "__defineGetter__"; "__defineSetter__";
    "__lookupGetter__"; "__lookupSetter__" ].

(** [TIER_RANK[key]]; [None] is [undefined].  The table is a plain object,
    so a key that is not its own is looked up in [Object.prototype]. *)
Definition TIER_RANK (key : string) : option Property :=
  if String.eqb key "s" then Some (own_rank 0)
  else if String.eqb key "a" then Some (own_rank 1)
  else if String.eqb key "b" then Some (own_rank 2)
  else if String.eqb key "c" then Some (own_rank 3)
  else if String.eqb key "d" then Some (own_rank 4)
  else if String.eqb key "constructor" then Some (native_function "Object")
  else if String.eqb key "__proto__" then Some object_prototype
  else if existsb (String.eqb key) prototypeMethods then Some (native_function key)
  else None.

(** [TIER_RANK[tier?.toLowerCase()] ?? 99]: only [undefined] is replaced
    by 99, an inherited function or object is not. *)
Definition tierRank (tier : string) : Property :=
  default (own_rank 99) (TIER_RANK (toLowerCase tier)).

(** The primitive an operand of [<] is converted to: a number stays, a
    built-in function gives its source text (as V8 prints it) and the
    prototype object gives ["[object Object]"]. *)
Definition toPrimitive (v : Property) : nat + string :=
  match v with
  | own_rank n => inl n
  | native_function fname => inr ("function " +:+ fname +:+ "() { [native code] }")
  | object_prototype => inr "[object Object]"
  end.

(** [x < y].  Two strings are compared by code unit.  Otherwise both sides
    are converted to numbers; neither text above is a numeric literal, so
    it converts to [NaN], and a comparison with [NaN] is false. *)
Definition lessThan (x y : Property) : bool :=
  match toPrimitive x, toPrimitive y with
  | inl a, inl b => a <? b
  | inr s, inr t => match String.compare s t with Lt => true | _ => false end
  | _, _ => false
  end.

(** [t.serie?.id] when it is truthy. *)
Definition serieIdOf (t : AnnotatedTournament) : option Z :=
  match serie t with
  | Some s => if (serie_id s =? 0)%Z then None else Some (serie_id s)
  | None => None
  end.

Definition groupKey (t : AnnotatedTournament) : string :=
  match serieIdOf t with
  | Some sid => "serie-" +:+ show_Z sid
  | None => "tour-" +:+ show_Z (t_id t)
  end.

Definition buildGroups (tournaments : list AnnotatedTournament)
    : list (string * list AnnotatedTournament) :=
  fold_left (λ groups t, pushGroup String.eqb (groupKey t) t groups) tournaments [].

(** [t.serie?.full_name || t.serie?.name || '']. *)
Definition serieNameOf (t : AnnotatedTournament) : string :=
  opt_str_or (serie t ≫= full_name) (opt_str_or (serie t ≫= serie_name) "").

(** [tier?.toUpperCase() || '?']. *)
Definition showTier (tier : string) : string := str_or (toUpperCase tier) "?".

Definition singleEvent (t : AnnotatedTournament) : ProEvent :=
  let serieName := serieNameOf t in
  let displayName :=
    if String.eqb serieName "" then league_name (league t) +:+ " - " +:+ t_name t
    else league_name (league t) +:+ ": " +:+ serieName +:+ " - " +:+ t_name t in
  {| id := "ps-" +:+ show_Z (t_id t);
     name := displayName;
     tier := showTier (t_tier t);
     league_of := league_name (league t);
     leagueImageUrl := league_image_url (league t);
     startDate := opt_str_or (begin_at t) "";
     endDate := end_at t;
     status := _status t;
     url := league_url (league t);
     isNA := _isNA t;
     serieId := None;
     tournamentCount := None |}.

Definition aggregateStatus (group : list AnnotatedTournament) : Status :=
  if existsb (λ t, bool_decide (_status t = ongoing)) group then ongoing
  else if existsb (λ t, bool_decide (_status t = upcoming)) group then upcoming
  else completed.

(** [group.reduce((best, t) => ..., group[0].tier)]. *)
Definition bestTier (first : AnnotatedTournament) (group : list AnnotatedTournament) : string :=
  fold_left (λ best t, if lessThan (tierRank (t_tier t)) (tierRank best) then t_tier t else best)
            group (t_tier first).

(** The default [sort()] of an array of strings, by code unit. *)
Definition sortStrings : list string → list string :=
  sort_by (λ a b, match String.compare a b with Lt => (-1)%Z | Eq => 0%Z | Gt => 1%Z end).

(** [.filter(Boolean)] on [string | null] values. *)
Definition truthyStrings (l : list (option string)) : list string :=
  omap (λ o, match o with
             | Some s => if String.eqb s "" then None else Some s
             | None => None
             end) l.

Definition groupedEvent (first : AnnotatedTournament) (group : list AnnotatedTournament)
    : ProEvent :=
  let serieId := serie_id <$> serie first in
  let serieName := serieNameOf first in
  let displayName :=
    if String.eqb serieName "" then league_name (league first)
    else league_name (league first) +:+ ": " +:+ serieName in
  let beginDates := truthyStrings (begin_at <$> group) in
  let endDates := truthyStrings (end_at <$> group) in
  {| id := "ps-serie-" +:+ from_option show_Z "undefined" serieId;
     name := displayName;
     tier := showTier (bestTier first group);
     league_of := league_name (league first);
     leagueImageUrl := league_image_url (league first);
     startDate := default "" (head (sortStrings beginDates));
     endDate := head (reverse (sortStrings endDates));
     status := aggregateStatus group;
     url := league_url (league first);
     isNA := existsb _isNA group;
     serieId := serieId;
     tournamentCount := Some (length group) |}.

(** The body of the loop over [groups].  A group is created by the push
    of its first element, so the loop never meets an empty one. *)
Definition eventOfGroup (group : list AnnotatedTournament) : option ProEvent :=
  match group with
  | [] => None
  | [t] => Some (singleEvent t)
  | first :: _ :: _ => Some (groupedEvent first group)
  end.

Definition groupBySerie (tournaments : list AnnotatedTournament) : list ProEvent :=
  omap (λ g, eventOfGroup (snd g)) (buildGroups tournaments).

(** Scenario D: two stages of the serie 42, one of tier "A" that is
    completed and one of tier "S" that is ongoing. *)
Definition mkTournament (tid : Z) (tname tier : string) (sid : Z) (st : Status)
    : AnnotatedTournament :=
  {| t_id := tid; t_name := tname; t_tier := tier;
     begin_at := None; end_at := None;
     league := {| league_id := 7; league_name := "League"; league_url := None;
                  league_image_url := None |};
     serie := Some {| serie_id := sid; full_name := Some "Season 1"; serie_name := None;
                      year := None |};
     _status := st; _isNA := false |}.

Definition scenarioD : list AnnotatedTournament :=
  [ mkTournament 1 "Group Stage" "A" 42 completed;
    mkTournament 2 "Playoffs" "S" 42 ongoing ].


(** The rank the tier rule intends: S, A, B, C, D in this order, in either
    case, and every other tier after them. *)
Definition intendedRank (tier : string) : nat :=
  let key := toLowerCase tier in
  if String.eqb key "s" then 0
  else if String.eqb key "a" then 1
  else if String.eqb key "b" then 2
  else if String.eqb key "c" then 3
  else if String.eqb key "d" then 4
  else 99.

(** [ranked tier]: the lookup of the tier gives a number, the stored rank
    or the default 99. *)
Definition ranked (tier : string) : Prop := tierRank tier = own_rank (intendedRank tier).

End Home.

(** ** The pages that render a bracket *)

Module BracketShape.
Import Bracket.

(** [feedsLower ms x]: the match [x] of the list is reached from a match
    with a loser-type reference by following winner-type references
    forward. *)
Inductive feedsLower (ms : list PSBracketMatch) : Z → Prop :=
  | feeds_loser m p :
      m ∈ ms → p ∈ previous_matches m → type p = loser → feedsLower ms (id m)
  | feeds_winner m p :
      m ∈ ms → p ∈ previous_matches m → type p = winner →
      feedsLower ms (match_id p) → feedsLower ms (id m).

(** [depth_ordered c rounds]: no round is empty, the matches of one round
    share their depth, and a later round is strictly deeper than an
    earlier one. *)
Definition depth_ordered (c : gmap Z nat) (rounds : list BracketRound) : Prop :=
  Forall (λ r, matches r ≠ []) rounds
  ∧ (∀ r a b, r ∈ rounds → a ∈ matches r → b ∈ matches r →
       cachedDepth c a = cachedDepth c b)
  ∧ (∀ i j ri rj a b, i < j → rounds !! i = Some ri → rounds !! j = Some rj →
       a ∈ matches ri → b ∈ matches rj → cachedDepth c a < cachedDepth c b).

(** The label of the round at index [i] of [n] upper rounds, without the
    "UB " prefix. *)
Definition upperName (n i nmatches : nat) : string :=
  if decide (n ≤ 1 ∨ i + 1 = n) then "Final"
  else if decide (i + 2 = n) then "Semifinal"
  else if decide (i + 3 = n ∧ nmatches = 4) then "Quarterfinal"
  else "Round " +:+ show_nat (i + 1).

End BracketShape.

Module Views.
Import Bracket.

(** [bracket && (bracket.upperBracket.length > 0 ||
    bracket.lowerBracket.length > 0 || bracket.grandFinal)], as a
    condition. *)
Definition hasBracket (bracket : option ParsedBracket) : bool :=
  match bracket with
  | Some b =>
    (0 <? length (upperBracket b)) || (0 <? length (lowerBracket b))
    || bool_decide (is_Some (grandFinal b))
  | None => false
  end.

(** What the bracket area of a page holds: [BracketSection] elements,
    each with its title and its rounds, and the [BracketMatchCard] under
    the "Grand Final" heading. *)
Inductive Block : Set :=
  | BracketSection (title : string) (rounds : list BracketRound)
  | GrandFinalCard (m : PSBracketMatch).

(** [cond && <X />]. *)
Definition when {A} (cond : bool) (x : A) : list A := if cond then [x] else [].

(** The bracket area of the tournament page; [None] is the list view of
    the [else] branch.  The grand final is appended to the rounds of the
    upper section. *)
Definition tournamentPage (bracket : option ParsedBracket) : option (list Block) :=
  match bracket with
  | Some b =>
    if hasBracket bracket then
      Some (when (0 <? length (upperBracket b))
              (BracketSection
                 (if 0 <? length (lowerBracket b) then "Upper Bracket" else "Bracket")
                 (match grandFinal b with
                  | Some g => upperBracket b ++ [{| label := "Grand Final"; matches := [g] |}]
                  | None => upperBracket b
                  end))
            ++ when (0 <? length (lowerBracket b))
                 (BracketSection "Lower Bracket" (lowerBracket b)))
    else None
  | None => None
  end.

(** The bracket area of a stage of [SerieTabs]. *)
Definition serieTabs (bracket : option ParsedBracket) : option (list Block) :=
  match bracket with
  | Some b =>
    if hasBracket bracket then
      Some (when (0 <? length (upperBracket b))
              (BracketSection
                 (if 0 <? length (lowerBracket b) then "Upper Bracket" else "Bracket")
                 (upperBracket b))
            ++ when (0 <? length (lowerBracket b))
                 (BracketSection "Lower Bracket" (lowerBracket b))
            ++ match grandFinal b with
               | Some g => [GrandFinalCard g]
               | None => []
               end)
    else None
  | None => None
  end.

(** The match cards of a block, in document order.  [BracketSection]
    renders one card per match of each of its rounds. *)
Definition cardsOf (b : Block) : list PSBracketMatch :=
  match b with
  | BracketSection _ rounds => flat_map matches rounds
  | GrandFinalCard m => [m]
  end.

Definition cards (blocks : list Block) : list PSBracketMatch := flat_map cardsOf blocks.

End Views.

(** ** The stats table: columns, sorting, tab labels *)

Module Columns.
Import Stats.
Local Open Scope Qc_scope.

(** [STAT_COLUMNS[key].colorFn(v)], the tailwind class of a cell.  The
    decimal literals [1.1] and [0.9] are the rationals 11/10 and 9/10. *)
Definition colorFn (key : StatColumnKey) (v : option Qc) : string :=
  match key with
  | col_kills => "text-success"
  | col_deaths => "text-live"
  | col_assists => "text-text-secondary"
  | col_kdDiff => if bool_decide (0 ≤ default 0 v) then "text-success" else "text-live"
  | col_kdRatio => if bool_decide (1 ≤ default 0 v) then "text-success" else "text-live"
  | col_hsPercent => "text-text-secondary"
  | col_krRatio => "text-text-secondary"
  | col_mvps => "text-warning"
  | col_adr =>
    if bool_decide (Q2Qc 80 ≤ default 0 v) then "text-success" else "text-text-secondary"
  | col_kast =>
    if bool_decide (Q2Qc 70 ≤ default 0 v) then "text-success" else "text-text-secondary"
  | col_rating =>
    let r := default 0 v in
    if bool_decide (Q2Qc (11 # 10) ≤ r) then "text-success"
    else if bool_decide (r ≤ Q2Qc (9 # 10)) then "text-live"
    else "text-text-secondary"
  end.

(** The class of the cell of [TeamStatsTable] for the row [player] and
    the column [colKey]; every entry of [STAT_COLUMNS] has a [colorFn]. *)
Definition cellColor (colKey : StatColumnKey) (player : NormalizedPlayerStat) : string :=
  colorFn colKey (column colKey player).

Definition getSortColumn (columns : list StatColumnKey) : StatColumnKey :=
  if bool_decide (col_rating ∈ columns) then col_rating else col_kills.

(** [player[column] ?? 0]. *)
Definition sortValue (col : StatColumnKey) (player : NormalizedPlayerStat) : Qc :=
  default 0 (column col player).

(** The sign of a number, which is all that [sort] reads of the result
    of its comparator. *)
Definition signOf (q : Qc) : Z :=
  match Qccompare q 0 with
  | Lt => (-1)%Z
  | Eq => 0%Z
  | Gt => 1%Z
  end.

Definition sortPlayers (players : list NormalizedPlayerStat) (col : StatColumnKey)
    : list NormalizedPlayerStat :=
  sort_by (λ a b, signOf (sortValue col b - sortValue col a)) players.

(** The two numbers of the "All Maps (a - b)" tab. *)
Definition overallScore1 (stats : NormalizedMatchStats) : nat :=
  length (filter (λ m, team1Won m = true) (maps stats)).

Definition overallScore2 (stats : NormalizedMatchStats) : nat :=
  length (filter (λ m, negb (team1Won m) = true) (maps stats)).

End Columns.

(** A finished Grid game of 13 and 9 rounds with one player a side, and
    a second game of the same series that has not started. *)
Module GridSample.
Import Grid.
Local Open Scope Qc_scope.

Definition mkPlayer (pid pname : string) (k d a hs dmg : Z) : GridGamePlayerStats :=
  {| id := pid; name := pname; kills := Q2Qc (inject_Z k); deaths := Q2Qc (inject_Z d);
     killAssistsGiven := Q2Qc (inject_Z a); headshots := Q2Qc (inject_Z hs);
     damageDealt := Q2Qc (inject_Z dmg) |}.

Definition played : GridGameStats :=
  {| game_id := "g-1"; sequenceNumber := 1; finished := true; map := Some "de_inferno";
     teams :=
       [ {| team_id := "t-1"; team_name := "alpha"; won := true; score := Q2Qc 13;
            players := [mkPlayer "g-11" "ace" 22 11 3 10 2200] |};
         {| team_id := "t-2"; team_name := "beta"; won := false; score := Q2Qc 9;
            players := [mkPlayer "g-21" "bolt" 11 22 5 4 1100] |} ] |}.

Definition notStarted : GridGameStats :=
  {| game_id := "g-2"; sequenceNumber := 2; finished := false; map := None; teams := [] |}.

Definition series : GridSeriesState :=
  {| series_id := "s-1"; series_finished := false; format := "Bo3";
     games := Some [notStarted; played] |}.

End GridSample.

(** ** The event list of the home page *)

Module EventList.
Import Home.

Inductive Source : Set := src_faceit | src_pandascore.

(** [UnifiedEvent]; an optional property that is absent is [None]. *)
Record UnifiedEvent : Set := {
  u_id : string;
  u_name : string;
  u_status : Status;
  u_startDate : string;
  u_isNA : bool;
  u_tier : option string;
  u_league : option string;
  u_leagueImageUrl : option string;
  u_region : option string;
  href : option string;
  externalUrl : option string;
  u_source : Source;
  u_tournamentCount : option nat
}.

Definition proToUnified (event : ProEvent) : UnifiedEvent :=
  let href :=
    if String.prefix "ps-serie-" (id event)
    then "/matches/pro/serie/" +:+ replace_first "ps-serie-" "" (id event)
    else "/matches/pro/" +:+ replace_first "ps-" "" (id event) in
  {| u_id := id event;
     u_name := name event;
     u_status := status event;
     u_startDate := startDate event;
     u_isNA := isNA event;
     u_tier := Some (tier event);
     u_league := Some (league_of event);
     u_leagueImageUrl := leagueImageUrl event;
     u_region := None;
     href := Some href;
     externalUrl := None;
     u_source := src_pandascore;
     u_tournamentCount := tournamentCount event |}.

(** The order of the default [sort()] on strings. *)
Definition str_le (a b : string) : Prop := String.compare a b ≠ Gt.

(** Three stages of the serie 42 with their dates, the last one without
    an end, and a tournament of its own. *)
Definition mkStage (tid : Z) (tname : string) (sid : Z) (b e : option string)
    : AnnotatedTournament :=
  {| t_id := tid; t_name := tname; t_tier := "a";
     begin_at := b; end_at := e;
     league := {| league_id := 7; league_name := "League"; league_url := None;
                  league_image_url := None |};
     serie := if (sid =? 0)%Z then None
              else Some {| serie_id := sid; full_name := None; serie_name := Some "Spring";
                           year := None |};
     _status := upcoming; _isNA := true |}.

Definition stages : list AnnotatedTournament :=
  [ mkStage 11 "Playoffs" 42 (Some "2026-03-10T10:00:00Z") (Some "2026-03-15T20:00:00Z");
    mkStage 12 "Cup" 0 (Some "2026-01-05T10:00:00Z") None;
    mkStage 13 "Groups" 42 (Some "2026-03-01T10:00:00Z") (Some "2026-03-08T20:00:00Z");
    mkStage 14 "Showmatch" 42 None None ]%Z.

End EventList.

(** ** Match cards and the pro overview *)

Module Profile.
Local Open Scope Qc_scope.

Record PSResult : Set := { score : Z; team_id : Z }.

Record PSOpponentTeam : Set := {
  opp_id : Z;
  opp_name : string;
  acronym : option string;
  image_url : option string
}.

Record PSOpponent : Set := { opp_type : string; opponent : PSOpponentTeam }.

Record PSNamed : Set := { named_id : Z; named_name : string }.

Record PSSerieRef : Set := {
  serie_ref_id : Z;
  full_name : option string;
  serie_ref_name : option string
}.

(** [PSMatchResult], with the fields that the helpers below read. *)
Record PSMatchResult : Set := {
  match_id : Z;
  opponents : list PSOpponent;
  results : list PSResult;
  tournament : option PSNamed;
  league : option PSNamed;
  serie : option PSSerieRef
}.

(** [getScore] of the bracket module and [getMatchTeamScore] of the
    overview pages:
    [match.results.find((r) => r.team_id === teamId)?.score ?? 0]. *)
Definition getScore (match_ : PSMatchResult) (teamId : Z) : Z :=
  from_option score 0%Z (find (λ r, bool_decide (team_id r = teamId)) (results match_)).

Definition getMatchTeamScore (match_ : PSMatchResult) (teamId : Z) : Z :=
  from_option score 0%Z (find (λ r, bool_decide (team_id r = teamId)) (results match_)).

(** [match.opponents.find((o) => o.opponent.id !== teamId)?.opponent ?? null]. *)
Definition getOpponent (match_ : PSMatchResult) (teamId : Z) : option PSOpponentTeam :=
  opponent <$> find (λ o, negb (bool_decide (opp_id (opponent o) = teamId))) (opponents match_).

(** A [string | null | undefined] value read for its truthiness: the
    string when it is there and not empty. *)
Definition truthy (v : option string) : option string :=
  match v with
  | Some s => if String.eqb s "" then None else Some s
  | None => None
  end.

(** [a || b] on such values. *)
Definition or_else (a b : option string) : option string :=
  match truthy a with
  | Some s => Some s
  | None => truthy b
  end.

Definition buildTournamentName (match_ : PSMatchResult) : string :=
  let serieName := or_else (serie match_ ≫= full_name) (serie match_ ≫= serie_ref_name) in
  let tournamentName := truthy (named_name <$> tournament match_) in
  let leagueName := truthy (named_name <$> league match_) in
  match serieName, tournamentName with
  | Some s, Some t => if String.eqb t s then s else s +:+ " - " +:+ t
  | Some s, None => s
  | None, _ =>
    match tournamentName, leagueName with
    | Some t, Some l => if String.eqb t l then t else l +:+ ": " +:+ t
    | Some t, None => t
    | None, Some l => l
    | None, None => "Unknown Event"
    end
  end.

Record PSPlayerCareerStats : Set := {
  adr : option Qc;
  kast : option Qc;
  rating : option Qc;
  kills_per_round : option Qc;
  deaths_per_round : option Qc;
  headshot_percentage : option Qc
}.

Record ComputedPlayerStats : Set := {
  totalKills : Qc;
  totalDeaths : Qc;
  totalAssists : Qc;
  totalHeadshots : Qc;
  totalDamage : Qc;
  totalRounds : Qc;
  mapsPlayed : Qc
}.

Inductive StatsSource : Set := from_pandascore | from_grid.

(** The object that [deriveEffectiveStats] returns; [null] fields are
    [None]. *)
Record EffectiveStats : Set := {
  e_rating : option Qc;
  kpr : option Qc;
  dpr : option Qc;
  kd : option Qc;
  e_adr : option Qc;
  hsPercent : option Qc;
  e_kast : option Qc;
  e_mapsPlayed : option Qc;
  e_source : StatsSource
}.

Definition deriveEffectiveStats (careerStats : option PSPlayerCareerStats)
    (computedStats : option ComputedPlayerStats) : option EffectiveStats :=
  match careerStats with
  | Some cs =>
    let kpr := kills_per_round cs in
    let dpr := deaths_per_round cs in
    Some {| e_rating := rating cs;
            kpr := kpr;
            dpr := dpr;
            kd := match kpr, dpr with
                  | Some k, Some d => if bool_decide (0 < d) then Some (k / d) else None
                  | _, _ => None
                  end;
            e_adr := adr cs;
            hsPercent := headshot_percentage cs;
            e_kast := kast cs;
            e_mapsPlayed := None;
            e_source := from_pandascore |}
  | None =>
    match computedStats with
    | Some c =>
      if bool_decide (0 < totalRounds c) then
        Some {| e_rating := None;
                kpr := Some (totalKills c / totalRounds c);
                dpr := Some (totalDeaths c / totalRounds c);
                kd := if bool_decide (0 < totalDeaths c)
                      then Some (totalKills c / totalDeaths c) else None;
                e_adr := Some (totalDamage c / totalRounds c);
                hsPercent := if bool_decide (0 < totalKills c)
                             then Some ((totalHeadshots c / totalKills c) * Stats.hundred)
                             else None;
                e_kast := None;
                e_mapsPlayed := Some (mapsPlayed c);
                e_source := from_grid |}
      else None
    | None => None
    end
  end.

End Profile.

(** ** The PandaScore match page and the FACEIT match API route *)

Module MatchPage.

(** [s.padStart(2, '0')]. *)
Definition padStart2 (s : string) : string :=
  match String.length s with
  | 0 => "00"
  | 1 => "0" +:+ s
  | _ => s
  end.

(** [formatDuration] on a whole number of seconds; [null] is [None]. *)
Definition formatDuration (seconds : option Z) : string :=
  match seconds with
  | None => ""
  | Some s =>
    if (s =? 0)%Z then ""
    else
      let mins := (s / 60)%Z in
      let secs := Z.rem s 60 in
      show_Z mins +:+ ":" +:+ padStart2 (show_Z secs)
  end.

End MatchPage.

Module Paging.
Section WithItems.
Context {A : Type}.

(** The answer to one request: [res.ok] false with its status, or the
    [items] of the body ([data.items || []]). *)
Inductive Response : Type :=
  | NotOk (status : nat)
  | Ok (items : list A).

(** What [fetchAllPages] returns. *)
Inductive Fetched : Type :=
  | Failed (status : nat)
  | Items (items : list A).

Definition limit : nat := 100.

(** The [while (true)] loop of [fetchAllPages].  [fetch offset] is the
    answer to the request with that [offset]; every request of one run
    has an offset of its own.  [fuel] bounds the number of requests, and
    [None] is a loop that has not come back within it. *)
Fixpoint fetchLoop (fuel : nat) (fetch : nat → Response) (offset : nat) (allItems : list A)
    : option Fetched :=
  match fuel with
  | O => None
  | S fuel' =>
    match fetch offset with
    | NotOk status =>
      match allItems with
      | [] => Some (Failed status)
      | _ :: _ => Some (Items allItems)
      end
    | Ok items =>
      let allItems' := allItems ++ items in
      if length items <? limit then Some (Items allItems')
      else fetchLoop fuel' fetch (offset + limit) allItems'
    end
  end.

Definition fetchAllPages (fuel : nat) (fetch : nat → Response) : option Fetched :=
  fetchLoop fuel fetch 0 [].

(** A server that holds [db] and serves the page asked for. *)
Definition paged (db : list A) (offset : nat) : Response :=
  Ok (take limit (drop offset db)).

End WithItems.
Arguments Response : clear implicits.
Arguments Fetched : clear implicits.
End Paging.

(** * Properties *)

(** ** Sorting and grouping *)

Section SortFacts.
Context {A : Type} (cmp : A → A → Z).

Lemma insert_sorted_Permutation x l : insert_sorted cmp x l ≡ₚ x :: l.
Proof.
  induction l as [|y l IH]; simpl; [done|].
  destruct (cmp x y <=? 0)%Z; [done|].
  rewrite IH. apply Permutation_swap.
Qed.

Lemma sort_by_Permutation l : sort_by cmp l ≡ₚ l.
Proof.
  induction l as [|x l IH]; simpl; [done|].
  rewrite insert_sorted_Permutation. by rewrite IH.
Qed.

Context (R : relation A) `{!Transitive R}.
Hypothesis cmp_le : ∀ a b, (cmp a b <=? 0)%Z = true → R a b.
Hypothesis cmp_gt : ∀ a b, (cmp a b <=? 0)%Z = false → R b a.

Lemma insert_sorted_StronglySorted x l :
  StronglySorted R l → StronglySorted R (insert_sorted cmp x l).
Proof.
  induction 1 as [|y l Hl IH Hy]; simpl.
  - repeat constructor.
  - destruct (cmp x y <=? 0)%Z eqn:E.
    + constructor; [by constructor|].
      constructor; [by apply cmp_le|].
      eapply Forall_impl; [exact Hy|]. intros z Hz. etrans; [by apply cmp_le|done].
    + constructor; [done|].
      rewrite insert_sorted_Permutation. constructor; [by apply cmp_gt|done].
  Qed.

Lemma sort_by_StronglySorted l : StronglySorted R (sort_by cmp l).
Proof.
  induction l as [|x l IH]; simpl; [constructor|].
  by apply insert_sorted_StronglySorted.
Qed.
End SortFacts.

Lemma elem_of_flat_map {A B} (f : A → list B) (l : list A) (y : B) :
  y ∈ flat_map f l ↔ ∃ x, x ∈ l ∧ y ∈ f x.
Proof.
  rewrite list_elem_of_In, in_flat_map. split.
  - intros (x & Hx & Hy). exists x. by rewrite !list_elem_of_In.
  - intros (x & Hx & Hy). exists x. by rewrite <-!list_elem_of_In.
Qed.

Section GroupFacts.
Context {K V : Type} (eqb : K → K → bool).
Hypothesis eqb_spec : ∀ a b, eqb a b = true ↔ a = b.

Lemma pushGroup_keys k v (g : list (K * list V)) :
  fst <$> pushGroup eqb k v g = if bool_decide (Exists (λ k', eqb k k' = true) (fst <$> g))
                                then fst <$> g else (fst <$> g) ++ [k].
Proof.
  induction g as [|[k' vs] g IH]; csimpl.
  - reflexivity.
  - destruct (eqb k k') eqn:E; csimpl.
    + rewrite bool_decide_eq_true_2; [done|]. by left.
    + rewrite IH. case_bool_decide as H1.
      * rewrite bool_decide_eq_true_2; [done|]. by right.
      * rewrite bool_decide_eq_false_2; [done|].
        inversion 1; simplify_eq/=; congruence.
Qed.

Lemma pushGroup_NoDup k v (g : list (K * list V)) :
  NoDup (fst <$> g) → NoDup (fst <$> pushGroup eqb k v g).
Proof.
  intros Hnd. rewrite pushGroup_keys. case_bool_decide as H1; [done|].
  apply NoDup_app. split_and!; [done| |apply NoDup_singleton].
  intros x Hx Hk. apply list_elem_of_singleton in Hk as ->.
  apply H1, Exists_exists. exists k. split; [done|]. by apply eqb_spec.
Qed.

Lemma pushGroup_concat k v (g : list (K * list V)) :
  concat (snd <$> pushGroup eqb k v g) ≡ₚ v :: concat (snd <$> g).
Proof.
  induction g as [|[k' vs] g IH]; csimpl; [done|].
  destruct (eqb k k'); csimpl.
  - rewrite <-(assoc_L (++)). simpl. by rewrite <-Permutation_middle.
  - rewrite IH. by rewrite <-Permutation_middle.
Qed.

Lemma groupGet_skip k vs (g : list (K * list V)) (l : list K) :
  k ∉ l → flat_map (λ k', groupGet eqb k' ((k, vs) :: g)) l = flat_map (λ k', groupGet eqb k' g) l.
Proof.
  induction l as [|k' l IH]; [done|].
  intros [Hne Hl]%not_elem_of_cons. cbn [flat_map groupGet].
  destruct (eqb k' k) eqn:E; [apply eqb_spec in E; congruence|].
  by rewrite <-IH.
Qed.

Lemma groupGet_flat (g : list (K * list V)) :
  NoDup (fst <$> g) → flat_map (λ k, groupGet eqb k g) (fst <$> g) = concat (snd <$> g).
Proof.
  induction g as [|[k vs] g IH]; csimpl; [done|].
  intros [Hk Hnd]%NoDup_cons.
  rewrite (proj2 (eqb_spec k k) eq_refl). f_equal.
  rewrite <-IH by done. by apply groupGet_skip.
Qed.

Lemma eqb_false a b : a ≠ b → eqb a b = false.
Proof. intros Hne. apply not_true_is_false. by rewrite eqb_spec. Qed.

Lemma groupGet_absent k (g : list (K * list V)) : k ∉ fst <$> g → groupGet eqb k g = [].
Proof.
  induction g as [|[k' vs] g IH]; [done|]. csimpl.
  intros [Hne Hg]%not_elem_of_cons. rewrite eqb_false by done. by apply IH.
Qed.

Lemma groupGet_pushGroup k k0 v (g : list (K * list V)) :
  groupGet eqb k (pushGroup eqb k0 v g)
  = if eqb k k0 then groupGet eqb k g ++ [v] else groupGet eqb k g.
Proof.
  induction g as [|[k' vs] g IH]; simpl.
  - by destruct (eqb k k0).
  - destruct (eqb k0 k') eqn:E0; simpl.
    + apply eqb_spec in E0 as ->. by destruct (eqb k k').
    + destruct (eqb k k') eqn:E; [|done].
      apply eqb_spec in E as ->.
      destruct (eqb k' k0) eqn:E1; [|done].
      apply eqb_spec in E1 as ->. rewrite (proj2 (eqb_spec k0 k0) eq_refl) in E0. done.
Qed.

Lemma groupGet_elem k vs (g : list (K * list V)) :
  NoDup (fst <$> g) → (k, vs) ∈ g → groupGet eqb k g = vs.
Proof.
  induction g as [|[k' vs'] g IH]; [by inversion 2|]. csimpl.
  intros [Hk Hnd]%NoDup_cons [[= -> ->]|Hin]%elem_of_cons.
  - by rewrite (proj2 (eqb_spec k' k') eq_refl).
  - rewrite eqb_false; [by apply IH|].
    intros ->. apply Hk. by apply (list_elem_of_fmap_2 fst _ (k', vs)).
Qed.

Lemma groupGet_found k (g : list (K * list V)) :
  groupGet eqb k g ≠ [] → (k, groupGet eqb k g) ∈ g.
Proof.
  induction g as [|[k' vs] g IH]; [done|]. simpl.
  destruct (eqb k k') eqn:E.
  - apply eqb_spec in E as ->. intros _. left.
  - intros H. right. by apply IH.
Qed.

Lemma pushGroup_nonempty k v (g : list (K * list V)) :
  Forall (λ e, e.2 ≠ []) g → Forall (λ e, e.2 ≠ []) (pushGroup eqb k v g).
Proof.
  induction 1 as [|[k' vs] g Hvs Hg IH]; simpl.
  - constructor; [done|constructor].
  - destruct (eqb k k'); constructor; try done. simpl. by destruct vs.
Qed.

(** What the grouping loop builds: the keys are distinct, no group is
    empty, and the group under a key holds the elements with that key in
    list order. *)
Lemma grouping_spec (key : V → K) (l : list V) :
  let groups := fold_left (λ g v, pushGroup eqb (key v) v g) l [] in
  NoDup (fst <$> groups)
  ∧ Forall (λ e, e.2 ≠ []) groups
  ∧ ∀ k, groupGet eqb k groups = filter (λ v, eqb k (key v) = true) l.
Proof.
  induction l as [|v l IH] using rev_ind; [by repeat constructor|].
  rewrite fold_left_app. cbn [fold_left]. destruct IH as (Hnd & Hne & Hget).
  split_and!.
  - by apply pushGroup_NoDup.
  - by apply pushGroup_nonempty.
  - intros k. rewrite groupGet_pushGroup, Hget, filter_app, filter_cons, filter_nil.
    destruct (eqb k (key v)); [by rewrite decide_True|].
    rewrite decide_False by done. by rewrite app_nil_r.
Qed.
End GroupFacts.

(** ** The bracket engine: depths *)

Module BracketFacts.
Import Bracket.

Lemma Math_max_ge (l : list nat) d : d ∈ l → d ≤ Math_max l.
Proof.
  induction 1 as [x l|x y l _ IH]; simpl; lia.
Qed.

Lemma Math_max_elem (l : list nat) : l ≠ [] → Math_max l ∈ l.
Proof.
  induction l as [|x l IH]; [done|]. intros _. simpl.
  destruct l as [|y l].
  - simpl. rewrite Nat.max_0_r. left.
  - destruct (Nat.max_spec x (Math_max (y :: l))) as [[_ ->]|[_ ->]].
    + right. by apply IH.
    + left.
Qed.

Section DepthFacts.
Variable matchMap : gmap Z PSBracketMatch.
Local Abbreviation hasDepth := (Bracket.hasDepth matchMap).
Local Abbreviation cache_ok := (Bracket.cache_ok matchMap).

Lemma depthOf_mono fuel fuel' x d :
  depthOf matchMap fuel x = Some d → fuel ≤ fuel' → depthOf matchMap fuel' x = Some d.
Proof.
  revert fuel' x d. induction fuel as [|fuel IH]; intros fuel' x d; [done|].
  intros H Hle. destruct fuel' as [|fuel']; [lia|]. simpl in *.
  destruct (matchMap !! x) as [m|]; [|done].
  destruct (previous_matches m) as [|p ps] eqn:Ep; [done|].
  apply bind_Some in H as (ds & Hds & Hd). apply bind_Some. exists ds. split; [|done].
  apply mapM_Some in Hds. apply mapM_Some.
  eapply Forall2_impl; [exact Hds|]. intros q dq Hq. apply IH; [done|lia].
Qed.

Lemma depthOf_fun f1 f2 x d1 d2 :
  depthOf matchMap f1 x = Some d1 → depthOf matchMap f2 x = Some d2 → d1 = d2.
Proof.
  intros H1 H2.
  apply (depthOf_mono _ (f1 `max` f2)) in H1; [|lia].
  apply (depthOf_mono _ (f1 `max` f2)) in H2; [|lia]. congruence.
Qed.


Lemma hasDepth_fun x d1 d2 : hasDepth x d1 → hasDepth x d2 → d1 = d2.
Proof. intros [f1 H1] [f2 H2]. eapply depthOf_fun; eauto. Qed.

Lemma hasDepth_absent x : matchMap !! x = None → hasDepth x 0.
Proof. intros H. exists 1. simpl. by rewrite H. Qed.

Lemma hasDepth_root x m :
  matchMap !! x = Some m → previous_matches m = [] → hasDepth x 0.
Proof. intros H Hp. exists 1. simpl. by rewrite H, Hp. Qed.

Lemma hasDepth_all (ps : list PrevMatch) (ds : list nat) :
  Forall2 (λ p d, hasDepth (match_id p) d) ps ds →
  ∃ fuel, Forall2 (λ p d, depthOf matchMap fuel (match_id p) = Some d) ps ds.
Proof.
  induction 1 as [|p d ps ds [f Hf] _ [F HF]]; [by exists 0; constructor|].
  exists (f `max` F). constructor.
  - eapply depthOf_mono; [exact Hf|lia].
  - eapply Forall2_impl; [exact HF|]. intros q dq Hq. eapply depthOf_mono; [exact Hq|lia].
Qed.

Lemma hasDepth_node x m ds :
  matchMap !! x = Some m → previous_matches m ≠ [] →
  Forall2 (λ p d, hasDepth (match_id p) d) (previous_matches m) ds →
  hasDepth x (Math_max ds + 1).
Proof.
  intros H Hp Hds. apply hasDepth_all in Hds as [F HF].
  exists (S F). simpl. rewrite H.
  destruct (previous_matches m) as [|p ps] eqn:Ep; [done|].
  apply bind_Some. exists ds. split; [|done]. by apply mapM_Some.
Qed.

Lemma hasDepth_inv x d :
  hasDepth x d →
  match matchMap !! x with
  | None => d = 0
  | Some m =>
    if decide (previous_matches m = []) then d = 0
    else ∃ ds, Forall2 (λ p dp, hasDepth (match_id p) dp) (previous_matches m) ds
               ∧ d = Math_max ds + 1
  end.
Proof.
  intros [fuel H]. destruct fuel as [|fuel]; [done|]. simpl in H.
  destruct (matchMap !! x) as [m|]; [|congruence].
  destruct (previous_matches m) as [|p ps] eqn:Ep; [rewrite decide_True by done; congruence|].
  rewrite decide_False by done.
  apply bind_Some in H as (ds & Hds & Hd). exists ds. split; [|congruence].
  apply mapM_Some in Hds. eapply Forall2_impl; [exact Hds|]. intros q dq Hq. by exists fuel.
Qed.

(** A predecessor is strictly shallower than the match it feeds. *)
Lemma hasDepth_pred x m p d dp :
  matchMap !! x = Some m → p ∈ previous_matches m →
  hasDepth x d → hasDepth (match_id p) dp → dp < d.
Proof.
  intros Hm Hp Hd Hdp. apply hasDepth_inv in Hd. rewrite Hm in Hd.
  destruct (decide (previous_matches m = [])) as [E|_]; [rewrite E in Hp; by inversion Hp|].
  destruct Hd as (ds & Hds & ->).
  apply list_elem_of_lookup in Hp as [i Hi].
  destruct (Forall2_lookup_l _ _ _ _ _ Hds Hi) as (dp' & Hi' & Hdp').
  rewrite (hasDepth_fun _ _ _ Hdp Hdp').
  apply list_elem_of_lookup_2, Math_max_ge in Hi'. lia.
Qed.


Lemma cache_ok_empty : cache_ok ∅.
Proof.
  split.
  - intros x d H. by rewrite lookup_empty in H.
  - intros x m p [d H]. by rewrite lookup_empty in H.
Qed.

Lemma cache_ok_insert c x d :
  cache_ok c → hasDepth x d →
  (∀ m p, matchMap !! x = Some m → p ∈ previous_matches m → is_Some (c !! match_id p)) →
  cache_ok (<[x := d]> c).
Proof.
  intros [Hc1 Hc2] Hd Hp. split.
  - intros y dy. rewrite lookup_insert. case_decide; [|by apply Hc1].
    intros [= <-]. by subst.
  - intros y m p Hy Hm Hin. rewrite lookup_insert in Hy. rewrite lookup_insert.
    destruct (decide (x = match_id p)); [by eexists|].
    destruct (decide (x = y)); [subst; by eapply Hp|by eapply Hc2].
Qed.

Lemma cache_ok_insert_subseteq c x d : cache_ok c → hasDepth x d → c ⊆ <[x := d]> c.
Proof.
  intros [Hc _] Hd. destruct (c !! x) as [d'|] eqn:E.
  - rewrite (hasDepth_fun _ _ _ Hd (Hc _ _ E)). by rewrite insert_id.
  - by apply insert_subseteq.
Qed.

Lemma memo_map_spec {A} (f : A → Memo nat) (key : A → Z) (l : list A) c ds c' :
  (∀ a c0 d c1, a ∈ l → cache_ok c0 → f a c0 = Some (d, c1) →
     cache_ok c1 ∧ c0 ⊆ c1 ∧ c1 !! key a = Some d) →
  cache_ok c → memo_map f l c = Some (ds, c') →
  cache_ok c' ∧ c ⊆ c' ∧ Forall2 (λ a d, c' !! key a = Some d) l ds.
Proof.
  revert c ds c'. induction l as [|a l IH]; intros c ds c' Hf Hc H.
  - injection H as <- <-. done.
  - simpl in H. unfold memo_bind in H.
    destruct (f a c) as [[d c1]|] eqn:Ea; [|done].
    destruct (memo_map f l c1) as [[ds' c2]|] eqn:El; [|done].
    injection H as <- <-.
    pose proof (Hf a c d c1 ltac:(left) Hc Ea) as (Hc1 & Hsub1 & Hd).
    assert (cache_ok c2 ∧ c1 ⊆ c2 ∧ Forall2 (λ a d, c2 !! key a = Some d) l ds')
      as (Hc2 & Hsub2 & Hds).
    { apply IH; [|done..]. intros a' c0 d' c3 Ha'. apply Hf. by right. }
    split_and!; [done|by etrans|].
    constructor; [|done]. eapply lookup_weaken; eauto.
Qed.

Lemma getDepth_spec fuel x c d c' :
  cache_ok c → getDepth matchMap fuel x c = Some (d, c') →
  cache_ok c' ∧ c ⊆ c' ∧ c' !! x = Some d.
Proof.
  revert x c d c'. induction fuel as [|fuel IH]; intros x c d c' Hc H; [done|].
  simpl in H. destruct (c !! x) as [d0|] eqn:Ec.
  { injection H as <- <-. done. }
  destruct (matchMap !! x) as [m|] eqn:Em.
  2:{ injection H as <- <-. pose proof (hasDepth_absent x Em).
      split_and!; [apply cache_ok_insert; [done..|congruence]
                  |by apply cache_ok_insert_subseteq|by rewrite lookup_insert_eq]. }
  destruct (previous_matches m) as [|p ps] eqn:Ep.
  { injection H as <- <-. pose proof (hasDepth_root x m Em Ep).
    split_and!; [apply cache_ok_insert; [done..|]
                |by apply cache_ok_insert_subseteq|by rewrite lookup_insert_eq].
    intros m' p' Hm'. rewrite Em in Hm'. injection Hm' as <-. rewrite Ep. by inversion 1. }
  unfold memo_bind in H.
  destruct (memo_map _ (p :: ps) c) as [[ds c1]|] eqn:El; [|done].
  injection H as <- <-.
  apply (memo_map_spec _ match_id) in El as (Hc1 & Hsub & Hds); [| |done].
  2:{ intros a c0 d' c2 _ Hc0 Ha. by apply IH. }
  assert (hasDepth x (Math_max ds + 1)) as Hd.
  { apply (hasDepth_node x m); [done|by rewrite Ep|]. rewrite Ep.
    eapply Forall2_impl; [exact Hds|]. intros q dq Hq. by apply Hc1. }
  split_and!; [apply cache_ok_insert; [done..|]| |by rewrite lookup_insert_eq].
  - intros m' q Hm'. rewrite Em in Hm'. injection Hm' as <-.
    rewrite Ep. intros [i Hi]%list_elem_of_lookup.
    destruct (Forall2_lookup_l _ _ _ _ _ Hds Hi) as (dq & _ & Hdq). by eexists.
  - etrans; [exact Hsub|]. by apply cache_ok_insert_subseteq.
Qed.

(** Enough fuel: with a rank that decreases along every reference, the
    recursion comes back from any cache. *)
Section Terminates.
Variable rank : Z → nat.
Hypothesis rank_decreases :
  ∀ x m p, matchMap !! x = Some m → p ∈ previous_matches m → rank (match_id p) < rank x.

Lemma memo_map_total {A} (f : A → Memo nat) (l : list A) c :
  (∀ a c0, a ∈ l → is_Some (f a c0)) → is_Some (memo_map f l c).
Proof.
  revert c. induction l as [|a l IH]; intros c Hf; [by eexists|].
  simpl. unfold memo_bind.
  destruct (Hf a c) as [[d c1] ->]; [left|].
  destruct (IH c1) as [[ds c2] ->]; [|by eexists].
  intros a' c0 Ha'. apply Hf. by right.
Qed.

Lemma getDepth_total fuel x c : rank x < fuel → is_Some (getDepth matchMap fuel x c).
Proof.
  revert x c. induction fuel as [|fuel IH]; intros x c Hlt; [lia|].
  simpl. destruct (c !! x); [by eexists|].
  destruct (matchMap !! x) as [m|] eqn:Em; [|by eexists].
  destruct (previous_matches m) as [|p ps] eqn:Ep; [by eexists|].
  unfold memo_bind.
  destruct (memo_map_total (λ q, getDepth matchMap fuel (match_id q)) (p :: ps) c)
    as [[ds c1] ->]; [|by eexists].
  intros q c0 Hq. apply IH.
  assert (rank (match_id q) < rank x); [|lia].
  eapply rank_decreases; [done|]. by rewrite Ep.
Qed.
End Terminates.

End DepthFacts.

(** ** The bracket engine: the index and the filled cache *)

Lemma buildMatchMap_fold (ms : list PSBracketMatch) (acc : gmap Z PSBracketMatch) x :
  fold_left (λ acc m, <[id m := m]> acc) ms acc !! x =
  match last (filter (λ m, id m = x) ms) with
  | Some m => Some m
  | None => acc !! x
  end.
Proof.
  revert acc. induction ms as [|m ms IH]; intros acc; [done|].
  simpl. rewrite IH. rewrite filter_cons. case_decide as E.
  - destruct (filter _ ms) as [|m' l] eqn:El; simpl.
    + subst. by rewrite lookup_insert_eq.
    + destruct (last (m' :: l)) eqn:E2; [done|]. by apply last_None in E2.
  - destruct (last _); [done|]. by rewrite lookup_insert_ne.
Qed.

Lemma buildMatchMap_lookup ms x :
  buildMatchMap ms !! x = last (filter (λ m, id m = x) ms).
Proof.
  unfold buildMatchMap. rewrite buildMatchMap_fold, lookup_empty. by destruct (last _).
Qed.

Lemma buildMatchMap_Some ms x m : buildMatchMap ms !! x = Some m → m ∈ ms ∧ id m = x.
Proof.
  rewrite buildMatchMap_lookup. intros H.
  assert (m ∈ filter (λ m, id m = x) ms) as Hin.
  { apply last_Some in H as [l ->]. apply elem_of_app. right. left. }
  by apply list_elem_of_filter in Hin as [? ?].
Qed.

Lemma buildMatchMap_None ms x : buildMatchMap ms !! x = None → ∀ m, m ∈ ms → id m ≠ x.
Proof.
  rewrite buildMatchMap_lookup. intros H m Hm E.
  apply last_None in H.
  assert (m ∈ filter (λ m, id m = x) ms) as Hin by by apply list_elem_of_filter.
  rewrite H in Hin. by inversion Hin.
Qed.

Lemma filter_none {A} (P : A → Prop) `{∀ x, Decision (P x)} (l : list A) :
  (∀ x, x ∈ l → ¬ P x) → filter P l = [].
Proof.
  induction l as [|x l IH]; [done|]. intros Hl.
  rewrite filter_cons, decide_False by (apply Hl; left).
  apply IH. intros y Hy. apply Hl. by right.
Qed.

Lemma filter_id_NoDup (ms : list PSBracketMatch) m :
  distinct_ids ms → m ∈ ms → filter (λ m', id m' = id m) ms = [m].
Proof.
  unfold distinct_ids. induction ms as [|m' ms IH]; [by inversion 2|].
  rewrite fmap_cons. intros [Hnotin Hnd]%NoDup_cons Hm.
  rewrite filter_cons. apply elem_of_cons in Hm as [->|Hm].
  - rewrite decide_True by done. f_equal.
    apply filter_none. intros m2 Hm2 E. simpl in E.
    apply Hnotin. rewrite <-E. by apply list_elem_of_fmap_2.
  - rewrite decide_False; [by apply IH|].
    intros E. apply Hnotin. rewrite E. by apply list_elem_of_fmap_2.
Qed.

Lemma buildMatchMap_distinct ms m :
  distinct_ids ms → m ∈ ms → buildMatchMap ms !! id m = Some m.
Proof.
  intros Hnd Hm. by rewrite buildMatchMap_lookup, filter_id_NoDup.
Qed.

Lemma acyclic_matchMap rank ms x m p :
  acyclic rank ms → buildMatchMap ms !! x = Some m → p ∈ previous_matches m →
  rank (match_id p) < rank x.
Proof.
  intros Hacy [Hm <-]%buildMatchMap_Some Hp. unfold acyclic in Hacy.
  rewrite Forall_forall in Hacy. specialize (Hacy m Hm).
  rewrite Forall_forall in Hacy. by apply Hacy.
Qed.

Lemma depthCacheOf_spec fuel ms c :
  depthCacheOf fuel ms = Some c →
  cache_ok (buildMatchMap ms) c ∧
  ∀ m, m ∈ ms → ∃ d, c !! id m = Some d ∧ hasDepth (buildMatchMap ms) (id m) d.
Proof.
  unfold depthCacheOf, fillDepthCache, memo_bind. intros H.
  destruct (memo_map _ ms ∅) as [[ds c1]|] eqn:E; [|done].
  injection H as <-.
  apply (memo_map_spec (buildMatchMap ms) _ id) in E as (Hc & _ & Hds).
  - split; [done|]. intros m Hm.
    apply list_elem_of_lookup in Hm as [i Hi].
    destruct (Forall2_lookup_l _ _ _ _ _ Hds Hi) as (d & _ & Hd).
    exists d. split; [done|]. by apply Hc.
  - intros a c0 d c2 _. apply getDepth_spec.
  - apply cache_ok_empty.
Qed.

Lemma depthCacheOf_total rank fuel ms :
  acyclic rank ms → enough fuel rank ms → is_Some (depthCacheOf fuel ms).
Proof.
  intros Hacy Hfuel. unfold enough in Hfuel. rewrite Forall_forall in Hfuel.
  unfold depthCacheOf, fillDepthCache, memo_bind.
  destruct (memo_map_total (λ m, getDepth (buildMatchMap ms) fuel (id m)) ms ∅)
    as [[ds c] ->]; [|by eexists].
  intros m c0 Hm. apply (getDepth_total _ rank); [|by apply Hfuel].
  intros x m' p. by apply acyclic_matchMap.
Qed.

(** Every cached depth above 0 belongs to a match of the list. *)
Lemma cache_ok_positive ms c x d :
  cache_ok (buildMatchMap ms) c → c !! x = Some d → 0 < d →
  ∃ m, m ∈ ms ∧ id m = x.
Proof.
  intros [Hc _] Hx Hd. apply Hc, hasDepth_inv in Hx.
  destruct (buildMatchMap ms !! x) as [m|] eqn:E; [|lia].
  exists m. by apply buildMatchMap_Some.
Qed.

(** The depth recurrence as the cache holds it: a predecessor absent from
    the list enters the maximum with its cached depth 0. *)
Lemma cache_recurrence fuel ms c x m :
  depthCacheOf fuel ms = Some c → is_Some (c !! x) → buildMatchMap ms !! x = Some m →
  c !! x = Some (if decide (previous_matches m = []) then 0
                 else Math_max ((λ p, default 0 (c !! match_id p)) <$> previous_matches m) + 1).
Proof.
  intros Hc [d Hd] Hm. pose proof Hc as [[Hok Hcl] Hall]%depthCacheOf_spec.
  rewrite Hd. f_equal. pose proof (Hok _ _ Hd) as Hinv.
  apply hasDepth_inv in Hinv. rewrite Hm in Hinv.
  case_decide as Hp; [done|]. destruct Hinv as (ds & Hds & ->).
  f_equal. f_equal. apply list_eq. intros i. rewrite list_lookup_fmap.
  destruct (previous_matches m !! i) as [p|] eqn:Ei; simpl.
  - destruct (Forall2_lookup_l _ _ _ _ _ Hds Ei) as (dp & -> & Hdp). f_equal.
    destruct (Hcl x m p) as [dp' Hdp']; [by eexists|done|by eapply list_elem_of_lookup_2|].
    rewrite Hdp'. simpl. eapply hasDepth_fun; [exact Hdp|]. by apply Hok.
  - apply Forall2_length in Hds. apply lookup_ge_None. apply lookup_ge_None in Ei. lia.
Qed.

(** ** The bracket engine: lower-bracket classification *)

Lemma hasLoser_inner (m : PSBracketMatch) (ps : list PrevMatch) (acc : gset Z) x :
  x ∈ fold_left (λ acc' prev, if is_loser (type prev) then {[id m]} ∪ acc' else acc') ps acc
  ↔ x ∈ acc ∨ (x = id m ∧ ∃ p, p ∈ ps ∧ type p = loser).
Proof.
  revert acc. induction ps as [|p ps IH]; intros acc; simpl.
  - split; [by left|]. intros [?|(_ & p & Hp & _)]; [done|by inversion Hp].
  - rewrite IH. unfold is_loser. case_bool_decide as E.
    + rewrite elem_of_union, elem_of_singleton. split.
      * intros [[->|?]|(-> & q & Hq & Hl)]; [right|by left|right].
        -- split; [done|]. exists p. split; [left|done].
        -- split; [done|]. exists q. split; [by right|done].
      * intros [?|(-> & q & Hq & Hl)]; [left; by right|]. left. by left.
    + split.
      * intros [?|(-> & q & Hq & Hl)]; [by left|right].
        split; [done|]. exists q. split; [by right|done].
      * intros [?|(-> & q & Hq & Hl)]; [by left|right].
        split; [done|]. exists q. split; [|done].
        apply elem_of_cons in Hq as [->|?]; [done|done].
Qed.

Lemma hasLoser_outer (ms : list PSBracketMatch) (acc : gset Z) x :
  x ∈ fold_left (λ acc m,
        fold_left (λ acc' prev, if is_loser (type prev) then {[id m]} ∪ acc' else acc')
                  (previous_matches m) acc) ms acc
  ↔ x ∈ acc ∨ ∃ m p, m ∈ ms ∧ id m = x ∧ p ∈ previous_matches m ∧ type p = loser.
Proof.
  revert acc. induction ms as [|m ms IH]; intros acc; simpl.
  - split; [by left|]. intros [?|(m & p & Hm & _)]; [done|by inversion Hm].
  - rewrite IH, hasLoser_inner. split.
    + intros [[?|(-> & p & Hp & Hl)]|(m' & p & Hm' & ? & ? & ?)].
      * by left.
      * right. exists m, p. split_and!; [left|done..].
      * right. exists m', p. split_and!; [by right|done..].
    + intros [?|(m' & p & Hm' & <- & Hp & Hl)]; [left; by left|].
      apply elem_of_cons in Hm' as [->|Hm'].
      * left. right. split; [done|]. by exists p.
      * right. by exists m', p.
Qed.

Lemma hasLoser_spec ms x :
  x ∈ buildHasLoserIncoming ms
  ↔ ∃ m p, m ∈ ms ∧ id m = x ∧ p ∈ previous_matches m ∧ type p = loser.
Proof.
  unfold buildHasLoserIncoming. rewrite hasLoser_outer. split; [|by right].
  intros [H|H]; [|done]. by apply not_elem_of_empty in H.
Qed.

Lemma seedLB_spec (hl : gset Z) (l : list PSBracketMatch) (acc : gset Z) x :
  x ∈ seedLB hl l acc ↔ x ∈ acc ∨ (x ∈ hl ∧ ∃ m, m ∈ l ∧ id m = x).
Proof.
  unfold seedLB. revert acc. induction l as [|m l IH]; intros acc; simpl.
  - split; [by left|]. intros [?|(_ & m & Hm & _)]; [done|by inversion Hm].
  - rewrite IH. case_bool_decide as E.
    + rewrite elem_of_union, elem_of_singleton. split.
      * intros [[->|?]|(? & m' & ? & ?)]; [right|by left|right].
        -- split; [done|]. exists m. split; [left|done].
        -- split; [done|]. exists m'. split; [by right|done].
      * intros [?|(? & m' & Hm' & <-)]; [left; by right|].
        apply elem_of_cons in Hm' as [->|?]; [left; by left|].
        right. split; [done|]. by exists m'.
    + split.
      * intros [?|(? & m' & ? & ?)]; [by left|right].
        split; [done|]. exists m'. split; [by right|done].
      * intros [?|(? & m' & Hm' & <-)]; [by left|].
        apply elem_of_cons in Hm' as [->|?]; [done|].
        right. split; [done|]. by exists m'.
Qed.

Section Classify.
Variables (matchMap : gmap Z PSBracketMatch) (hl : gset Z).

Lemma classifyLB_grows x (acc : gset Z) : acc ⊆ (classifyLB matchMap hl x acc).2.
Proof.
  unfold classifyLB. case_bool_decide; [done|].
  destruct (matchMap !! x); [|done].
  case_bool_decide; [set_solver|]. destruct (existsb _ _); [set_solver|done].
Qed.

Lemma classifyLB_frame x (acc : gset Z) y :
  y ∈ (classifyLB matchMap hl x acc).2 → y ∈ acc ∨ y = x.
Proof.
  unfold classifyLB. case_bool_decide; [by left|].
  destruct (matchMap !! x); [|by left].
  case_bool_decide; simpl.
  - rewrite elem_of_union, elem_of_singleton. tauto.
  - destruct (existsb _ _); simpl; [|by left].
    rewrite elem_of_union, elem_of_singleton. tauto.
Qed.

Lemma classifyLB_fires x m p (acc : gset Z) :
  matchMap !! x = Some m → p ∈ previous_matches m → type p = winner → match_id p ∈ acc →
  x ∈ (classifyLB matchMap hl x acc).2.
Proof.
  intros Hm Hp Hw Hin. unfold classifyLB. case_bool_decide; [done|]. rewrite Hm.
  case_bool_decide; [set_solver|].
  destruct (existsb _ _) eqn:E; [set_solver|]. exfalso.
  apply not_true_iff_false in E. apply E, existsb_exists. exists p.
  split; [by apply list_elem_of_In|].
  unfold is_winner. by rewrite !bool_decide_eq_true_2.
Qed.

(** The boolean that [classifyLB] returns tells whether the id is
    classified afterwards. *)
Lemma classifyLB_result x (acc : gset Z) :
  (classifyLB matchMap hl x acc).1 = bool_decide (x ∈ (classifyLB matchMap hl x acc).2).
Proof.
  unfold classifyLB. case_bool_decide as E; [by rewrite bool_decide_eq_true_2|].
  destruct (matchMap !! x); [|by rewrite bool_decide_eq_false_2].
  case_bool_decide; [rewrite bool_decide_eq_true_2; set_solver|].
  destruct (existsb _ _); [rewrite bool_decide_eq_true_2; set_solver|].
  by rewrite bool_decide_eq_false_2.
Qed.

Lemma propagateLB_grows (l : list PSBracketMatch) (acc : gset Z) :
  acc ⊆ propagateLB matchMap hl l acc.
Proof.
  unfold propagateLB. revert acc. induction l as [|m l IH]; intros acc; [done|].
  simpl. etrans; [apply (classifyLB_grows (id m))|apply IH].
Qed.

Lemma propagateLB_frame (l : list PSBracketMatch) (acc : gset Z) y :
  y ∈ propagateLB matchMap hl l acc → y ∈ acc ∨ ∃ m, m ∈ l ∧ id m = y.
Proof.
  unfold propagateLB. revert acc. induction l as [|m l IH]; intros acc; [by left|].
  simpl. intros [[?| ->]%classifyLB_frame|(m' & ? & ?)]%IH.
  - by left.
  - right. exists m. split; [left|done].
  - right. exists m'. split; [by right|done].
Qed.

Lemma propagateLB_app (l1 l2 : list PSBracketMatch) (acc : gset Z) :
  propagateLB matchMap hl (l1 ++ l2) acc
  = propagateLB matchMap hl l2 (propagateLB matchMap hl l1 acc).
Proof. unfold propagateLB. by rewrite fold_left_app. Qed.

Lemma propagateLB_stable (l : list PSBracketMatch) (acc : gset Z) :
  (∀ m, m ∈ l → (classifyLB matchMap hl (id m) acc).2 = acc) →
  propagateLB matchMap hl l acc = acc.
Proof.
  unfold propagateLB. induction l as [|m l IH]; [done|]. intros H. simpl.
  rewrite H by left. apply IH. intros m' Hm'. apply H. by right.
Qed.
End Classify.

Lemma sortedByDepth_Permutation c ms : sortedByDepth c ms ≡ₚ ms.
Proof. apply sort_by_Permutation. Qed.

Lemma sortedByDepth_sorted c ms :
  StronglySorted (λ a b, cachedDepth c a ≤ cachedDepth c b) (sortedByDepth c ms).
Proof.
  apply sort_by_StronglySorted.
  - intros a b d H1 H2. lia.
  - intros a b H. apply Z.leb_le in H. lia.
  - intros a b H. apply Z.leb_gt in H. lia.
Qed.

(** The facts about a filled cache and the classification built from it
    that the claims share. *)
Section Classified.
Variables (rank : Z → nat) (fuel : nat) (ms : list PSBracketMatch) (c : gmap Z nat).
Hypothesis ids : distinct_ids ms.
Hypothesis filled : depthCacheOf fuel ms = Some c.

Lemma cachedDepth_hasDepth m :
  m ∈ ms → hasDepth (buildMatchMap ms) (id m) (cachedDepth c m).
Proof.
  intros Hm. destruct (depthCacheOf_spec _ _ _ filled) as [_ H].
  destruct (H m Hm) as (d & Hd & Hdepth). unfold cachedDepth. by rewrite Hd.
Qed.

Lemma cachedDepth_pred a b p :
  a ∈ ms → b ∈ ms → p ∈ previous_matches b → match_id p = id a →
  cachedDepth c a < cachedDepth c b.
Proof.
  intros Ha Hb Hp E.
  eapply (hasDepth_pred (buildMatchMap ms) (id b) b p).
  - by apply buildMatchMap_distinct.
  - done.
  - by apply cachedDepth_hasDepth.
  - rewrite E. by apply cachedDepth_hasDepth.
Qed.

Lemma isLB_is_match x : x ∈ buildIsLBMatch c ms → ∃ m, m ∈ ms ∧ id m = x.
Proof.
  unfold buildIsLBMatch.
  intros [[H|(_ & m & Hm & <-)]%seedLB_spec|(m & Hm & <-)]%propagateLB_frame.
  - by apply not_elem_of_empty in H.
  - exists m. by rewrite <-(sortedByDepth_Permutation c ms).
  - exists m. by rewrite <-(sortedByDepth_Permutation c ms).
Qed.

Lemma isLB_loser m p :
  m ∈ ms → p ∈ previous_matches m → type p = loser → id m ∈ buildIsLBMatch c ms.
Proof.
  intros Hm Hp Hl. unfold buildIsLBMatch.
  apply propagateLB_grows, seedLB_spec. right. split.
  - apply hasLoser_spec. by exists m, p.
  - exists m. by rewrite (sortedByDepth_Permutation c ms).
Qed.

Lemma isLB_winner b p :
  b ∈ ms → p ∈ previous_matches b → type p = winner →
  match_id p ∈ buildIsLBMatch c ms → id b ∈ buildIsLBMatch c ms.
Proof.
  intros Hb Hp Hw Hin.
  destruct (isLB_is_match _ Hin) as (a & Ha & Ea).
  pose proof (cachedDepth_pred a b p Ha Hb Hp (eq_sym Ea)) as Hlt.
  assert (b ∈ sortedByDepth c ms) as Hbs by by rewrite (sortedByDepth_Permutation c ms).
  assert (a ∈ sortedByDepth c ms) as Has by by rewrite (sortedByDepth_Permutation c ms).
  assert (NoDup (id <$> sortedByDepth c ms)) as Hnd.
  { by rewrite (sortedByDepth_Permutation c ms). }
  pose proof (sortedByDepth_sorted c ms) as Hsorted.
  revert Hin. unfold buildIsLBMatch.
  set (mm := buildMatchMap ms). set (hl := buildHasLoserIncoming ms).
  generalize dependent (sortedByDepth c ms). intros sorted Hbs Has Hnd Hsorted.
  set (S0 := seedLB hl sorted ∅). clearbody S0.
  destruct (list_elem_of_split _ _ Hbs) as (l1 & l2 & Hsplit).
  rewrite Hsplit in Has, Hnd, Hsorted |- *.
  apply StronglySorted_app_1_r, StronglySorted_inv in Hsorted as [_ Hl2].
  assert (a ∈ l1) as Hal1.
  { apply elem_of_app in Has as [?|[->|Hal2]%elem_of_cons]; [done|lia|].
    rewrite Forall_forall in Hl2. specialize (Hl2 _ Hal2). lia. }
  rewrite fmap_app, fmap_cons in Hnd. apply NoDup_app in Hnd as (_ & Hdisj & _).
  specialize (Hdisj (id a) (list_elem_of_fmap_2 _ _ _ Hal1)).
  apply not_elem_of_cons in Hdisj as [Hab Hal2].
  rewrite propagateLB_app. cbn [propagateLB fold_left]. fold (propagateLB mm hl l2).
  set (S1 := propagateLB mm hl l1 S0). intros Hin.
  apply propagateLB_grows.
  eapply classifyLB_fires; [by apply buildMatchMap_distinct|done..|].
  rewrite <-Ea in Hin |- *.
  apply propagateLB_frame in Hin as [[?|?]%classifyLB_frame|(m & Hm & Em)]; [done..|].
  exfalso. apply Hal2. rewrite <-Em. by apply list_elem_of_fmap_2.
Qed.

Lemma isLB_converged :
  propagateLB (buildMatchMap ms) (buildHasLoserIncoming ms) (sortedByDepth c ms)
              (buildIsLBMatch c ms) = buildIsLBMatch c ms.
Proof.
  apply propagateLB_stable. intros m Hm.
  rewrite (sortedByDepth_Permutation c ms) in Hm.
  unfold classifyLB. case_bool_decide as Hin; [done|].
  rewrite buildMatchMap_distinct by done.
  case_bool_decide as Hhl.
  { exfalso. apply Hin. apply hasLoser_spec in Hhl as (m' & p & Hm' & E & Hp & Hl).
    rewrite <-E. by eapply isLB_loser. }
  destruct (existsb _ _) eqn:E; [|done]. exfalso. apply Hin.
  apply existsb_exists in E as (p & Hp%list_elem_of_In & [Hw Hlb]%andb_true_iff).
  apply bool_decide_eq_true in Hw, Hlb. by eapply isLB_winner.
Qed.
End Classified.

(** ** The bracket engine: the grand final *)

Lemma find_first {A} (f : A → bool) (l1 l2 : list A) x :
  f x = true → (∀ y, y ∈ l1 → f y = false) → find f (l1 ++ x :: l2) = Some x.
Proof.
  intros Hx. induction l1 as [|y l1 IH]; intros Hl1; simpl.
  - by rewrite Hx.
  - rewrite (Hl1 y) by left. apply IH. intros z Hz. apply Hl1. by right.
Qed.

Lemma find_nothing {A} (f : A → bool) (l : list A) :
  (∀ y, y ∈ l → f y = false) → find f l = None.
Proof.
  induction l as [|y l IH]; intros Hl; simpl; [done|].
  rewrite (Hl y) by left. apply IH. intros z Hz. apply Hl. by right.
Qed.

Lemma find_elem {A} (f : A → bool) (l : list A) x : find f l = Some x → x ∈ l.
Proof. intros [H _]%find_some. by apply list_elem_of_In. Qed.

Lemma maxDepthOf_ge (c : gmap Z nat) x d : c !! x = Some d → d ≤ maxDepthOf c.
Proof.
  intros H. apply Math_max_ge. apply list_elem_of_fmap. exists (x, d).
  split; [done|]. by apply elem_of_map_to_list.
Qed.

Lemma maxDepthOf_attained (c : gmap Z nat) :
  c ≠ ∅ → ∃ x, c !! x = Some (maxDepthOf c).
Proof.
  intros Hne. unfold maxDepthOf.
  assert (snd <$> map_to_list c ≠ []) as Hl.
  { intros E. apply fmap_nil_inv in E. by apply map_to_list_empty_iff in E. }
  apply Math_max_elem, list_elem_of_fmap in Hl as ([x d] & E & Hin).
  exists x. apply elem_of_map_to_list in Hin. by rewrite E.
Qed.


Section GrandFinal.
Variables (fuel : nat) (ms : list PSBracketMatch) (c : gmap Z nat).
Hypothesis nonempty : ms ≠ [].
Hypothesis filled : depthCacheOf fuel ms = Some c.

Lemma cachedDepth_le_max m : m ∈ ms → cachedDepth c m ≤ maxDepthOf c.
Proof.
  intros Hm. destruct (depthCacheOf_spec _ _ _ filled) as [_ H].
  destruct (H m Hm) as (d & Hd & _). unfold cachedDepth. rewrite Hd. simpl.
  by eapply maxDepthOf_ge.
Qed.

Lemma maxDepth_in_list : ∃ m, m ∈ ms ∧ cachedDepth c m = maxDepthOf c.
Proof.
  destruct (depthCacheOf_spec _ _ _ filled) as [Hok Hall].
  assert (∃ m0, m0 ∈ ms) as [m0 Hm0].
  { generalize nonempty. generalize ms. intros [|m0 l] Hl; [done|]. exists m0. left. }
  destruct (maxDepthOf_attained c) as [x Hx].
  { destruct (Hall m0 Hm0) as (d & Hd & _). intros ->. by rewrite lookup_empty in Hd. }
  destruct (decide (0 < maxDepthOf c)) as [Hpos|Hz].
  - destruct (cache_ok_positive ms c x _ Hok Hx Hpos) as (m & Hm & <-).
    exists m. split; [done|]. unfold cachedDepth. by rewrite Hx.
  - exists m0. split; [done|]. pose proof (cachedDepth_le_max m0 Hm0). lia.
Qed.

Lemma deepest_iff m : m ∈ ms → deepest c ms m ↔ cachedDepth c m = maxDepthOf c.
Proof.
  intros Hm. split.
  - intros Hd. destruct maxDepth_in_list as (m' & Hm' & E).
    pose proof (Hd m' Hm'). pose proof (cachedDepth_le_max m Hm). lia.
  - intros E m' Hm'. rewrite E. by apply cachedDepth_le_max.
Qed.

Lemma convergence_iff lb m :
  m ∈ ms →
  convergence c lb (maxDepthOf c) m = true ↔ deepest c ms m ∧ converges lb m.
Proof.
  intros Hm. unfold convergence, converges.
  rewrite !andb_true_iff, Nat.eqb_eq, Nat.leb_le, (deepest_iff m Hm), !existsb_exists.
  split.
  - intros [[[? ?] (p & Hp & Hn)] (q & Hq & Hy)]. split_and!; [done..| |].
    + exists p. split; [by apply list_elem_of_In|].
      apply negb_true_iff in Hn. by apply bool_decide_eq_false in Hn.
    + exists q. split; [by apply list_elem_of_In|]. by apply bool_decide_eq_true in Hy.
  - intros (? & ? & (p & Hp & Hn) & (q & Hq & Hy)). split_and!; [done..| |].
    + exists p. split; [by apply list_elem_of_In|].
      apply negb_true_iff. by apply bool_decide_eq_false.
    + exists q. split; [by apply list_elem_of_In|]. by apply bool_decide_eq_true.
Qed.

Lemma findGrandFinal_preferred lb l1 g l2 :
  ms = l1 ++ g :: l2 →
  deepest c ms g ∧ converges lb g →
  (∀ m, m ∈ l1 → ¬ (deepest c ms m ∧ converges lb m)) →
  findGrandFinal c lb ms = Some g.
Proof.
  intros Hsplit Hg Hl1. unfold findGrandFinal.
  assert (g ∈ ms) as Hgin by (rewrite Hsplit; apply elem_of_app; right; left).
  assert (find (convergence c lb (maxDepthOf c)) ms = Some g) as ->; [|done].
  rewrite Hsplit at 1. apply find_first.
  - by apply convergence_iff.
  - intros m Hm. apply not_true_is_false. intros Hc. apply (Hl1 m Hm).
    apply convergence_iff; [|done]. rewrite Hsplit. apply elem_of_app. by left.
Qed.

Lemma findGrandFinal_sole lb l1 g l2 :
  (∀ m, m ∈ ms → ¬ (deepest c ms m ∧ converges lb m)) →
  ms = l1 ++ g :: l2 → deepest c ms g →
  (∀ m, m ∈ l1 ++ l2 → ¬ deepest c ms m) →
  findGrandFinal c lb ms = Some g.
Proof.
  intros Hnone Hsplit Hg Hothers. unfold findGrandFinal.
  rewrite find_nothing.
  2:{ intros m Hm. apply not_true_is_false. intros Hc. apply (Hnone m Hm).
      by apply convergence_iff. }
  assert (∀ m, m ∈ ms → (cachedDepth c m = maxDepthOf c ↔ deepest c ms m)) as Hiff.
  { intros m Hm. symmetry. by apply deepest_iff. }
  assert (filter (λ m, cachedDepth c m = maxDepthOf c) ms = [g]) as ->; [|done].
  rewrite Hsplit at 1.
  rewrite filter_app, filter_cons, decide_True.
  2:{ apply Hiff; [|done]. rewrite Hsplit. apply elem_of_app. right. left. }
  rewrite !filter_none; [done| |].
  - intros m Hm Hd. apply (Hothers m); [apply elem_of_app; by right|].
    apply Hiff; [|done]. rewrite Hsplit. apply elem_of_app. right. by right.
  - intros m Hm Hd. apply (Hothers m); [apply elem_of_app; by left|].
    apply Hiff; [|done]. rewrite Hsplit. apply elem_of_app. by left.
Qed.

Lemma findGrandFinal_tie lb l1 a l2 b l3 :
  (∀ m, m ∈ ms → ¬ (deepest c ms m ∧ converges lb m)) →
  ms = l1 ++ a :: l2 ++ b :: l3 → deepest c ms a → deepest c ms b →
  findGrandFinal c lb ms = None.
Proof.
  intros Hnone Hsplit Ha Hb. unfold findGrandFinal.
  rewrite find_nothing.
  2:{ intros m Hm. apply not_true_is_false. intros Hc. apply (Hnone m Hm).
      by apply convergence_iff. }
  assert (a ∈ ms ∧ b ∈ ms) as [Hain Hbin].
  { rewrite Hsplit. rewrite !elem_of_app, !elem_of_cons, !elem_of_app, !elem_of_cons. tauto. }
  apply deepest_iff in Ha, Hb; [|done..].
  assert (∃ x y k, filter (λ m, cachedDepth c m = maxDepthOf c) ms = x :: y :: k)
    as (x & y & k & ->); [|done].
  assert (filter (λ m, cachedDepth c m = maxDepthOf c) ms
          = filter (λ m, cachedDepth c m = maxDepthOf c) (l1 ++ a :: l2 ++ b :: l3)) as ->.
  { f_equal. exact Hsplit. }
  rewrite filter_app, filter_cons, decide_True by done.
  rewrite filter_app, filter_cons, decide_True by done.
  destruct (filter _ l1) as [|x [|y k]]; simpl; [|by eexists _, _, _..].
  destruct (filter _ l2); simpl; by eexists _, _, _.
Qed.

Lemma findGrandFinal_elem lb g : findGrandFinal c lb ms = Some g → g ∈ ms.
Proof.
  unfold findGrandFinal. destruct (find _ ms) as [m|] eqn:E.
  - intros [= <-]. by eapply find_elem.
  - destruct (filter _ ms) as [|x [|y k]] eqn:Ef; [done| |done].
    intros [= <-].
    assert (x ∈ filter (λ m, cachedDepth c m = maxDepthOf c) ms) as Hin by (rewrite Ef; left).
    by apply list_elem_of_filter in Hin as [_ ?].
Qed.
End GrandFinal.

(** ** The bracket engine: rounds *)

Lemma groupByRounds_fold (c : gmap Z nat) (l : list PSBracketMatch)
    (g : list (nat * list PSBracketMatch)) :
  NoDup (fst <$> g) →
  let g' := fold_left (λ rounds m, pushGroup Nat.eqb (cachedDepth c m) m rounds) l g in
  NoDup (fst <$> g') ∧ concat (snd <$> g') ≡ₚ concat (snd <$> g) ++ l.
Proof.
  revert g. induction l as [|m l IH]; intros g Hnd; simpl.
  - by rewrite app_nil_r.
  - destruct (IH (pushGroup Nat.eqb (cachedDepth c m) m g)) as [Hnd' Hperm].
    { apply pushGroup_NoDup; [apply Nat.eqb_eq|done]. }
    split; [done|]. rewrite Hperm, pushGroup_concat. simpl. apply Permutation_middle.
Qed.

Lemma imap_matches {A} (f : nat → A → BracketRound) (g : A → list PSBracketMatch) (l : list A) :
  (∀ i a, matches (f i a) = g a) → flat_map matches (imap f l) = flat_map g l.
Proof.
  revert f. induction l as [|a l IH]; intros f Hf; [done|].
  rewrite imap_cons. cbn [flat_map]. rewrite Hf. f_equal.
  apply IH. intros i a'. apply Hf.
Qed.

Lemma buildRounds_matches c l isLower : flat_map matches (buildRounds c l isLower) ≡ₚ l.
Proof.
  unfold buildRounds.
  rewrite (imap_matches _ (λ d, groupGet Nat.eqb d (groupByRounds c l))) by done.
  destruct (groupByRounds_fold c l []) as [Hnd Hperm]; [constructor|].
  fold (groupByRounds c l) in Hnd, Hperm.
  rewrite (Permutation_flat_map _ (sort_by_Permutation _ _)).
  rewrite groupGet_flat; [done|apply Nat.eqb_eq|done].
Qed.

Lemma stripUB_matches (rs : list BracketRound) :
  flat_map matches (stripUB <$> rs) = flat_map matches rs.
Proof. induction rs as [|r rs IH]; [done|]. csimpl. by rewrite IH. Qed.

(** The three-way split of the partition loop. *)
Lemma partition_Permutation (lb : gset Z) (gf : option PSBracketMatch) (l : list PSBracketMatch) :
  l ≡ₚ ubMatchesOf lb gf l ++ lbMatchesOf lb gf l
       ++ filter (λ m, isGrandFinal gf m = true) l.
Proof.
  unfold ubMatchesOf, lbMatchesOf. induction l as [|m l IH]; [done|].
  rewrite !filter_cons.
  destruct (isGrandFinal gf m) eqn:Egf.
  - rewrite decide_False by (intros [? _]; done).
    rewrite decide_False by (intros [? _]; done).
    rewrite decide_True by done.
    rewrite <-!Permutation_middle. by constructor.
  - rewrite (decide_False (P := false = true)) by done.
    destruct (decide (id m ∈ lb)) as [Hin|Hout].
    + rewrite decide_False by (intros [_ ?]; done).
      rewrite decide_True by done.
      simpl. rewrite <-Permutation_middle. by constructor.
    + rewrite decide_True by done.
      rewrite decide_False by (intros [_ ?]; done).
      simpl. by constructor.
Qed.

Lemma grandFinal_filter (ms : list PSBracketMatch) g :
  distinct_ids ms → g ∈ ms → filter (λ m, isGrandFinal (Some g) m = true) ms = [g].
Proof.
  intros Hnd Hg. rewrite <-(filter_id_NoDup ms g Hnd Hg).
  apply list_filter_iff. intros m. simpl. by rewrite bool_decide_eq_true.
Qed.

(** ** The bracket engine: what [parseBracket] returns *)

Lemma parseBracket_returns rank fuel ms :
  ms ≠ [] → acyclic rank ms → enough fuel rank ms →
  ∃ c, depthCacheOf fuel ms = Some c ∧
    let lb := buildIsLBMatch c ms in
    let gf := findGrandFinal c lb ms in
    let ub := buildRounds c (ubMatchesOf lb gf ms) false in
    let lower := buildRounds c (lbMatchesOf lb gf ms) true in
    parseBracket fuel ms =
      Some (Some {| upperBracket := match lower with [] => stripUB <$> ub | _ :: _ => ub end;
                    lowerBracket := lower;
                    grandFinal := gf |}).
Proof.
  intros Hne Hacy Hfuel.
  destruct (depthCacheOf_total rank fuel ms Hacy Hfuel) as [c Hc].
  exists c. split; [done|]. unfold parseBracket. rewrite Hc.
  by destruct ms.
Qed.

(** C1.  For a non-empty list of bracket matches with pairwise distinct ids
    and acyclic references, [parseBracket] returns a bracket whose
    upper-bracket rounds, lower-bracket rounds and grand-final slot together
    hold exactly the input matches: the output is a permutation of the
    input, so no match is dropped, and no id occurs twice in it, so no match
    is duplicated and each id sits in exactly one of the three places. *)
Theorem parseBracket_partition rank fuel ms :
  ms ≠ [] → distinct_ids ms → acyclic rank ms → enough fuel rank ms →
  ∃ pb, parseBracket fuel ms = Some (Some pb) ∧
    let upper := flat_map matches (upperBracket pb) in
    let lower := flat_map matches (lowerBracket pb) in
    let final := option_list (grandFinal pb) in
    ms ≡ₚ upper ++ lower ++ final
    ∧ NoDup (id <$> (upper ++ lower ++ final))
    ∧ ∀ m, m ∈ ms →
        (id m ∈ (id <$> upper) ∧ (id m ∉ (id <$> lower)) ∧ (id m ∉ (id <$> final)))
        ∨ ((id m ∉ (id <$> upper)) ∧ id m ∈ (id <$> lower) ∧ (id m ∉ (id <$> final)))
        ∨ ((id m ∉ (id <$> upper)) ∧ (id m ∉ (id <$> lower)) ∧ id m ∈ (id <$> final)).
Proof.
  intros Hne Hids Hacy Hfuel.
  destruct (parseBracket_returns rank fuel ms Hne Hacy Hfuel) as (c & Hc & Hpb).
  eexists. split; [exact Hpb|]. cbn [upperBracket lowerBracket grandFinal].
  set (lb := buildIsLBMatch c ms). set (gf := findGrandFinal c lb ms).
  assert (ms ≡ₚ flat_map matches
              (match buildRounds c (lbMatchesOf lb gf ms) true with
               | [] => stripUB <$> buildRounds c (ubMatchesOf lb gf ms) false
               | _ :: _ => buildRounds c (ubMatchesOf lb gf ms) false
               end)
            ++ flat_map matches (buildRounds c (lbMatchesOf lb gf ms) true)
            ++ option_list gf) as Hperm.
  { assert (filter (λ m, isGrandFinal gf m = true) ms = option_list gf) as Hgf.
    { destruct gf as [g|] eqn:Eg; simpl.
      - apply grandFinal_filter; [done|]. by eapply findGrandFinal_elem.
      - by apply filter_none. }
    rewrite (partition_Permutation lb gf ms) at 1. rewrite Hgf.
    apply Permutation_app; [|apply Permutation_app; [|done]].
    - destruct (buildRounds c (lbMatchesOf lb gf ms) true);
        [rewrite stripUB_matches|]; by rewrite buildRounds_matches.
    - by rewrite buildRounds_matches. }
  assert (NoDup (id <$> (flat_map matches
              (match buildRounds c (lbMatchesOf lb gf ms) true with
               | [] => stripUB <$> buildRounds c (ubMatchesOf lb gf ms) false
               | _ :: _ => buildRounds c (ubMatchesOf lb gf ms) false
               end)
            ++ flat_map matches (buildRounds c (lbMatchesOf lb gf ms) true)
            ++ option_list gf))) as Hnd.
  { by rewrite <-Hperm. }
  split_and!; [done..|].
  intros m Hm. rewrite Hperm in Hm.
  rewrite !fmap_app in Hnd.
  apply NoDup_app in Hnd as (_ & Hul & Hnd). apply NoDup_app in Hnd as (_ & Hlf & _).
  apply elem_of_app in Hm as [Hm|[Hm|Hm]%elem_of_app];
    apply (list_elem_of_fmap_2 id) in Hm.
  - left. specialize (Hul _ Hm). rewrite elem_of_app in Hul. tauto.
  - right. left. split_and!; [|done|by apply Hlf].
    intros Hu. apply (Hul _ Hu). apply elem_of_app. by left.
  - right. right. split_and!; [| |done].
    + intros Hu. apply (Hul _ Hu). apply elem_of_app. by right.
    + intros Hl. by apply (Hlf _ Hl).
Qed.

Lemma parseBracket_partition_witness :
  ∃ pb, parseBracket 7 doubleElim4 = Some (Some pb) ∧
    let upper := flat_map matches (upperBracket pb) in
    let lower := flat_map matches (lowerBracket pb) in
    let final := option_list (grandFinal pb) in
    doubleElim4 ≡ₚ upper ++ lower ++ final
    ∧ NoDup (id <$> (upper ++ lower ++ final))
    ∧ ∀ m, m ∈ doubleElim4 →
        (id m ∈ (id <$> upper) ∧ (id m ∉ (id <$> lower)) ∧ (id m ∉ (id <$> final)))
        ∨ ((id m ∉ (id <$> upper)) ∧ id m ∈ (id <$> lower) ∧ (id m ∉ (id <$> final)))
        ∨ ((id m ∉ (id <$> upper)) ∧ (id m ∉ (id <$> lower)) ∧ id m ∈ (id <$> final)).
Proof.
  apply (parseBracket_partition Z.to_nat 7 doubleElim4).
  - discriminate.
  - apply (bool_decide_unpack _). vm_compute. exact I.
  - apply (bool_decide_unpack _). vm_compute. exact I.
  - apply (bool_decide_unpack _). vm_compute. exact I.
Defined.

(** C2.  In the classification of [parseBracket], (1) a match with a
    loser-type reference is lower-bracket, (2) a match that lists a
    lower-bracket match as a winner-type predecessor is lower-bracket, and
    (3) the single pass in ascending depth order has converged: running the
    propagation loop once more over the sorted list changes nothing. *)
Theorem lower_bracket_propagation rank fuel ms :
  distinct_ids ms → acyclic rank ms → enough fuel rank ms →
  ∃ c, depthCacheOf fuel ms = Some c ∧
    let lb := buildIsLBMatch c ms in
    (∀ m p, m ∈ ms → p ∈ previous_matches m → type p = loser → id m ∈ lb)
    ∧ (∀ b p, b ∈ ms → p ∈ previous_matches b → type p = winner →
         match_id p ∈ lb → id b ∈ lb)
    ∧ propagateLB (buildMatchMap ms) (buildHasLoserIncoming ms) (sortedByDepth c ms) lb = lb.
Proof.
  intros Hids Hacy Hfuel.
  destruct (depthCacheOf_total rank fuel ms Hacy Hfuel) as [c Hc].
  exists c. split; [done|]. split_and!.
  - intros m p. by apply isLB_loser.
  - intros b p. by eapply isLB_winner.
  - by eapply isLB_converged.
Qed.

Lemma lower_bracket_propagation_witness :
  ∃ c, depthCacheOf 7 doubleElim4 = Some c ∧
    let lb := buildIsLBMatch c doubleElim4 in
    (∀ m p, m ∈ doubleElim4 → p ∈ previous_matches m → type p = loser → id m ∈ lb)
    ∧ (∀ b p, b ∈ doubleElim4 → p ∈ previous_matches b → type p = winner →
         match_id p ∈ lb → id b ∈ lb)
    ∧ propagateLB (buildMatchMap doubleElim4) (buildHasLoserIncoming doubleElim4)
                  (sortedByDepth c doubleElim4) lb = lb.
Proof.
  apply (lower_bracket_propagation Z.to_nat 7 doubleElim4).
  - apply (bool_decide_unpack _). vm_compute. exact I.
  - apply (bool_decide_unpack _). vm_compute. exact I.
  - apply (bool_decide_unpack _). vm_compute. exact I.
Defined.

(** C3.  With [candidate m] for "[m] sits at the maximum depth, has at
    least two references, and refers both to an id that is not
    lower-bracket and to one that is": the first candidate of the list is
    the grand final; without a candidate, a match that alone occupies the
    maximum depth is the grand final; without a candidate and with two
    matches at the maximum depth, no grand final is designated. *)
Theorem grand_final_designation rank fuel ms :
  ms ≠ [] → acyclic rank ms → enough fuel rank ms →
  ∃ c pb, depthCacheOf fuel ms = Some c ∧ parseBracket fuel ms = Some (Some pb) ∧
    let lb := buildIsLBMatch c ms in
    let candidate m := deepest c ms m ∧ converges lb m in
    (∀ l1 g l2, ms = l1 ++ g :: l2 → candidate g → (∀ m, m ∈ l1 → ¬ candidate m) →
       grandFinal pb = Some g)
    ∧ (∀ l1 g l2, (∀ m, m ∈ ms → ¬ candidate m) → ms = l1 ++ g :: l2 →
         deepest c ms g → (∀ m, m ∈ l1 ++ l2 → ¬ deepest c ms m) →
         grandFinal pb = Some g)
    ∧ (∀ l1 a l2 b l3, (∀ m, m ∈ ms → ¬ candidate m) → ms = l1 ++ a :: l2 ++ b :: l3 →
         deepest c ms a → deepest c ms b → grandFinal pb = None).
Proof.
  intros Hne Hacy Hfuel.
  destruct (parseBracket_returns rank fuel ms Hne Hacy Hfuel) as (c & Hc & Hpb).
  eexists c, _. split; [done|]. split; [exact Hpb|]. cbn [grandFinal]. split_and!.
  - intros l1 g l2. by apply (findGrandFinal_preferred fuel).
  - intros l1 g l2. by apply (findGrandFinal_sole fuel).
  - intros l1 a l2 b l3. by apply (findGrandFinal_tie fuel).
Qed.

Lemma grand_final_designation_witness :
  ∃ c pb, depthCacheOf 7 doubleElim4 = Some c
    ∧ parseBracket 7 doubleElim4 = Some (Some pb) ∧
    let lb := buildIsLBMatch c doubleElim4 in
    let candidate m := deepest c doubleElim4 m ∧ converges lb m in
    (∀ l1 g l2, doubleElim4 = l1 ++ g :: l2 → candidate g → (∀ m, m ∈ l1 → ¬ candidate m) →
       grandFinal pb = Some g)
    ∧ (∀ l1 g l2, (∀ m, m ∈ doubleElim4 → ¬ candidate m) → doubleElim4 = l1 ++ g :: l2 →
         deepest c doubleElim4 g → (∀ m, m ∈ l1 ++ l2 → ¬ deepest c doubleElim4 m) →
         grandFinal pb = Some g)
    ∧ (∀ l1 a l2 b l3, (∀ m, m ∈ doubleElim4 → ¬ candidate m) →
         doubleElim4 = l1 ++ a :: l2 ++ b :: l3 →
         deepest c doubleElim4 a → deepest c doubleElim4 b → grandFinal pb = None).
Proof.
  apply (grand_final_designation Z.to_nat 7 doubleElim4).
  - discriminate.
  - apply (bool_decide_unpack _). vm_compute. exact I.
  - apply (bool_decide_unpack _). vm_compute. exact I.
Defined.

Lemma buildMatchMap_absent ms x : (∀ m, m ∈ ms → id m ≠ x) → buildMatchMap ms !! x = None.
Proof.
  intros H. apply eq_None_not_Some. intros [m [Hm E]%buildMatchMap_Some]. by apply (H m).
Qed.

(** C10.  Let [x] be an id that no match of the list carries.  On an
    acyclic list [parseBracket] still returns a bracket, and: [x] is cached
    with depth 0 once an indexed match refers to it; the depth of an indexed
    match with references is one more than the maximum of the cached depths
    of its references, where [x] therefore counts 0; [x] is never
    classified lower-bracket.  In the convergence check of the grand-final
    loop the reference to [x] is the predecessor that is not lower-bracket:
    a match that refers to [x] passes the check exactly when it sits at the
    maximum depth, has two references or more and refers to a lower-bracket
    match; and the first such match of the list, when no match before it
    passes the check, is the grand final of the returned bracket. *)
Theorem dangling_reference_tolerated rank fuel ms x :
  ms ≠ [] → acyclic rank ms → enough fuel rank ms → (∀ m, m ∈ ms → id m ≠ x) →
  ∃ c pb, depthCacheOf fuel ms = Some c ∧ parseBracket fuel ms = Some (Some pb) ∧
    let lb := buildIsLBMatch c ms in
    (∀ m p, m ∈ ms → buildMatchMap ms !! id m = Some m → p ∈ previous_matches m →
       match_id p = x → c !! x = Some 0)
    ∧ (∀ m, m ∈ ms → buildMatchMap ms !! id m = Some m → previous_matches m ≠ [] →
         c !! id m
         = Some (Math_max ((λ p, default 0 (c !! match_id p)) <$> previous_matches m) + 1))
    ∧ (x ∉ lb)
    ∧ (∀ m p, m ∈ ms → p ∈ previous_matches m → match_id p = x →
         convergence c lb (maxDepthOf c) m = true
         ↔ deepest c ms m ∧ 2 ≤ length (previous_matches m)
           ∧ ∃ q, q ∈ previous_matches m ∧ match_id q ∈ lb)
    ∧ (∀ l1 m l2 p, ms = l1 ++ m :: l2 → p ∈ previous_matches m → match_id p = x →
         deepest c ms m → 2 ≤ length (previous_matches m) →
         (∃ q, q ∈ previous_matches m ∧ match_id q ∈ lb) →
         (∀ m', m' ∈ l1 → convergence c lb (maxDepthOf c) m' = false) →
         grandFinal pb = Some m).
Proof.
  intros Hne Hacy Hfuel Hx.
  destruct (parseBracket_returns rank fuel ms Hne Hacy Hfuel) as (c & Hc & Hpb).
  eexists c, _. split; [done|]. split; [exact Hpb|].
  destruct (depthCacheOf_spec _ _ _ Hc) as [[Hok Hclosed] Hall].
  assert (x ∉ buildIsLBMatch c ms) as Hnot.
  { intros (m & Hm & E)%isLB_is_match. by apply (Hx m). }
  assert (∀ m p, p ∈ previous_matches m → match_id p = x →
            converges (buildIsLBMatch c ms) m
            ↔ 2 ≤ length (previous_matches m)
              ∧ ∃ q, q ∈ previous_matches m ∧ match_id q ∈ buildIsLBMatch c ms) as Hconv.
  { intros m p Hp Hpx. unfold converges. split; [tauto|].
    intros [Hlen Hq]. split_and!; [done| |done]. exists p. by rewrite Hpx. }
  cbn [grandFinal]. split_and!.
  - intros m p Hm Hidx Hp <-.
    destruct (Hall m Hm) as (d & Hd & _).
    destruct (Hclosed (id m) m p) as [dx Hdx]; [by eexists|done..|].
    rewrite Hdx. f_equal. apply Hok, hasDepth_inv in Hdx.
    by rewrite (buildMatchMap_absent ms (match_id p)) in Hdx.
  - intros m Hm Hidx Hp.
    destruct (Hall m Hm) as (d & Hd & _).
    rewrite (cache_recurrence fuel ms c (id m) m Hc); [|by eexists|done].
    by rewrite decide_False.
  - done.
  - intros m p Hm Hp Hpx.
    rewrite (convergence_iff fuel ms c Hne Hc _ m Hm), (Hconv m p Hp Hpx). tauto.
  - intros l1 m l2 p Hsplit Hp Hpx Hdeep Hlen Hq Hl1.
    apply (findGrandFinal_preferred fuel ms c Hne Hc _ l1 m l2 Hsplit).
    + split; [done|]. by apply (Hconv m p Hp Hpx).
    + intros m' Hm' Hcand.
      assert (m' ∈ ms) as Hin by (rewrite Hsplit; apply elem_of_app; by left).
      apply (convergence_iff fuel ms c Hne Hc _ m' Hin) in Hcand.
      by rewrite (Hl1 m' Hm') in Hcand.
Qed.

(** In [lostFeeder] the match 15 refers to the absent id 9 and to the
    lower-bracket match 13: it passes the convergence check and is the
    grand final, although the match 14 shares the maximum depth with it. *)
Lemma dangling_reference_tolerated_witness :
  ∃ c pb, depthCacheOf 16 lostFeeder = Some c
    ∧ parseBracket 16 lostFeeder = Some (Some pb)
    ∧ c !! 9%Z = Some 0
    ∧ c !! 15%Z = Some 2
    ∧ (9%Z ∉ buildIsLBMatch c lostFeeder)
    ∧ convergence c (buildIsLBMatch c lostFeeder) (maxDepthOf c)
        (mkMatch 15 [(winner, 9%Z); (winner, 13%Z)]) = true
    ∧ cachedDepth c (mkMatch 14 [(winner, 13%Z)]) = maxDepthOf c
    ∧ grandFinal pb = Some (mkMatch 15 [(winner, 9%Z); (winner, 13%Z)]).
Proof.
  destruct (dangling_reference_tolerated Z.to_nat 16 lostFeeder 9%Z)
    as (c & pb & Hc & Hpb & Hzero & Hdepth & Hnot & Hcheck & Hfinal).
  - discriminate.
  - apply (bool_decide_unpack _). vm_compute. exact I.
  - apply (bool_decide_unpack _). vm_compute. exact I.
  - apply Forall_forall. apply (bool_decide_unpack _). vm_compute. exact I.
  - exists c, pb. split; [exact Hc|]. split; [exact Hpb|].
    set (m14 := mkMatch 14 [(winner, 13%Z)]).
    set (m15 := mkMatch 15 [(winner, 9%Z); (winner, 13%Z)]).
    set (p9 := {| type := winner; match_id := 9%Z |}).
    set (p13 := {| type := winner; match_id := 13%Z |}).
    assert (c = default ∅ (depthCacheOf 16 lostFeeder)) as Ec by (by rewrite Hc).
    assert (m15 ∈ lostFeeder) as Hin by (do 4 right; left).
    assert (p9 ∈ previous_matches m15) as Hp9 by left.
    assert (p13 ∈ previous_matches m15) as Hp13 by (right; left).
    assert (deepest c lostFeeder m15) as Hdeep.
    { intros m' Hm'. rewrite Ec. revert m' Hm'. apply Forall_forall.
      apply (bool_decide_unpack _). vm_compute. exact I. }
    assert (match_id p13 ∈ buildIsLBMatch c lostFeeder) as Hlb.
    { rewrite Ec. apply (bool_decide_unpack _). vm_compute. exact I. }
    assert (convergence c (buildIsLBMatch c lostFeeder) (maxDepthOf c) m15 = true) as Hconv.
    { apply (Hcheck m15 p9 Hin Hp9 eq_refl). split; [done|]. split; [simpl; lia|].
      by exists p13. }
    split_and!.
    + apply (Hzero m15 p9 Hin); [|done..]. vm_compute. reflexivity.
    + rewrite Ec. reflexivity.
    + exact Hnot.
    + exact Hconv.
    + rewrite Ec. reflexivity.
    + apply (Hfinal [mkMatch 11 []; mkMatch 12 []; mkMatch 13 [(loser, 11%Z); (loser, 12%Z)]; m14]
                    m15 [] p9); [reflexivity|done|done|done|simpl; lia|by exists p13|].
      intros m' Hm'. rewrite Ec. revert m' Hm'. apply Forall_forall.
      apply (bool_decide_unpack _). vm_compute. exact I.
Defined.

(** The cache and the result on [partialFetch]: the absent ids 90 and 91
    are cached with depth 0 and match 101, which refers only to them, has
    depth 1. *)
Example partialFetch_depths :
  ∃ c, depthCacheOf 104 partialFetch = Some c
    ∧ c !! 90%Z = Some 0 ∧ c !! 91%Z = Some 0 ∧ c !! 101%Z = Some 1
    ∧ c !! 102%Z = Some 0 ∧ c !! 103%Z = Some 2.
Proof. eexists. split; [vm_compute; reflexivity|]. by vm_compute. Qed.

(** Nothing is classified without a reason: a lower-bracket id has a
    loser-feed or a winner-type predecessor that is lower-bracket. *)
Lemma isLB_justified (c : gmap Z nat) (ms : list PSBracketMatch) x :
  x ∈ buildIsLBMatch c ms →
  x ∈ buildHasLoserIncoming ms
  ∨ ∃ m p, buildMatchMap ms !! x = Some m ∧ p ∈ previous_matches m
           ∧ type p = winner ∧ match_id p ∈ buildIsLBMatch c ms.
Proof.
  unfold buildIsLBMatch.
  set (mm := buildMatchMap ms). set (hl := buildHasLoserIncoming ms).
  generalize (sortedByDepth c ms). intros sorted.
  set (justified (S : gset Z) y :=
         y ∈ hl ∨ ∃ m p, mm !! y = Some m ∧ p ∈ previous_matches m
                         ∧ type p = winner ∧ match_id p ∈ S).
  assert (∀ l (S : gset Z), (∀ y, y ∈ S → justified S y) →
            ∀ y, y ∈ propagateLB mm hl l S → justified (propagateLB mm hl l S) y) as Hprop.
  { induction l as [|m l IH]; intros S HS; [done|].
    cbn [propagateLB fold_left]. fold (propagateLB mm hl l). apply IH.
    intros y Hy. unfold classifyLB in *.
    destruct (bool_decide (id m ∈ S)); [by apply HS|].
    destruct (mm !! id m) as [m'|] eqn:Em; [|by apply HS].
    assert (∀ z, justified S z → justified ({[id m]} ∪ S) z) as Hmono.
    { intros z [?|(m0 & p & ? & ? & ? & ?)]; [by left|right].
      exists m0, p. split_and!; [done..|]. apply elem_of_union. by right. }
    destruct (bool_decide (id m ∈ hl)) eqn:Ehl.
    { cbn [snd] in *.
      apply elem_of_union in Hy as [->%elem_of_singleton|Hy]; [|by apply Hmono, HS].
      left. by apply bool_decide_eq_true in Ehl. }
    destruct (existsb _ (previous_matches m')) eqn:Eex; [|by apply HS].
    cbn [snd] in *.
    apply elem_of_union in Hy as [->%elem_of_singleton|Hy]; [|by apply Hmono, HS].
    apply existsb_exists in Eex as (p & Hp%list_elem_of_In & [Hw Hin]%andb_true_iff).
    apply bool_decide_eq_true in Hw, Hin. right. exists m', p.
    split_and!; [done..|]. apply elem_of_union. by right. }
  apply Hprop. intros y [Hy|[Hy _]]%seedLB_spec; [by apply not_elem_of_empty in Hy|by left].
Qed.

(** Scenario B on [doubleElim4]: match 6 joins the upper final 3 and the
    lower final 5 at the maximum depth and is the grand final; no round
    holds it. *)
Example doubleElim4_bracket :
  parseBracket 7 doubleElim4
  = Some (Some {| upperBracket :=
                    [ {| label := "UB Semifinal"; matches := [mkMatch 1 []; mkMatch 2 []] |};
                      {| label := "UB Final";
                         matches := [mkMatch 3 [(winner, 1%Z); (winner, 2%Z)]] |} ];
                  lowerBracket :=
                    [ {| label := "LB Round 1";
                         matches := [mkMatch 4 [(loser, 1%Z); (loser, 2%Z)]] |};
                      {| label := "LB Final";
                         matches := [mkMatch 5 [(winner, 4%Z); (loser, 3%Z)]] |} ];
                  grandFinal := Some (mkMatch 6 [(winner, 3%Z); (winner, 5%Z)]) |}).
Proof. by vm_compute. Qed.

(** ** The bracket engine: lists outside the data model *)

(** On two matches that feed each other the recursion of [getDepth] never
    comes back, whatever the budget. *)
Lemma cyclicPair_getDepth fuel (c : gmap Z nat) :
  c !! 1%Z = None → c !! 2%Z = None →
  getDepth (buildMatchMap cyclicPair) fuel 1 c = None
  ∧ getDepth (buildMatchMap cyclicPair) fuel 2 c = None.
Proof.
  assert (buildMatchMap cyclicPair !! 1%Z = Some (mkMatch 1 [(winner, 2%Z)])) as Hm1
    by by vm_compute.
  assert (buildMatchMap cyclicPair !! 2%Z = Some (mkMatch 2 [(winner, 1%Z)])) as Hm2
    by by vm_compute.
  revert c. induction fuel as [|fuel IH]; intros c H1 H2; [done|].
  destruct (IH c H1 H2) as [IH1 IH2].
  split; cbn [getDepth]; [rewrite H1, Hm1|rewrite H2, Hm2];
    cbn [mkMatch previous_matches fmap list_fmap memo_map memo_bind match_id snd];
    unfold memo_bind; [by rewrite IH2|by rewrite IH1].
Qed.

Example cyclicPair_no_result fuel : parseBracket fuel cyclicPair = None.
Proof.
  unfold parseBracket, depthCacheOf, fillDepthCache.
  cbn [cyclicPair memo_map memo_bind]. unfold memo_bind.
  destruct (cyclicPair_getDepth fuel ∅) as [H _]; [done..|].
  change (id (mkMatch 1 [(winner, 2%Z)])) with 1%Z. fold cyclicPair. by rewrite H.
Qed.

(** A list that carries an id twice keeps both entries in one round. *)
Example twins_kept :
  ∃ pb, parseBracket 1 twins = Some (Some pb)
    ∧ id <$> flat_map matches (upperBracket pb) = [1%Z; 1%Z].
Proof. eexists. split; [by vm_compute|reflexivity]. Qed.

(** ** The bracket engine: the single-elimination scenario *)


(** C4, as stated, fails on the single-elimination bracket of four
    quarterfinals, two semifinals and one final: the result does not have
    three upper rounds. *)
Lemma scenarioA_counterexample :
  ¬ ∃ pb, parseBracket 8 singleElim7 = Some (Some pb) ∧ scenarioA_expected pb.
Proof.
  intros (pb & Hpb & Hlen & _). vm_compute in Hpb.
  injection Hpb as <-. discriminate Hlen.
Qed.

(** C4, amended.  For the single-elimination bracket of four
    quarterfinals, two semifinals and one final, given in any order, the
    sole match at the maximum depth, the final, becomes [grandFinal]; the
    upper bracket has the two rounds that remain, the quarterfinals
    labelled "Semifinal" and the semifinals labelled "Final" (the "UB "
    prefix is stripped because the lower bracket is empty). *)
Theorem single_elimination_bracket l : l ≡ₚ singleElim7 → scenarioA_actual l.
Proof.
  intros Hl. symmetry in Hl. apply permutations_Permutation in Hl. revert l Hl.
  apply Forall_forall. apply (bool_decide_unpack _). vm_compute. exact I.
Qed.

Lemma single_elimination_bracket_witness : scenarioA_actual singleElim7.
Proof. apply (single_elimination_bracket singleElim7). reflexivity. Defined.

End BracketFacts.

(** ** Statistics: the kill/death invariant *)

Module StatsFacts.
Import Stats.
Local Open Scope Qc_scope.


Lemma kd_invariant_intro (p : NormalizedPlayerStat) :
  kdDiff p = kills p - deaths p →
  kdRatio p = (if bool_decide (0 < deaths p) then kills p / deaths p else kills p) →
  kd_invariant p.
Proof.
  intros Hd Hr. split_and!; [done| |].
  - intros Hpos. by rewrite Hr, bool_decide_eq_true_2.
  - intros Hz. rewrite Hr, bool_decide_eq_false_2; [done|]. rewrite Hz. apply Qcle_not_lt, Qcle_refl.
Qed.

Lemma faceit_player_kd parseFloat p : kd_invariant (Faceit.normalizePlayer parseFloat p).
Proof. by apply kd_invariant_intro. Qed.

Lemma panda_player_kd names ps : kd_invariant (Panda.normalizePS names ps).
Proof. by apply kd_invariant_intro. Qed.


Lemma accumulate_kd existing p : kd_invariant (Table.accumulate existing p).
Proof. by apply kd_invariant_intro. Qed.

Lemma visit_kd p (pm : list (string * NormalizedPlayerStat)) :
  kd_invariant p → Forall (λ e, kd_invariant e.2) pm →
  Forall (λ e, kd_invariant e.2) (Table.visit p pm).
Proof.
  intros Hp. induction 1 as [|[k e] pm He Hpm IH]; simpl.
  - constructor; [done|constructor].
  - destruct (String.eqb (playerId p) k).
    + constructor; [apply accumulate_kd|done].
    + by constructor.
Qed.

Lemma aggregate_kd maps teamKey :
  (∀ map p, map ∈ maps → p ∈ Table.playersAt teamKey map → kd_invariant p) →
  ∀ r, r ∈ Table.aggregatePlayerStats maps teamKey → kd_invariant r.
Proof.
  intros Hrows. unfold Table.aggregatePlayerStats.
  assert (∀ pm0, Forall (λ e, kd_invariant e.2) pm0 →
            Forall (λ e, kd_invariant e.2)
              (fold_left (λ playerMap map,
                 fold_left (λ pm p, Table.visit p pm) (Table.playersAt teamKey map) playerMap)
               maps pm0)) as Hfold.
  { induction maps as [|map maps IH]; intros pm0 Hpm0; [done|]. simpl.
    apply IH; [intros map' p' Hm'; apply Hrows; by right|].
    assert (∀ p, p ∈ Table.playersAt teamKey map → kd_invariant p) as Hmap.
    { intros p. apply Hrows. left. }
    revert pm0 Hpm0. induction (Table.playersAt teamKey map) as [|p ps IHp]; intros pm0 Hpm0;
      [done|].
    simpl. apply IHp; [intros q Hq; apply Hmap; by right|].
    apply visit_kd; [apply Hmap; left|done]. }
  intros r [[k e] [-> Hin]]%list_elem_of_fmap.
  specialize (Hfold [] ltac:(constructor)). rewrite Forall_forall in Hfold.
  by apply (Hfold (k, e)).
Qed.

Lemma faceit_output_kd parseFloat stats n1 n2 s :
  Faceit.normalizeFaceitStats parseFloat stats n1 n2 = Some s →
  ∀ p, p ∈ playersOf s → kd_invariant p.
Proof.
  unfold Faceit.normalizeFaceitStats. destruct (Faceit.rounds stats) as [|r rs] eqn:E; [done|].
  rewrite <-E. intros [= <-] p. unfold playersOf. cbn [maps].
  intros (m & (i & round & -> & _)%elem_of_lookup_imap & Hp)%elem_of_flat_map.
  apply elem_of_app in Hp as [Hp|Hp]; simpl in Hp;
    apply list_elem_of_fmap in Hp as (q & -> & _); apply faceit_player_kd.
Qed.

Lemma panda_output_kd playerStats games n1 n2 t1 t2 i1 i2 names s :
  Panda.normalizePandaScoreStats playerStats games n1 n2 t1 t2 i1 i2 names = Some s →
  ∀ p, p ∈ playersOf s → kd_invariant p.
Proof.
  unfold Panda.normalizePandaScoreStats.
  destruct playerStats as [|ps0 pss]; [done|]. destruct games as [|g0 gs]; [done|].
  cbv zeta. destruct (imap _ _) as [|m0 ms] eqn:E; [done|].
  intros [= <-] p. unfold playersOf. cbn [maps]. rewrite <-E.
  intros (m & (i & game & -> & _)%elem_of_lookup_imap & Hp)%elem_of_flat_map.
  apply elem_of_app in Hp as [Hp|Hp]; simpl in Hp;
    apply list_elem_of_fmap in Hp as (q & -> & _); apply panda_player_kd.
Qed.

Lemma playersAt_playersOf (s : NormalizedMatchStats) teamKey map p :
  map ∈ maps s → p ∈ Table.playersAt teamKey map → p ∈ playersOf s.
Proof.
  intros Hmap Hp. apply elem_of_flat_map. exists map. split; [done|].
  apply elem_of_app. destruct teamKey; [by left|by right].
Qed.

(** C6.  Every record that the FACEIT normalizer or the PandaScore
    normalizer emits satisfies [kdDiff = kills - deaths],
    [kdRatio = kills / deaths] when [deaths > 0] and [kdRatio = kills] when
    [deaths = 0]; the cross-map aggregator, fed with records that satisfy
    this, returns records that satisfy it; hence so does every "Overall" row
    aggregated from the maps of either normalizer's output. *)
Theorem kd_ratio_safety :
  (∀ parseFloat stats n1 n2 s,
     Faceit.normalizeFaceitStats parseFloat stats n1 n2 = Some s →
     ∀ p, p ∈ playersOf s → kd_invariant p)
  ∧ (∀ playerStats games n1 n2 t1 t2 i1 i2 names s,
       Panda.normalizePandaScoreStats playerStats games n1 n2 t1 t2 i1 i2 names = Some s →
       ∀ p, p ∈ playersOf s → kd_invariant p)
  ∧ (∀ maps teamKey,
       (∀ map p, map ∈ maps → p ∈ Table.playersAt teamKey map → kd_invariant p) →
       ∀ r, r ∈ Table.aggregatePlayerStats maps teamKey → kd_invariant r)
  ∧ (∀ parseFloat stats n1 n2 s teamKey,
       Faceit.normalizeFaceitStats parseFloat stats n1 n2 = Some s →
       ∀ r, r ∈ Table.aggregatePlayerStats (maps s) teamKey → kd_invariant r)
  ∧ (∀ playerStats games n1 n2 t1 t2 i1 i2 names s teamKey,
       Panda.normalizePandaScoreStats playerStats games n1 n2 t1 t2 i1 i2 names = Some s →
       ∀ r, r ∈ Table.aggregatePlayerStats (maps s) teamKey → kd_invariant r).
Proof.
  split_and!.
  - apply faceit_output_kd.
  - apply panda_output_kd.
  - apply aggregate_kd.
  - intros parseFloat stats n1 n2 s teamKey Hs. apply aggregate_kd.
    intros map p Hmap Hp. eapply faceit_output_kd; [done|].
    by eapply playersAt_playersOf.
  - intros playerStats games n1 n2 t1 t2 i1 i2 names s teamKey Hs. apply aggregate_kd.
    intros map p Hmap Hp. eapply panda_output_kd; [done|].
    by eapply playersAt_playersOf.
Qed.

Lemma kd_ratio_safety_witness :
  ∃ s, Faceit.normalizeFaceitStats Faceit.parseDigits Faceit.sampleStats "alpha" "beta" = Some s
    ∧ (∀ p, p ∈ playersOf s → kd_invariant p)
    ∧ ∀ r, r ∈ Table.aggregatePlayerStats (maps s) Table.key_team1Players → kd_invariant r.
Proof.
  destruct kd_ratio_safety as (Hfaceit & _ & Hagg & _).
  eexists. split; [reflexivity|].
  assert (∀ p, p ∈ playersOf
            (Build_NormalizedMatchStats faceit "alpha" "beta" None None
               (imap (Faceit.normalizeRound Faceit.parseDigits) (Faceit.rounds Faceit.sampleStats))
               Faceit.availableColumns false) → kd_invariant p) as Hall.
  { by apply (Hfaceit Faceit.parseDigits Faceit.sampleStats "alpha" "beta"). }
  split; [exact Hall|].
  apply Hagg. intros map p Hmap Hp. apply Hall.
  apply elem_of_flat_map. exists map. split; [done|].
  apply elem_of_app. by left.
Defined.

(** ** Statistics: the headshot percentage *)

(** C7, as stated, fails for the FACEIT normalizer: it does not derive the
    percentage from the kills at all, so a player without a kill keeps the
    percentage that the payload reports. *)
Lemma faceit_headshot_counterexample :
  ¬ ∀ parseFloat p,
      kills (Faceit.normalizePlayer parseFloat p) = 0 →
      hsPercent (Faceit.normalizePlayer parseFloat p) = Some 0.
Proof.
  intros H. specialize (H Faceit.parseDigits Faceit.benched eq_refl).
  apply (f_equal (λ o, this <$> o)) in H. vm_compute in H. discriminate H.
Qed.

(** C7, amended.  The PandaScore and the Grid normalizer derive the
    headshot percentage of every record as [100 * headshots / kills] when
    [kills > 0] and as 0 when [kills = 0]; the FACEIT normalizer copies the
    [Headshots %] entry of the payload, leaving the field undefined when the
    entry is absent or not a number. *)
Theorem headshot_percentage_derivation :
  (∀ names ps,
     (0 < Panda.kills (Panda.stats ps) →
      hsPercent (Panda.normalizePS names ps)
      = Some (hundred * Panda.headshots (Panda.stats ps) / Panda.kills (Panda.stats ps)))
     ∧ (Panda.kills (Panda.stats ps) = 0 → hsPercent (Panda.normalizePS names ps) = Some 0))
  ∧ (∀ p totalRounds,
       (0 < Grid.kills p →
        hsPercent (Grid.normalizePlayer p totalRounds)
        = Some (hundred * Grid.headshots p / Grid.kills p))
       ∧ (Grid.kills p = 0 → hsPercent (Grid.normalizePlayer p totalRounds) = Some 0))
  ∧ (∀ parseFloat p,
       hsPercent (Faceit.normalizePlayer parseFloat p)
       = Faceit.parseNumOpt parseFloat (Faceit.player_stats p !! "Headshots %")).
Proof.
  assert (∀ h k : Qc, 0 < k → h / k * hundred = hundred * h / k) as Hfield.
  { intros h k Hk. field. intros ->. by apply (Qcle_not_lt 0 0). }
  split_and!.
  - intros names ps. split.
    + intros Hpos. cbn [Panda.normalizePS hsPercent].
      by rewrite bool_decide_eq_true_2, Hfield.
    + intros Hz. cbn [Panda.normalizePS hsPercent]. rewrite Hz.
      rewrite bool_decide_eq_false_2; [done|]. by apply Qcle_not_lt.
  - intros p totalRounds. split.
    + intros Hpos. cbn [Grid.normalizePlayer hsPercent].
      by rewrite bool_decide_eq_true_2, Hfield.
    + intros Hz. cbn [Grid.normalizePlayer hsPercent]. rewrite Hz.
      rewrite bool_decide_eq_false_2; [done|]. by apply Qcle_not_lt.
  - done.
Qed.

Lemma headshot_percentage_derivation_witness :
  hsPercent (Panda.normalizePS None (Panda.mkStat 11 1 500 10 5 2 4 None))
  = Some (hundred * Q2Qc 4 / Q2Qc 10).
Proof.
  apply (proj1 (proj1 headshot_percentage_derivation None (Panda.mkStat 11 1 500 10 5 2 4 None))).
  reflexivity.
Defined.

(** ** Statistics: the declared columns *)


(** C8, as stated, fails: the FACEIT normalizer lists [mvps] although the
    record of a player whose dictionary lacks [MVPs] leaves it undefined. *)
Lemma faceit_columns_counterexample :
  ¬ ∀ stats n1 n2 s,
      Faceit.normalizeFaceitStats Faceit.parseDigits stats n1 n2 = Some s →
      listed_are_populated s.
Proof.
  intros H. specialize (H Faceit.sampleStats "alpha" "beta" _ eq_refl).
  specialize (H col_mvps (Faceit.normalizePlayer Faceit.parseDigits Faceit.noMvps)).
  destruct H as [q Hq].
  - apply (bool_decide_unpack _). vm_compute. exact I.
  - apply elem_of_flat_map. eexists. split; [left|]. apply elem_of_app. right. left.
  - vm_compute in Hq. discriminate Hq.
Qed.

(** The same holds of the PandaScore normalizer, which lists [adr] as soon
    as one player of the payload has one. *)
Example panda_columns_not_populated :
  ∃ s, Panda.normalizePandaScoreStats Panda.samplePlayerStats Panda.sampleGames
         "one" "two" 1 2 None None None = Some s
    ∧ ¬ listed_are_populated s.
Proof.
  eexists. split; [reflexivity|]. intros H.
  specialize (H col_adr (Panda.normalizePS None (Panda.mkStat 21 2 500 0 12 1 0 None))).
  destruct H as [q Hq].
  - apply (bool_decide_unpack _). vm_compute. exact I.
  - apply elem_of_flat_map. eexists. split; [left|]. apply elem_of_app. right. left.
  - vm_compute in Hq. discriminate Hq.
Qed.

Lemma faceit_populated_listed parseFloat stats n1 n2 s :
  Faceit.normalizeFaceitStats parseFloat stats n1 n2 = Some s → populated_are_listed s.
Proof.
  unfold Faceit.normalizeFaceitStats. destruct (Faceit.rounds stats) as [|r0 rs] eqn:E; [done|].
  rewrite <-E. intros [= <-] k r. unfold playersOf. cbn [maps availableColumns].
  intros (m & (i & round & -> & _)%elem_of_lookup_imap & Hp)%elem_of_flat_map Hsome.
  assert (∃ q, r = Faceit.normalizePlayer parseFloat q) as [q ->].
  { apply elem_of_app in Hp as [Hp|Hp]; simpl in Hp;
      apply list_elem_of_fmap in Hp as (q & -> & _); by exists q. }
  destruct k; simpl in Hsome; try (by destruct Hsome);
    apply (bool_decide_unpack _); vm_compute; exact I.
Qed.

Lemma panda_populated_listed playerStats games n1 n2 t1 t2 i1 i2 names s :
  Panda.normalizePandaScoreStats playerStats games n1 n2 t1 t2 i1 i2 names = Some s →
  populated_are_listed s.
Proof.
  unfold Panda.normalizePandaScoreStats.
  destruct playerStats as [|ps0 pss] eqn:Eps; [done|]. rewrite <-Eps.
  destruct games as [|g0 gs] eqn:Eg; [done|]. rewrite <-Eg.
  cbv zeta. destruct (imap _ _) as [|m0 ms] eqn:E; [done|].
  intros [= <-] k r. unfold playersOf. cbn [maps availableColumns]. rewrite <-E.
  intros (m & (i & game & -> & _)%elem_of_lookup_imap & Hp)%elem_of_flat_map Hsome.
  assert (∃ q, q ∈ playerStats ∧ r = Panda.normalizePS names q) as (q & Hq & ->).
  { apply elem_of_app in Hp as [Hp|Hp]; simpl in Hp;
      apply list_elem_of_fmap in Hp as (q & -> & Hq);
      apply list_elem_of_filter in Hq as [_ Hq];
      apply list_elem_of_filter in Hq as [_ Hq]; by exists q. }
  assert (∀ (f : Panda.PSStats → option Qc),
            is_Some (f (Panda.stats q)) →
            existsb (λ ps, bool_decide (is_Some (f (Panda.stats ps)))) playerStats = true)
    as Hex.
  { intros f Hf. apply existsb_exists. exists q.
    split; [by apply list_elem_of_In|]. by apply bool_decide_eq_true. }
  unfold Panda.columnsFor.
  destruct k; simpl in Hsome; try (by destruct Hsome);
    try (apply (bool_decide_unpack _); vm_compute; exact I).
  - rewrite (Hex Panda.adr Hsome). rewrite !elem_of_app. right. left. left.
  - rewrite (Hex Panda.kast Hsome). rewrite !elem_of_app. right. right. left. left.
  - rewrite (Hex Panda.rating Hsome). rewrite !elem_of_app. right. right. right. left.
Qed.

Lemma grid_players seriesState i1 i2 s r :
  Grid.normalizeGridStats seriesState i1 i2 = Some (Some s) → r ∈ playersOf s →
  availableColumns s = Grid.availableColumns
  ∧ ∃ q totalRounds, r = Grid.normalizePlayer q totalRounds.
Proof.
  unfold Grid.normalizeGridStats.
  destruct (Grid.games seriesState) as [gs|]; [|done].
  destruct (sort_by _ _) as [|firstGame games] eqn:E; [done|]. rewrite <-E.
  destruct (Grid.teams firstGame) as [|ta [|tb tl]]; [done..|].
  intros Hs. apply bind_Some in Hs as (ms & Hms & [= <-]).
  unfold playersOf. cbn [maps].
  intros (m & Hm & Hr)%elem_of_flat_map. split; [done|].
  apply mapM_Some in Hms.
  apply list_elem_of_lookup in Hm as [j Hj].
  destruct (Forall2_lookup_r _ _ _ _ _ Hms Hj) as (o & Ho & Hom). simpl in Hom. subst o.
  apply list_elem_of_lookup_2, elem_of_lookup_imap in Ho as (i & game & Hgame & _).
  symmetry in Hgame. unfold Grid.normalizeGame in Hgame.
  apply bind_Some in Hgame as (t1 & _ & Hgame).
  apply bind_Some in Hgame as (t2 & _ & [= <-]).
  apply elem_of_app in Hr as [Hp|Hp]; simpl in Hp;
    apply list_elem_of_fmap in Hp as (q & -> & _); by eexists _, _.
Qed.

(** C8, amended.  In every non-null output of the FACEIT, the PandaScore
    and the Grid normalizer, a column key that holds a value in some emitted
    record is listed in [availableColumns].  The Grid normalizer moreover
    populates every listed column in every record.  (For FACEIT and
    PandaScore a listed optional column can be undefined in a record whose
    payload lacks it.) *)
Theorem available_columns_cover_populated :
  (∀ parseFloat stats n1 n2 s,
     Faceit.normalizeFaceitStats parseFloat stats n1 n2 = Some s → populated_are_listed s)
  ∧ (∀ playerStats games n1 n2 t1 t2 i1 i2 names s,
       Panda.normalizePandaScoreStats playerStats games n1 n2 t1 t2 i1 i2 names = Some s →
       populated_are_listed s)
  ∧ (∀ seriesState i1 i2 s,
       Grid.normalizeGridStats seriesState i1 i2 = Some (Some s) →
       populated_are_listed s ∧ listed_are_populated s).
Proof.
  split_and!.
  - apply faceit_populated_listed.
  - apply panda_populated_listed.
  - intros seriesState i1 i2 s Hs. split.
    + intros k r Hr Hsome.
      destruct (grid_players _ _ _ _ _ Hs Hr) as (-> & q & totalRounds & ->).
      destruct k; simpl in Hsome; try (by destruct Hsome);
        apply (bool_decide_unpack _); vm_compute; exact I.
    + intros k r Hk Hr.
      destruct (grid_players _ _ _ _ _ Hs Hr) as (Hcols & q & totalRounds & ->).
      rewrite Hcols in Hk.
      destruct k; simpl; try (by eexists); exfalso; revert Hk;
        apply (bool_decide_unpack _); vm_compute; exact I.
Qed.

Lemma available_columns_cover_populated_witness :
  ∃ s, Faceit.normalizeFaceitStats Faceit.parseDigits Faceit.sampleStats "alpha" "beta" = Some s
    ∧ populated_are_listed s.
Proof.
  eexists. split; [reflexivity|].
  by apply (proj1 available_columns_cover_populated
              Faceit.parseDigits Faceit.sampleStats "alpha" "beta").
Defined.

(** ** Statistics: the "Overall" row *)

Section Aggregate.
Import Table.


Lemma aggregate_flat maps teamKey (pm0 : list (string * NormalizedPlayerStat)) :
  fold_left (λ playerMap map, fold_left (λ pm p, visit p pm) (playersAt teamKey map) playerMap)
            maps pm0
  = fold_left (λ pm p, visit p pm) (flat_map (playersAt teamKey) maps) pm0.
Proof.
  revert pm0. induction maps as [|map maps IH]; intros pm0; [done|].
  simpl. by rewrite fold_left_app, IH.
Qed.

Lemma visit_lookup k p pm :
  lookupPM k (visit p pm)
  = if decide (playerId p = k)
    then Some (from_option (λ e, accumulate e p) p (lookupPM k pm))
    else lookupPM k pm.
Proof.
  unfold lookupPM. induction pm as [|[k' e] pm IH]; simpl.
  - destruct (decide (playerId p = k)) as [->|Hne].
    + by rewrite String.eqb_refl.
    + destruct (String.eqb k (playerId p)) eqn:E; [|done].
      apply String.eqb_eq in E. congruence.
  - destruct (String.eqb (playerId p) k') eqn:Ep; simpl.
    + apply String.eqb_eq in Ep. subst k'.
      destruct (String.eqb k (playerId p)) eqn:Ek; simpl.
      * apply String.eqb_eq in Ek. by rewrite decide_True.
      * apply String.eqb_neq in Ek. rewrite decide_False by congruence.
        destruct (decide (playerId p = k)); [congruence|done].
    + destruct (String.eqb k k') eqn:Ek; simpl.
      * apply String.eqb_eq in Ek. subst k'. apply String.eqb_neq in Ep.
        by rewrite decide_False.
      * apply IH.
Qed.

Lemma fold_visit_lookup k l pm0 :
  lookupPM k (fold_left (λ pm p, visit p pm) l pm0)
  = match lookupPM k pm0, filter (λ p, playerId p = k) l with
    | Some e, rows => Some (fold_left accumulate rows e)
    | None, [] => None
    | None, first :: rest => Some (fold_left accumulate rest first)
    end.
Proof.
  revert pm0. induction l as [|p l IH]; intros pm0; simpl.
  - by destruct (lookupPM k pm0).
  - rewrite IH, visit_lookup, filter_cons.
    destruct (decide (playerId p = k)); [|done].
    by destruct (lookupPM k pm0).
Qed.

Lemma visit_keys p pm :
  fst <$> visit p pm
  = if bool_decide (playerId p ∈ fst <$> pm) then fst <$> pm else (fst <$> pm) ++ [playerId p].
Proof.
  induction pm as [|[k e] pm IH]; csimpl; [done|].
  destruct (String.eqb (playerId p) k) eqn:E; csimpl.
  - apply String.eqb_eq in E. rewrite bool_decide_eq_true_2; [done|]. subst. left.
  - apply String.eqb_neq in E. rewrite IH. case_bool_decide as Hin.
    + rewrite bool_decide_eq_true_2; [done|]. by right.
    + rewrite bool_decide_eq_false_2; [done|]. by intros [?|?]%elem_of_cons.
Qed.

Lemma visit_NoDup p pm : NoDup (fst <$> pm) → NoDup (fst <$> visit p pm).
Proof.
  intros Hnd. rewrite visit_keys. case_bool_decide as Hin; [done|].
  apply NoDup_app. split_and!; [done| |apply NoDup_singleton].
  intros x Hx ->%list_elem_of_singleton. done.
Qed.

Lemma visit_keyed p pm :
  Forall (λ e, playerId e.2 = e.1) pm → Forall (λ e, playerId e.2 = e.1) (visit p pm).
Proof.
  induction 1 as [|[k e] pm He Hpm IH]; simpl.
  - constructor; [done|constructor].
  - destruct (String.eqb (playerId p) k); by constructor.
Qed.

Lemma fold_visit_invariant l pm0 :
  NoDup (fst <$> pm0) → Forall (λ e, playerId e.2 = e.1) pm0 →
  NoDup (fst <$> fold_left (λ pm p, visit p pm) l pm0)
  ∧ Forall (λ e, playerId e.2 = e.1) (fold_left (λ pm p, visit p pm) l pm0).
Proof.
  revert pm0. induction l as [|p l IH]; intros pm0 Hnd Hk; [done|].
  simpl. apply IH; [by apply visit_NoDup|by apply visit_keyed].
Qed.

Lemma lookupPM_elem k e pm : NoDup (fst <$> pm) → (k, e) ∈ pm → lookupPM k pm = Some e.
Proof.
  unfold lookupPM. induction pm as [|[k' e'] pm IH]; [by inversion 2|].
  csimpl. intros [Hnotin Hnd]%NoDup_cons [[= -> ->]|Hin]%elem_of_cons.
  - by rewrite String.eqb_refl.
  - destruct (String.eqb k k') eqn:E; [|by apply IH].
    apply String.eqb_eq in E. subst k'. exfalso. apply Hnotin.
    by apply (list_elem_of_fmap_2 fst _ (k, e)).
Qed.

(** One row per player, and the row of a player is the fold of
    [accumulate] over the player's rows. *)
Lemma aggregate_rows maps teamKey :
  NoDup (playerId <$> aggregatePlayerStats maps teamKey)
  ∧ ∀ r, r ∈ aggregatePlayerStats maps teamKey →
      ∃ first rest, rowsOf maps teamKey (playerId r) = first :: rest
                    ∧ r = fold_left accumulate rest first.
Proof.
  unfold aggregatePlayerStats, rowsOf. rewrite aggregate_flat.
  set (rows := flat_map (playersAt teamKey) maps).
  destruct (fold_visit_invariant rows []) as [Hnd Hk]; [constructor..|].
  set (pm := fold_left (λ pm p, visit p pm) rows []) in *.
  assert (playerId <$> (snd <$> pm) = fst <$> pm) as Hids.
  { rewrite <-list_fmap_compose. apply list_fmap_ext.
    rewrite Forall_forall in Hk. intros i e Hi. apply Hk. by eapply list_elem_of_lookup_2. }
  split; [by rewrite Hids|].
  intros r [[k e] [-> Hin]]%list_elem_of_fmap. simpl.
  rewrite Forall_forall in Hk. pose proof (Hk _ Hin) as Hke. simpl in Hke.
  pose proof (lookupPM_elem k e pm Hnd Hin) as Hlook.
  unfold pm in Hlook. rewrite fold_visit_lookup in Hlook. simpl in Hlook.
  rewrite Hke. destruct (filter _ rows) as [|first rest]; [done|].
  injection Hlook as <-. by eexists _, _.
Qed.
End Aggregate.

Section Overall.
Import Table.

Lemma overall_snoc first rest p :
  fold_left accumulate (rest ++ [p]) first = accumulate (fold_left accumulate rest first) p.
Proof. by rewrite fold_left_app. Qed.

Lemma sumQc_snoc l x : sumQc (l ++ [x]) = sumQc l + x.
Proof.
  destruct l as [|y l]; simpl; [ring|]. by rewrite fold_left_app.
Qed.

(** The summed fields. *)
Lemma overall_sum (f : NormalizedPlayerStat → Qc) first rest :
  (∀ e p, f (accumulate e p) = f e + f p) →
  f (fold_left accumulate rest first) = sumQc (f <$> first :: rest).
Proof.
  intros Hf. simpl. revert first. induction rest as [|p rest IH]; intros first; [done|].
  simpl. by rewrite IH, Hf.
Qed.

Lemma sumDefined_snoc l o :
  sumDefined (l ++ [o]) = sumOpt (sumDefined l) o.
Proof.
  unfold sumDefined. rewrite omap_app. destruct o as [x|]; simpl.
  - destruct (omap _ l) as [|y ys] eqn:E; simpl.
    + f_equal. ring.
    + f_equal. by rewrite fold_left_app.
  - by rewrite app_nil_r.
Qed.

(** The optional summed fields. *)
Lemma overall_sumDefined (f : NormalizedPlayerStat → option Qc) first rest :
  (∀ e p, f (accumulate e p) = sumOpt (f e) (f p)) →
  f (fold_left accumulate rest first) = sumDefined (f <$> first :: rest).
Proof.
  intros Hf. induction rest as [|p rest IH] using rev_ind.
  - unfold sumDefined. simpl. by destruct (f first).
  - rewrite overall_snoc, Hf, IH, app_comm_cons, fmap_app.
    by rewrite (sumDefined_snoc (f <$> first :: rest) (f p)).
Qed.

(** The averaged fields of a player with two rows. *)
Lemma overall_mean_of_two (f : NormalizedPlayerStat → option Qc) first p a b :
  (∀ e p, f (accumulate e p) = avgOpt (f e) (f p)) →
  f first = Some a → f p = Some b →
  f (fold_left accumulate [p] first) = Some ((a + b) / two).
Proof. intros Hf Ha Hb. simpl. by rewrite Hf, Ha, Hb. Qed.

(** The recomputed differential and ratio, once a second row came in. *)
Lemma overall_kd first rest :
  rest ≠ [] →
  let r := fold_left accumulate rest first in
  kdDiff r = kills r - deaths r
  ∧ kdRatio r = (if bool_decide (0 < deaths r) then kills r / deaths r else kills r).
Proof.
  intros Hne. destruct rest as [|p rest] using rev_ind; [done|].
  by rewrite overall_snoc.
Qed.

Lemma sumQc_const (l : list Qc) k : Forall (λ x, x = k) l → sumQc l = natQc (length l) * k.
Proof.
  intros Hl. induction l as [|x l IH] using rev_ind; [simpl; ring|].
  apply Forall_app in Hl as [Hl [-> _]%Forall_cons].
  rewrite sumQc_snoc, IH by done. rewrite length_app. simpl.
  replace (length l + 1)%nat with (S (length l)) by lia. simpl. ring.
Qed.
End Overall.

Section Headshots.
Import Table.

(** One step of the loop on the headshot percentage. *)
Lemma accumulate_hs e p eh ph :
  hsPercent e = Some eh → hsPercent p = Some ph →
  hsPercent (accumulate e p) = Some (combineHs (kills e + kills p) (kills p) eh ph).
Proof. intros He Hp. cbn [accumulate hsPercent]. by rewrite He, Hp. Qed.

(** The percentage is there at the end exactly when the first row has
    one. *)
Lemma overall_hs_Some first rest :
  is_Some (hsPercent (fold_left accumulate rest first)) ↔ is_Some (hsPercent first).
Proof.
  revert first. induction rest as [|p rest IH]; intros first; [done|].
  simpl. rewrite IH. cbn [accumulate hsPercent].
  destruct (hsPercent p), (hsPercent first); split; intros [? ?]; by eauto.
Qed.

(** The percentage, map by map. *)
Lemma overall_recombineHs first rest h :
  hsPercent first = Some h → Forall (λ p, is_Some (hsPercent p)) rest →
  hsPercent (fold_left accumulate rest first)
  = Some (recombineHs (kills first) h ((λ p, (kills p, default 0 (hsPercent p))) <$> rest)).
Proof.
  intros Hh Hrest. revert first h Hh.
  induction Hrest as [|p rest [ph Hp] _ IH]; intros first h Hh; [done|].
  simpl. rewrite (IH (accumulate first p) _ (accumulate_hs first p h ph Hh Hp)).
  by rewrite Hp.
Qed.

(** The guard of the update: without a positive kill total the percentage
    is 0. *)
Lemma overall_hs_zero first init p :
  is_Some (hsPercent first) → is_Some (hsPercent p) →
  let r := fold_left accumulate (init ++ [p]) first in
  ¬ 0 < kills r → hsPercent r = Some 0.
Proof.
  intros Hfirst [ph Hp]. cbv zeta. rewrite fold_left_app. cbn [fold_left]. intros Hk.
  apply (overall_hs_Some first init) in Hfirst as [eh He].
  rewrite (accumulate_hs _ _ eh ph He Hp).
  unfold combineHs, combineHsWith. by rewrite bool_decide_eq_false_2.
Qed.
End Headshots.


(** C5, as stated, fails on two maps of a player without a kill whose
    payload reports a headshot percentage of 50: the aggregated percentage
    is 0. *)
Lemma identical_maps_counterexample : ¬ Table.identical_maps_claim.
Proof.
  intros H.
  destruct (H Table.benchedMaps Table.key_team1Players
              (Faceit.normalizePlayer Faceit.parseDigits Faceit.benched)
              (Table.accumulate (Faceit.normalizePlayer Faceit.parseDigits Faceit.benched)
                                (Faceit.normalizePlayer Faceit.parseDigits Faceit.benched)))
    as [_ Hhs].
  - repeat constructor.
  - left.
  - apply (f_equal (λ o, this <$> o)) in Hhs. vm_compute in Hhs. discriminate Hhs.
Qed.

(** On doubles the headshot update of two identical maps of a player with
    10 kills and 55 percent does not give back 55: the result is the next
    double above it. *)
Lemma identical_maps_rounding :
  let n := Binary64.of_Z in
  Table.combineHsWith Binary64.add Binary64.sub Binary64.mul Binary64.div Binary64.positive
    (n 0%Z) (n 100%Z) (Binary64.add (n 10%Z) (n 10%Z)) (n 10%Z) (n 55%Z) (n 55%Z)
  = S754_finite false 7740561859543041 (-47)
  ∧ n 55%Z = S754_finite false 7740561859543040 (-47).
Proof. by vm_compute. Qed.

(** C5, amended.  The aggregator returns one row per player, and the row
    [r] of a player with the per-map rows [rows] satisfies: with a single
    row, [r] is that row; kills, deaths and assists are the sums over
    [rows]; MVPs and the multi-kill counts are the sums of the values that
    are there; from the second row on, [kdDiff] and [kdRatio] are recomputed
    from the summed kills and deaths; when every row has a headshot
    percentage, the percentage is recombined map by map, by
    [((K - k) * (P / 100) + k * (p / 100)) / K * 100] for the kills [K]
    summed so far, the kills [k] and the percentage [p] of the map and the
    percentage [P] before it, and it is 0 after a map that leaves the kill
    total not positive; for a player with two rows K/R ratio, ADR, KAST and
    rating are the mean [(a + b) / 2] of the two values; and when all rows
    share kills, deaths and assists, the sums are the row count times the
    shared value, the headshot percentage of two or more rows without a
    kill being 0. *)
Theorem aggregation_rules maps teamKey :
  NoDup (playerId <$> Table.aggregatePlayerStats maps teamKey)
  ∧ ∀ r, r ∈ Table.aggregatePlayerStats maps teamKey →
    ∃ first rest, Table.rowsOf maps teamKey (playerId r) = first :: rest ∧
      let rows := first :: rest in
      let mean_of_two (f : NormalizedPlayerStat → option Qc) :=
        ∀ p a b, rest = [p] → f first = Some a → f p = Some b →
                 f r = Some ((a + b) / two) in
      (rest = [] → r = first)
      ∧ kills r = Table.sumQc (kills <$> rows)
      ∧ deaths r = Table.sumQc (deaths <$> rows)
      ∧ assists r = Table.sumQc (assists <$> rows)
      ∧ mvps r = Table.sumDefined (mvps <$> rows)
      ∧ tripleKills r = Table.sumDefined (tripleKills <$> rows)
      ∧ quadroKills r = Table.sumDefined (quadroKills <$> rows)
      ∧ pentaKills r = Table.sumDefined (pentaKills <$> rows)
      ∧ (rest ≠ [] →
           kdDiff r = kills r - deaths r
           ∧ kdRatio r = (if bool_decide (0 < deaths r) then kills r / deaths r else kills r))
      ∧ (∀ h, hsPercent first = Some h → Forall (λ p, is_Some (hsPercent p)) rest →
           hsPercent r
           = Some (Table.recombineHs (kills first) h
                     ((λ p, (kills p, default 0 (hsPercent p))) <$> rest)))
      ∧ (∀ init p, rest = init ++ [p] →
           is_Some (hsPercent first) → is_Some (hsPercent p) →
           ¬ 0 < kills r → hsPercent r = Some 0)
      ∧ mean_of_two krRatio ∧ mean_of_two adr ∧ mean_of_two kast ∧ mean_of_two rating
      ∧ (∀ k d a,
           Forall (λ p, kills p = k ∧ deaths p = d ∧ assists p = a) rows →
           kills r = Table.natQc (length rows) * k
           ∧ deaths r = Table.natQc (length rows) * d
           ∧ assists r = Table.natQc (length rows) * a
           ∧ (rest ≠ [] → k = 0 → Forall (λ p, is_Some (hsPercent p)) rows →
              hsPercent r = Some 0)).
Proof.
  destruct (aggregate_rows maps teamKey) as [Hnd Hrows]. split; [done|].
  intros r Hr. destruct (Hrows r Hr) as (first & rest & Hfilter & ->).
  exists first, rest. split; [done|]. cbv zeta.
  assert (kills (fold_left Table.accumulate rest first) = Table.sumQc (kills <$> first :: rest))
    as Hkills by by apply overall_sum.
  assert (deaths (fold_left Table.accumulate rest first) = Table.sumQc (deaths <$> first :: rest))
    as Hdeaths by by apply overall_sum.
  assert (assists (fold_left Table.accumulate rest first)
          = Table.sumQc (assists <$> first :: rest))
    as Hassists by by apply overall_sum.
  split_and!;
    [by intros ->|done|done|done
    |by apply overall_sumDefined|by apply overall_sumDefined
    |by apply overall_sumDefined|by apply overall_sumDefined
    | | | | | | | |].
  - intros Hne. by apply overall_kd.
  - intros h. apply overall_recombineHs.
  - intros init p ->. apply overall_hs_zero.
  - intros p a b ->. by apply overall_mean_of_two.
  - intros p a b ->. by apply overall_mean_of_two.
  - intros p a b ->. by apply overall_mean_of_two.
  - intros p a b ->. by apply overall_mean_of_two.
  - intros k d a Hsame.
    rewrite Hkills, Hdeaths, Hassists.
    rewrite <-(length_fmap kills (first :: rest)) at 1.
    rewrite <-(length_fmap deaths (first :: rest)) at 1.
    rewrite <-(length_fmap assists (first :: rest)).
    assert (Table.sumQc (kills <$> first :: rest) = Table.natQc (length (kills <$> first :: rest)) * k)
      as Hk.
    { apply sumQc_const, Forall_fmap. eapply Forall_impl; [exact Hsame|]. by intros p (? & _). }
    split_and!.
    + exact Hk.
    + apply sumQc_const, Forall_fmap. eapply Forall_impl; [exact Hsame|].
      by intros p (_ & ? & _).
    + apply sumQc_const, Forall_fmap. eapply Forall_impl; [exact Hsame|].
      by intros p (_ & _ & ?).
    + intros Hne Hzero [Hfirst Hrest]%Forall_cons.
      destruct rest as [|p rest] using rev_ind; [done|].
      apply Forall_app in Hrest as [_ [Hp _]%Forall_cons].
      apply overall_hs_zero; [done..|].
      rewrite Hkills, Hk, Hzero. intros Hlt. apply (Qclt_not_le _ _ Hlt).
      rewrite Qcmult_0_r. apply Qcle_refl.
Qed.

(** On the two sample maps the player "p-1" has 15 kills at 40 percent and
    5 kills at 40 percent: one row, 20 kills, 22 deaths, and the percentage
    recombined to 40. *)
Lemma aggregation_rules_witness :
  NoDup (playerId <$> Table.aggregatePlayerStats Table.sampleMaps Table.key_team1Players)
  ∧ ∃ r, r ∈ Table.aggregatePlayerStats Table.sampleMaps Table.key_team1Players
    ∧ playerId r = "p-1"
    ∧ kills r = Q2Qc 20 ∧ deaths r = Q2Qc 22
    ∧ kdDiff r = kills r - deaths r
    ∧ hsPercent r = Some (Table.combineHs (Q2Qc 20) (Q2Qc 5) (Q2Qc 40) (Q2Qc 40))
    ∧ hsPercent r = Some (Q2Qc 40).
Proof.
  destruct (aggregation_rules Table.sampleMaps Table.key_team1Players) as [Hnd Hrows].
  split; [exact Hnd|].
  assert (∃ r rest, Table.aggregatePlayerStats Table.sampleMaps Table.key_team1Players
                    = r :: rest ∧ playerId r = "p-1") as (r & others & Hagg & Hid).
  { eexists _, _. split; [reflexivity|reflexivity]. }
  exists r. split; [rewrite Hagg; left|]. split; [exact Hid|].
  destruct (Hrows r) as (first & rest & Hfilter & _ & Hk & Hd & _ & _ & _ & _ & _ & Hkd & Hhs & _).
  { rewrite Hagg. left. }
  rewrite Hid in Hfilter. vm_compute in Hfilter. injection Hfilter as <- <-.
  assert (hsPercent r = Some (Table.combineHs (Q2Qc 20) (Q2Qc 5) (Q2Qc 40) (Q2Qc 40))) as Hr.
  { rewrite (Hhs (Q2Qc 40)).
    - reflexivity.
    - first [reflexivity|apply f_equal, Qc_is_canon; reflexivity].
    - repeat constructor. by eexists. }
  split_and!.
  - rewrite Hk. apply Qc_is_canon. reflexivity.
  - rewrite Hd. apply Qc_is_canon. reflexivity.
  - apply Hkd. discriminate.
  - exact Hr.
  - rewrite Hr. f_equal. apply Qc_is_canon. reflexivity.
Defined.

End StatsFacts.

(** ** Grouping tournaments by serie *)

Module HomeFacts.
Import Home.

Lemma show_Z_inj a b : show_Z a = show_Z b → a = b.
Proof.
  unfold show_Z. intros H.
  assert (Z.to_int a = Z.to_int b) as Hi.
  { apply (f_equal NilEmpty.int_of_string) in H. rewrite !NilEmpty.isi in H. congruence. }
  apply (f_equal Z.of_int) in Hi. by rewrite !DecimalZ.of_to in Hi.
Qed.

Lemma groupKey_serie t sid :
  String.eqb ("serie-" +:+ show_Z sid) (groupKey t) = true ↔ serieIdOf t = Some sid.
Proof.
  rewrite String.eqb_eq. unfold groupKey. destruct (serieIdOf t) as [s'|]; simpl.
  - split; [intros [= H%show_Z_inj]; congruence|congruence].
  - split; [intros [=]|done].
Qed.

Lemma serieIdOf_Some t sid :
  serieIdOf t = Some sid ↔ serie_id <$> serie t = Some sid ∧ sid ≠ 0%Z.
Proof.
  unfold serieIdOf. destruct (serie t) as [s|]; simpl; [|split; [done|by intros [? _]]].
  destruct (Z.eqb_spec (serie_id s) 0) as [E|E].
  - split; [done|]. intros [[= <-] ?]. done.
  - split; [by intros [= <-]|by intros [[= <-] _]].
Qed.

Lemma filter_omap_none {A B} (f : A → option B) (P : B → Prop) `{∀ y, Decision (P y)}
    (l : list A) :
  (∀ x y, x ∈ l → f x = Some y → ¬ P y) → filter P (omap f l) = [].
Proof.
  induction l as [|x l IH]; intros Hl; [done|]. csimpl.
  destruct (f x) as [y|] eqn:E.
  - rewrite filter_cons, decide_False by (apply (Hl x); [left|done]).
    apply IH. intros x' y' Hx'. apply Hl. by right.
  - apply IH. intros x' y' Hx'. apply Hl. by right.
Qed.

Lemma aggregateStatus_spec group :
  ((∃ t, t ∈ group ∧ _status t = ongoing) → aggregateStatus group = ongoing)
  ∧ ((∀ t, t ∈ group → _status t ≠ ongoing) → (∃ t, t ∈ group ∧ _status t = upcoming) →
       aggregateStatus group = upcoming)
  ∧ ((∀ t, t ∈ group → _status t ≠ ongoing) → (∀ t, t ∈ group → _status t ≠ upcoming) →
       aggregateStatus group = completed).
Proof.
  assert (∀ st, existsb (λ t, bool_decide (_status t = st)) group = true
                ↔ ∃ t, t ∈ group ∧ _status t = st) as Hex.
  { intros st. rewrite existsb_exists. split.
    - intros (t & Ht & E). exists t. split; [by apply list_elem_of_In|].
      by apply bool_decide_eq_true in E.
    - intros (t & Ht & E). exists t. split; [by apply list_elem_of_In|].
      by apply bool_decide_eq_true. }
  unfold aggregateStatus. split_and!.
  - intros H. apply Hex in H. by rewrite H.
  - intros Hno Hup. apply Hex in Hup.
    destruct (existsb (λ t, bool_decide (_status t = ongoing)) group) eqn:E.
    { apply Hex in E as (t & Ht & E). by destruct (Hno t Ht). }
    by rewrite Hup.
  - intros Hno Hnu.
    destruct (existsb (λ t, bool_decide (_status t = ongoing)) group) eqn:E.
    { apply Hex in E as (t & Ht & E). by destruct (Hno t Ht). }
    destruct (existsb (λ t, bool_decide (_status t = upcoming)) group) eqn:E'; [|done].
    apply Hex in E' as (t & Ht & E'). by destruct (Hnu t Ht).
Qed.

(** Lower-casing is idempotent, so a lower-cased key never holds a
    capital letter. *)
Lemma lower_ascii_idem c : lower_ascii (lower_ascii c) = lower_ascii c.
Proof. destruct c as [[] [] [] [] [] [] [] []]; reflexivity. Qed.

Lemma toLowerCase_idem s : toLowerCase (toLowerCase s) = toLowerCase s.
Proof.
  unfold toLowerCase. induction s as [|c s IH]; simpl; [done|].
  by rewrite lower_ascii_idem, IH.
Qed.

(** After [toLowerCase] the only inherited names that a tier can hit are
    [constructor] and [__proto__]: every other property of
    [Object.prototype] is spelt with a capital letter. *)
Lemma ranked_iff tier :
  ranked tier
  ↔ toLowerCase tier ≠ "constructor" ∧ toLowerCase tier ≠ "__proto__".
Proof.
  unfold ranked, tierRank, intendedRank, TIER_RANK. cbv zeta.
  pose proof (toLowerCase_idem tier) as Hidem.
  generalize dependent (toLowerCase tier). intros key Hidem.
  assert (existsb (String.eqb key) prototypeMethods = false) as ->.
  { apply not_true_is_false. intros (m & Hm & ->%String.eqb_eq)%existsb_exists.
    apply list_elem_of_In in Hm. unfold prototypeMethods in Hm.
    repeat (apply elem_of_cons in Hm as [->|Hm]; [by vm_compute in Hidem|]).
    by apply elem_of_nil in Hm. }
  repeat (match goal with
          | |- context [String.eqb key ?k] => destruct (String.eqb_spec key k) as [->|?]
          end;
          [vm_compute; split;
           [intros ?; split; intros ?; congruence
           |intros [H1 H2]; first [congruence|by destruct H1|by destruct H2]]|]).
  simpl. by split.
Qed.

Lemma lessThan_ranked a b :
  ranked a → ranked b → lessThan (tierRank a) (tierRank b) = (intendedRank a <? intendedRank b).
Proof. unfold ranked. by intros -> ->. Qed.

(** On ranked tiers the reduce of [bestTier] returns the tier of a member
    of the least rank. *)
Lemma bestTier_fold (group : list AnnotatedTournament) (init : string) :
  ranked init → Forall (λ t, ranked (t_tier t)) group →
  let best := fold_left (λ best t, if lessThan (tierRank (t_tier t)) (tierRank best)
                                   then t_tier t else best)
                        group init in
  (best = init ∨ ∃ t, t ∈ group ∧ best = t_tier t)
  ∧ intendedRank best ≤ intendedRank init
  ∧ ∀ t, t ∈ group → intendedRank best ≤ intendedRank (t_tier t).
Proof.
  intros Hinit Hgroup. revert init Hinit.
  induction Hgroup as [|t group Ht _ IH]; intros init Hinit; simpl.
  - split_and!; [by left|done|by inversion 1].
  - rewrite (lessThan_ranked _ _ Ht Hinit).
    destruct (Nat.ltb_spec (intendedRank (t_tier t)) (intendedRank init)) as [Hlt|Hge].
    + destruct (IH (t_tier t) Ht) as (Hwho & Hle & Hall). split_and!.
      * right. destruct Hwho as [->|(t' & Ht' & ->)]; [exists t|exists t']; split; try done.
        -- left.
        -- by right.
      * lia.
      * intros t' [->|Ht']%elem_of_cons; [done|by apply Hall].
    + destruct (IH init Hinit) as (Hwho & Hle & Hall). split_and!.
      * destruct Hwho as [->|(t' & Ht' & ->)]; [by left|right].
        exists t'. split; [by right|done].
      * done.
      * intros t' [->|Ht']%elem_of_cons; [lia|by apply Hall].
Qed.

Lemma bestTier_spec first rest :
  Forall (λ t, ranked (t_tier t)) (first :: rest) →
  ∃ t, t ∈ first :: rest ∧ bestTier first (first :: rest) = t_tier t
       ∧ ∀ t', t' ∈ first :: rest → intendedRank (t_tier t) ≤ intendedRank (t_tier t').
Proof.
  intros Hranked.
  destruct (bestTier_fold (first :: rest) (t_tier first)) as (Hwho & _ & Hall);
    [by apply Forall_cons in Hranked as [? _]|done|].
  fold (bestTier first (first :: rest)) in Hwho, Hall.
  destruct Hwho as [E|(t & Ht & E)].
  - exists first. split; [left|]. split; [done|]. intros t' Ht'. rewrite <-E. by apply Hall.
  - exists t. split; [done|]. split; [done|]. intros t' Ht'. rewrite <-E. by apply Hall.
Qed.

Lemma other_group_event (tournaments : list AnnotatedTournament) sid k vs y :
  sid ≠ 0%Z → k ≠ "serie-" +:+ show_Z sid →
  vs = filter (λ t, String.eqb k (groupKey t) = true) tournaments →
  eventOfGroup vs = Some y → serieId y ≠ Some sid.
Proof.
  intros Hsid Hk Hvs Hy.
  destruct vs as [|first [|second rest]]; [done| |]; injection Hy as <-; [done|].
  cbn [groupedEvent serieId]. intros Hserie.
  assert (first ∈ filter (λ t, String.eqb k (groupKey t) = true) tournaments) as Hin.
  { rewrite <-Hvs. left. }
  apply list_elem_of_filter in Hin as [Hkey _]. apply String.eqb_eq in Hkey.
  apply Hk. rewrite Hkey. symmetry. apply String.eqb_eq, groupKey_serie.
  by apply serieIdOf_Some.
Qed.

(** Away from the two inherited names the grouped event is the one the
    tier rule describes.  When two or more tournaments of the list carry
    the series identifier [sid] (a truthy one, so not 0), [groupBySerie]
    emits exactly one event for that serie.  Its status is ongoing if a
    member is ongoing, else upcoming if a member is upcoming, else
    completed.  If no member's tier is, up to case, [constructor] or
    [__proto__], its tier is the upper-cased tier of a member whose rank is
    the least among the members, where S, A, B, C, D rank 0 to 4 in either
    case and every other tier ranks 99. *)
Lemma serie_group_event (tournaments : list AnnotatedTournament) (sid : Z) :
  sid ≠ 0%Z →
  let members := filter (λ t, serie_id <$> serie t = Some sid) tournaments in
  2 ≤ length members →
  ∃ e, filter (λ e, serieId e = Some sid) (groupBySerie tournaments) = [e]
    ∧ tournamentCount e = Some (length members)
    ∧ ((∃ t, t ∈ members ∧ _status t = ongoing) → status e = ongoing)
    ∧ ((∀ t, t ∈ members → _status t ≠ ongoing) →
       (∃ t, t ∈ members ∧ _status t = upcoming) → status e = upcoming)
    ∧ ((∀ t, t ∈ members → _status t ≠ ongoing) →
       (∀ t, t ∈ members → _status t ≠ upcoming) → status e = completed)
    ∧ ((∀ t, t ∈ members → toLowerCase (t_tier t) ≠ "constructor"
                           ∧ toLowerCase (t_tier t) ≠ "__proto__") →
       ∃ t, t ∈ members ∧ tier e = showTier (t_tier t)
            ∧ ∀ t', t' ∈ members → intendedRank (t_tier t) ≤ intendedRank (t_tier t'))
    ∧ intendedRank "S" < intendedRank "A" < intendedRank "B"
    ∧ intendedRank "B" < intendedRank "C" < intendedRank "D"
    ∧ (∀ other, toLowerCase other ∉ ["s"; "a"; "b"; "c"; "d"] →
         intendedRank "D" < intendedRank other).
Proof.
  intros Hsid members Hlen.
  set (key := "serie-" +:+ show_Z sid).
  destruct (grouping_spec String.eqb String.eqb_eq groupKey tournaments)
    as (Hnd & Hne & Hget).
  fold (buildGroups tournaments) in Hnd, Hne, Hget.
  assert (groupGet String.eqb key (buildGroups tournaments) = members) as Hmembers.
  { rewrite Hget. apply list_filter_iff. intros t.
    unfold key. rewrite groupKey_serie, serieIdOf_Some. tauto. }
  assert ((key, members) ∈ buildGroups tournaments) as Hin.
  { rewrite <-Hmembers. apply groupGet_found; [apply String.eqb_eq|].
    rewrite Hmembers. intros E. rewrite E in Hlen. simpl in Hlen. lia. }
  destruct (list_elem_of_split _ _ Hin) as (g1 & g2 & Hsplit).
  destruct members as [|first [|second rest]] eqn:Em; [simpl in Hlen; lia..|].
  rewrite <-Em in *.
  assert (first ∈ members) as Hfirst by (rewrite Em; left).
  exists (groupedEvent first members).
  assert (serieId (groupedEvent first members) = Some sid) as Hserie.
  { cbn [groupedEvent serieId]. by apply list_elem_of_filter in Hfirst as [? _]. }
  split_and!.
  - assert (∀ k vs, (k, vs) ∈ buildGroups tournaments →
              vs = filter (λ t, String.eqb k (groupKey t) = true) tournaments) as Hgroup.
    { intros k vs Hkvs. rewrite <-Hget. symmetry.
      by apply groupGet_elem; [apply String.eqb_eq|..]. }
    unfold groupBySerie. rewrite Hsplit in Hnd, Hgroup |- *.
    rewrite omap_app. csimpl.
    replace (eventOfGroup members) with (Some (groupedEvent first members))
      by (by rewrite Em).
    rewrite fmap_app, fmap_cons in Hnd.
    apply NoDup_app in Hnd as (_ & Hdisj & [Hnot2 _]%NoDup_cons).
    rewrite filter_app, filter_cons, decide_True by done.
    rewrite (filter_omap_none _ _ g1), (filter_omap_none _ _ g2); [done| |].
    + intros [k vs] y Hx Hy. simpl in Hy.
      apply (other_group_event tournaments sid k vs y); [done| | |done].
      * intros ->. apply Hnot2. by apply (list_elem_of_fmap_2 fst _ (key, vs)).
      * apply Hgroup. apply elem_of_app. right. by right.
    + intros [k vs] y Hx Hy. simpl in Hy.
      apply (other_group_event tournaments sid k vs y); [done| | |done].
      * intros ->. apply (Hdisj key); [by apply (list_elem_of_fmap_2 fst _ (key, vs))|left].
      * apply Hgroup. apply elem_of_app. by left.
  - done.
  - apply aggregateStatus_spec.
  - apply aggregateStatus_spec.
  - apply aggregateStatus_spec.
  - intros Hnames. cbn [groupedEvent tier]. rewrite Em.
    destruct (bestTier_spec first (second :: rest)) as (t & Ht & -> & Hall); [|by exists t].
    rewrite <-Em. apply Forall_forall. intros t Ht. by apply ranked_iff, Hnames.
  - by vm_compute.
  - by vm_compute.
  - by vm_compute.
  - by vm_compute.
  - intros other Hother. unfold intendedRank at 2. cbv zeta.
    repeat (match goal with
            | |- context [String.eqb (toLowerCase other) ?k] =>
                destruct (String.eqb_spec (toLowerCase other) k) as [E|?]
            end;
            [exfalso; apply Hother; rewrite E;
             apply (bool_decide_unpack _); vm_compute; exact I|]).
    change (4 < 99). lia.
Qed.

(** Scenario D: the two stages of serie 42 give one event of tier "S"
    that is ongoing. *)
Lemma serie_group_event_scenarioD :
  ∃ e, filter (λ e, serieId e = Some 42%Z) (groupBySerie scenarioD) = [e]
    ∧ groupBySerie scenarioD = [e]
    ∧ tier e = "S" ∧ status e = ongoing ∧ tournamentCount e = Some 2.
Proof.
  destruct (serie_group_event scenarioD 42) as (e & Hfilter & Hcount & Hongoing & _).
  - discriminate.
  - vm_compute. lia.
  - exists e. split; [exact Hfilter|].
    assert (status e = ongoing) as Hstatus.
    { apply Hongoing. exists (mkTournament 2 "Playoffs" "S" 42 ongoing).
      split; [|reflexivity]. apply list_elem_of_filter. split; [reflexivity|].
      right. left. }
    vm_compute in Hfilter. injection Hfilter as <-.
    split_and!; reflexivity.
Qed.


End HomeFacts.

(** ** Strings *)

Module StringFacts.

Lemma substring_all (s : string) : String.substring 0 (String.length s) s = s.
Proof. induction s as [|a s IH]; simpl; [done|by rewrite IH]. Qed.

Lemma prefix_refl (s : string) : String.prefix s s = true.
Proof.
  induction s as [|c s IH]; [done|]. cbn [String.prefix].
  by destruct (ascii_dec c c).
Qed.

Lemma prefix_app (pat s : string) : String.prefix pat (pat +:+ s) = true.
Proof.
  induction pat as [|a pat IH]; simpl; [by destruct s|].
  destruct (ascii_dec a a); [exact IH|done].
Qed.

Lemma substring_prefix (p s : string) :
  String.substring 0 (String.length p) (p +:+ s) = p.
Proof. induction p as [|c p IH]; simpl; [by destruct s|by rewrite IH]. Qed.

Lemma substring_app (pat s : string) :
  String.substring (String.length pat) (String.length (pat +:+ s) - String.length pat)
                   (pat +:+ s) = s.
Proof.
  induction pat as [|a pat IH]; simpl.
  - rewrite Nat.sub_0_r. apply substring_all.
  - exact IH.
Qed.

(** A pattern at the very start of the string is the occurrence that
    [replace] rewrites. *)
Lemma replace_first_prefix (pat rep s : string) :
  replace_first pat rep (pat +:+ s) = rep +:+ s.
Proof.
  assert (∀ t, replace_first pat rep t
               = if String.prefix pat t
                 then rep +:+ String.substring (String.length pat)
                                (String.length t - String.length pat) t
                 else match t with
                      | EmptyString => EmptyString
                      | String c t' => String c (replace_first pat rep t')
                      end) as Hunfold by (by intros []).
  rewrite Hunfold, prefix_app, substring_app. done.
Qed.

Lemma length_append (s t : string) :
  String.length (s +:+ t) = String.length s + String.length t.
Proof. induction s as [|c s IH]; simpl; [done|by rewrite IH]. Qed.

Lemma append_nonempty (a b : string) : a ≠ "" → a +:+ b ≠ "".
Proof. by destruct a. Qed.

Lemma app_inj_length (s1 s2 t1 t2 : string) :
  String.length s1 = String.length s2 → s1 +:+ t1 = s2 +:+ t2 → s1 = s2 ∧ t1 = t2.
Proof.
  revert s2. induction s1 as [|c s1 IH]; intros [|c' s2] Hlen Heq; simpl in *; try done.
  injection Heq as -> Heq. injection Hlen as Hlen.
  destruct (IH s2 Hlen Heq) as [-> ->]. done.
Qed.

End StringFacts.

(** ** The shape of a parsed bracket *)

Module BracketShapeFacts.
Import Bracket BracketFacts BracketShape.

Lemma StronglySorted_le_lt (l : list nat) :
  StronglySorted le l → NoDup l → StronglySorted lt l.
Proof.
  induction 1 as [|a l Hs IH Ha]; intros Hnd; constructor.
  - apply IH. by apply NoDup_cons in Hnd as [_ ?].
  - apply NoDup_cons in Hnd as [Hnotin _].
    apply Forall_forall. intros b Hb.
    pose proof (proj1 (Forall_forall _ _) Ha b Hb).
    assert (a ≠ b) by (intros ->; done). lia.
Qed.

Lemma StronglySorted_lookup_lt (l : list nat) i j a b :
  StronglySorted lt l → i < j → l !! i = Some a → l !! j = Some b → a < b.
Proof.
  intros Hs. revert i j. induction Hs as [|x l Hs IH Hx]; intros i j Hij Hi Hj.
  - done.
  - destruct j as [|j]; [lia|]. destruct i as [|i]; simpl in *.
    + injection Hi as ->. apply (proj1 (Forall_forall _ _) Hx).
      by eapply list_elem_of_lookup_2.
    + apply (IH i j); [lia|done..].
Qed.

(** The depths that [buildRounds] sorts, and the round each one keys. *)
Lemma roundDepths_spec c (l : list PSBracketMatch) :
  let roundMap := groupByRounds c l in
  let depths := sort_by (λ a b, Z.of_nat a - Z.of_nat b)%Z (roundMap.*1) in
  StronglySorted lt depths
  ∧ (∀ d, d ∈ depths ↔ ∃ m, m ∈ l ∧ cachedDepth c m = d)
  ∧ (∀ d, groupGet Nat.eqb d roundMap = filter (λ m, cachedDepth c m = d) l).
Proof.
  intros roundMap depths.
  destruct (grouping_spec Nat.eqb Nat.eqb_eq (cachedDepth c) l) as (Hnd & Hne & Hget).
  fold (groupByRounds c l) in Hnd, Hne, Hget. fold roundMap in Hnd, Hne, Hget.
  assert (Hget' : ∀ d, groupGet Nat.eqb d roundMap = filter (λ m, cachedDepth c m = d) l).
  { intros d. rewrite Hget. apply list_filter_iff. intros m.
    rewrite Nat.eqb_eq. split; congruence. }
  split_and!; [| |done].
  - apply StronglySorted_le_lt.
    + apply (sort_by_StronglySorted _ le); intros; lia.
    + unfold depths. by rewrite sort_by_Permutation.
  - intros d. unfold depths. rewrite sort_by_Permutation. split.
    + intros Hd. apply list_elem_of_fmap in Hd as [[d' vs] [-> Hin]]. simpl.
      pose proof (groupGet_elem Nat.eqb Nat.eqb_eq d' vs roundMap Hnd Hin) as Hg.
      pose proof (proj1 (Forall_forall _ _) Hne _ Hin) as Hvs. simpl in Hvs.
      rewrite Hget' in Hg. destruct vs as [|m vs]; [done|].
      assert (m ∈ filter (λ m, cachedDepth c m = d') l) as Hm by (rewrite Hg; left).
      apply list_elem_of_filter in Hm as [? ?]. eauto.
    + intros (m & Hm & Hd).
      assert (groupGet Nat.eqb d roundMap ≠ []) as Hne'.
      { rewrite Hget'. intros Hnil.
        assert (m ∈ filter (λ m, cachedDepth c m = d) l) as Hin
          by (apply list_elem_of_filter; done).
        rewrite Hnil in Hin. by apply elem_of_nil in Hin. }
      apply (groupGet_found Nat.eqb Nat.eqb_eq) in Hne'.
      apply list_elem_of_fmap. by exists (d, groupGet Nat.eqb d roundMap).
Qed.

(** The round at index [i]: the matches of the [i]-th depth, in list
    order, under the label computed from its index. *)
Lemma buildRounds_lookup c l isLower i r :
  buildRounds c l isLower !! i = Some r →
  ∃ d, sort_by (λ a b, Z.of_nat a - Z.of_nat b)%Z ((groupByRounds c l).*1) !! i = Some d
       ∧ matches r = filter (λ m, cachedDepth c m = d) l
       ∧ label r = roundLabel isLower (length (buildRounds c l isLower)) i (length (matches r)).
Proof.
  unfold buildRounds. rewrite list_lookup_imap, length_imap.
  destruct (roundDepths_spec c l) as (_ & _ & Hget).
  destruct (sort_by _ _ !! i) as [d|] eqn:Hd; [|done].
  simpl. intros [= <-]. exists d. simpl. by rewrite Hget.
Qed.

Lemma buildRounds_depth_ordered c l isLower :
  depth_ordered c (buildRounds c l isLower).
Proof.
  destruct (roundDepths_spec c l) as (Hsorted & Hdepths & _).
  assert (Hin : ∀ i r a, buildRounds c l isLower !! i = Some r → a ∈ matches r →
            ∃ d, sort_by (λ a b, Z.of_nat a - Z.of_nat b)%Z ((groupByRounds c l).*1) !! i = Some d
                 ∧ cachedDepth c a = d).
  { intros i r a Hr Ha. apply buildRounds_lookup in Hr as (d & Hd & Hm & _).
    rewrite Hm in Ha. apply list_elem_of_filter in Ha as [? _]. eauto. }
  split_and!.
  - apply Forall_forall. intros r Hr.
    apply list_elem_of_lookup in Hr as [i Hr].
    apply buildRounds_lookup in Hr as (d & Hd & Hm & _).
    apply list_elem_of_lookup_2, Hdepths in Hd as (m & Hml & Hmd).
    intros Hnil. rewrite Hm in Hnil.
    assert (m ∈ filter (λ m, cachedDepth c m = d) l) as Hx by (apply list_elem_of_filter; done).
    rewrite Hnil in Hx. by apply elem_of_nil in Hx.
  - intros r a b Hr Ha Hb. apply list_elem_of_lookup in Hr as [i Hr].
    destruct (Hin i r a Hr Ha) as (d & Hd & <-).
    destruct (Hin i r b Hr Hb) as (d' & Hd' & <-). congruence.
  - intros i j ri rj a b Hij Hi Hj Ha Hb.
    destruct (Hin i ri a Hi Ha) as (d & Hd & <-).
    destruct (Hin j rj b Hj Hb) as (d' & Hd' & <-).
    by eapply StronglySorted_lookup_lt.
Qed.

Lemma stripUB_depth_ordered c rounds :
  depth_ordered c rounds → depth_ordered c (stripUB <$> rounds).
Proof.
  intros (Hne & Hsame & Hlt). split_and!.
  - apply Forall_fmap. eapply Forall_impl; [exact Hne|]. by intros [].
  - intros r a b Hr. apply list_elem_of_fmap in Hr as (r' & -> & Hr'). simpl.
    by apply Hsame.
  - intros i j ri rj a b Hij Hi Hj.
    rewrite list_lookup_fmap in Hi, Hj.
    destruct (rounds !! i) as [ri'|] eqn:Hi'; [|done].
    destruct (rounds !! j) as [rj'|] eqn:Hj'; [|done].
    simpl in Hi, Hj. injection Hi as <-. injection Hj as <-. simpl.
    by apply (Hlt i j).
Qed.

(** What a returned bracket is made of. *)
Lemma parseBracket_inv fuel ms c pb :
  depthCacheOf fuel ms = Some c →
  parseBracket fuel ms = Some (Some pb) →
  let lb := buildIsLBMatch c ms in
  let gf := findGrandFinal c lb ms in
  let upper := buildRounds c (ubMatchesOf lb gf ms) false in
  let lower := buildRounds c (lbMatchesOf lb gf ms) true in
  ms ≠ []
  ∧ upperBracket pb = match lower with [] => stripUB <$> upper | _ :: _ => upper end
  ∧ lowerBracket pb = lower
  ∧ grandFinal pb = gf.
Proof.
  intros Hc Hp. unfold parseBracket in Hp. destruct ms as [|m ms]; [done|].
  rewrite Hc in Hp. injection Hp as <-. done.
Qed.

Lemma round_sublist c l isLower r ms :
  l `sublist_of` ms → r ∈ buildRounds c l isLower → matches r `sublist_of` ms.
Proof.
  intros Hl Hr. apply list_elem_of_lookup in Hr as [i Hr].
  apply buildRounds_lookup in Hr as (d & _ & -> & _).
  etrans; [apply sublist_filter|done].
Qed.

(** X1.  In both halves of a returned bracket the rounds go by depth: no
    round is empty, the matches of a round have one and the same depth,
    every later round is strictly deeper than every earlier one, and
    inside a round the matches keep the order of the input list. *)
Theorem rounds_in_depth_order fuel ms c pb :
  depthCacheOf fuel ms = Some c →
  parseBracket fuel ms = Some (Some pb) →
  depth_ordered c (upperBracket pb) ∧ depth_ordered c (lowerBracket pb)
  ∧ ∀ r, r ∈ upperBracket pb ++ lowerBracket pb → matches r `sublist_of` ms.
Proof.
  intros Hc Hp. destruct (parseBracket_inv _ _ _ _ Hc Hp) as (_ & Hu & Hl & _).
  rewrite Hu, Hl. split_and!.
  - destruct (buildRounds c (lbMatchesOf _ _ ms) true);
      [apply stripUB_depth_ordered|]; apply buildRounds_depth_ordered.
  - apply buildRounds_depth_ordered.
  - intros r Hr. apply elem_of_app in Hr as [Hr|Hr].
    + assert (∃ r', r' ∈ buildRounds c (ubMatchesOf (buildIsLBMatch c ms)
                 (findGrandFinal c (buildIsLBMatch c ms) ms) ms) false
                 ∧ matches r = matches r') as (r' & Hr' & ->).
      { destruct (buildRounds c (lbMatchesOf _ _ ms) true); [|by eauto].
        apply list_elem_of_fmap in Hr as (r' & -> & Hr'). by exists r'. }
      eapply round_sublist; [|done]. apply sublist_filter.
    + eapply round_sublist; [|done]. apply sublist_filter.
Qed.

Lemma rounds_in_depth_order_witness :
  ∃ c pb, depthCacheOf 7 doubleElim4 = Some c
    ∧ parseBracket 7 doubleElim4 = Some (Some pb)
    ∧ depth_ordered c (upperBracket pb) ∧ depth_ordered c (lowerBracket pb)
    ∧ ∀ r, r ∈ upperBracket pb ++ lowerBracket pb → matches r `sublist_of` doubleElim4.
Proof.
  eexists _, _. split; [vm_compute; reflexivity|]. split; [vm_compute; reflexivity|].
  apply (rounds_in_depth_order 7 doubleElim4); vm_compute; reflexivity.
Defined.

Lemma parseBracket_cache fuel ms pb :
  parseBracket fuel ms = Some (Some pb) → ∃ c, depthCacheOf fuel ms = Some c.
Proof.
  unfold parseBracket. destruct ms as [|m ms]; [done|].
  destruct (depthCacheOf fuel (m :: ms)) as [c|]; [eauto|done].
Qed.

Lemma roundLabel_lower n i k :
  roundLabel true n i k
  = if decide (i + 1 = n) then "LB Final" else "LB Round " +:+ show_nat (i + 1).
Proof.
  unfold roundLabel. case_decide.
  - rewrite (proj2 (Z.eqb_eq _ _)); [done|lia].
  - rewrite (proj2 (Z.eqb_neq _ _)); [done|lia].
Qed.

Lemma roundLabel_upper n i k :
  roundLabel false n i k
  = (if decide (n ≤ 1) then "" else "UB ") +:+ upperName n i k.
Proof.
  unfold roundLabel, upperName.
  destruct (Z.leb_spec (Z.of_nat n) 1).
  { rewrite !decide_True by lia. done. }
  rewrite (decide_False (P := n ≤ 1)) by lia.
  destruct (Z.eqb_spec (Z.of_nat i) (Z.of_nat n - 1)).
  { rewrite decide_True by lia. done. }
  rewrite (decide_False (P := n ≤ 1 ∨ i + 1 = n)) by lia.
  destruct (Z.eqb_spec (Z.of_nat i) (Z.of_nat n - 2)).
  { rewrite decide_True by lia. done. }
  rewrite (decide_False (P := i + 2 = n)) by lia.
  destruct (Z.eqb_spec (Z.of_nat i) (Z.of_nat n - 3)); simpl.
  - destruct (Nat.eqb_spec k 4).
    + rewrite decide_True by lia. done.
    + rewrite decide_False by lia. done.
  - rewrite decide_False by lia. done.
Qed.

(** [replace('UB ', '')] takes the prefix off every upper label. *)
Lemma stripUB_upper n i k :
  replace_first "UB " "" (roundLabel false n i k) = upperName n i k.
Proof.
  rewrite roundLabel_upper. case_decide.
  - unfold upperName. rewrite decide_True by lia. done.
  - apply StringFacts.replace_first_prefix.
Qed.

(** X2.  The labels of a returned bracket.  A lower round is "LB Final"
    when it is the last one and "LB Round i" (counted from 1) otherwise.
    An upper round is named "Final" when it is the last or the only one,
    "Semifinal" when it is the last but one, "Quarterfinal" when it is
    the last but two and holds exactly four matches, and "Round i"
    otherwise; the name carries the prefix "UB " exactly when there is a
    lower bracket and more than one upper round. *)
Theorem round_labels fuel ms pb :
  parseBracket fuel ms = Some (Some pb) →
  (∀ i r, lowerBracket pb !! i = Some r →
     label r = if decide (i + 1 = length (lowerBracket pb)) then "LB Final"
               else "LB Round " +:+ show_nat (i + 1))
  ∧ (∀ i r, upperBracket pb !! i = Some r →
     label r = (if decide (lowerBracket pb = [] ∨ length (upperBracket pb) ≤ 1) then ""
                else "UB ")
               +:+ upperName (length (upperBracket pb)) i (length (matches r))).
Proof.
  intros Hp. destruct (parseBracket_cache _ _ _ Hp) as [c Hc].
  destruct (parseBracket_inv _ _ _ _ Hc Hp) as (_ & Hu & Hl & _).
  rewrite Hu, Hl. split.
  - intros i r Hr. apply buildRounds_lookup in Hr as (_ & _ & _ & ->).
    apply roundLabel_lower.
  - intros i r Hr.
    destruct (buildRounds c (lbMatchesOf _ _ ms) true) as [|r0 lower] eqn:Hlower.
    + rewrite decide_True by (by left). rewrite length_fmap.
      rewrite list_lookup_fmap in Hr.
      destruct (buildRounds c (ubMatchesOf _ _ ms) false !! i) as [r'|] eqn:Hr'; [|done].
      injection Hr as <-. simpl.
      apply buildRounds_lookup in Hr' as (_ & _ & _ & ->).
      apply stripUB_upper.
    + apply buildRounds_lookup in Hr as (_ & _ & _ & ->).
      rewrite roundLabel_upper.
      destruct (decide (length (buildRounds c (ubMatchesOf _ _ ms) false) ≤ 1)).
      * rewrite decide_True by (by right). done.
      * rewrite decide_False; [done|]. intros [?|?]; [done|lia].
Qed.

Lemma round_labels_witness :
  ∃ pb, parseBracket 7 doubleElim4 = Some (Some pb)
    ∧ (∀ i r, lowerBracket pb !! i = Some r →
         label r = if decide (i + 1 = length (lowerBracket pb)) then "LB Final"
                   else "LB Round " +:+ show_nat (i + 1))
    ∧ (∀ i r, upperBracket pb !! i = Some r →
         label r = (if decide (lowerBracket pb = [] ∨ length (upperBracket pb) ≤ 1) then ""
                    else "UB ")
                   +:+ upperName (length (upperBracket pb)) i (length (matches r))).
Proof.
  eexists. split; [vm_compute; reflexivity|].
  apply (round_labels 7 doubleElim4). vm_compute. reflexivity.
Defined.

(** *** Which matches are lower-bracket *)

Lemma isLB_reached fuel ms c x :
  distinct_ids ms → depthCacheOf fuel ms = Some c →
  x ∈ buildIsLBMatch c ms → feedsLower ms x.
Proof.
  intros Hids Hc Hx. destruct (isLB_is_match _ _ _ Hx) as (m & Hm & <-).
  remember (cachedDepth c m) as d eqn:Hd.
  revert m Hm Hx Hd. induction (lt_wf d) as [d _ IH]. intros m Hm Hx ->.
  destruct (isLB_justified _ _ _ Hx) as [Hl|(m' & p & Hm' & Hp & Hw & Hprev)].
  - apply hasLoser_spec in Hl as (m' & p & Hm' & Hid & Hp & Hloser).
    rewrite <- Hid. by eapply feeds_loser.
  - rewrite (buildMatchMap_distinct _ _ Hids Hm) in Hm'. injection Hm' as <-.
    destruct (isLB_is_match _ _ _ Hprev) as (a & Ha & Haid).
    eapply feeds_winner; [done..|]. rewrite <- Haid.
    eapply (IH (cachedDepth c a)); [|done| |done].
    + by eapply cachedDepth_pred.
    + by rewrite Haid.
Qed.

Lemma reached_isLB fuel ms c x :
  distinct_ids ms → depthCacheOf fuel ms = Some c →
  feedsLower ms x → x ∈ buildIsLBMatch c ms.
Proof.
  intros Hids Hc. induction 1 as [m p Hm Hp Hl|m p Hm Hp Hw _ IH].
  - by eapply isLB_loser.
  - by eapply isLB_winner.
Qed.

(** X3.  The lower bracket is exactly what loser-type references feed:
    a match is classified lower-bracket if and only if it has a
    loser-type reference or is reached from such a match along
    winner-type references.  No other match is ever put there. *)
Theorem lower_bracket_exactly fuel ms c x :
  distinct_ids ms → depthCacheOf fuel ms = Some c →
  x ∈ buildIsLBMatch c ms ↔ feedsLower ms x.
Proof.
  intros Hids Hc. split.
  - by eapply isLB_reached.
  - by eapply reached_isLB.
Qed.

Lemma lower_bracket_exactly_witness :
  ∃ c, depthCacheOf 7 doubleElim4 = Some c
    ∧ (5%Z ∈ buildIsLBMatch c doubleElim4 ↔ feedsLower doubleElim4 5%Z).
Proof.
  eexists. split; [vm_compute; reflexivity|].
  apply (lower_bracket_exactly 7 doubleElim4).
  - apply (bool_decide_unpack _). vm_compute. exact I.
  - vm_compute. reflexivity.
Defined.

Lemma feedsLower_Permutation ms ms' x :
  ms ≡ₚ ms' → feedsLower ms x → feedsLower ms' x.
Proof.
  intros Hperm. induction 1 as [m p Hm Hp Hl|m p Hm Hp Hw _ IH].
  - eapply feeds_loser; [by rewrite <- Hperm|done..].
  - eapply feeds_winner; [by rewrite <- Hperm|done..].
Qed.

Lemma buildMatchMap_Permutation ms ms' :
  distinct_ids ms → ms ≡ₚ ms' → buildMatchMap ms = buildMatchMap ms'.
Proof.
  intros Hids Hperm.
  assert (distinct_ids ms') as Hids' by (unfold distinct_ids; by rewrite <- Hperm).
  apply map_eq. intros x.
  destruct (decide (x ∈ id <$> ms)) as [Hx|Hx].
  - apply list_elem_of_fmap in Hx as (m & -> & Hm).
    rewrite (buildMatchMap_distinct _ _ Hids Hm).
    symmetry. apply buildMatchMap_distinct; [done|by rewrite <- Hperm].
  - rewrite !buildMatchMap_absent; [done|..].
    + intros m Hm <-. apply Hx, list_elem_of_fmap. exists m. by rewrite Hperm.
    + intros m Hm <-. apply Hx, list_elem_of_fmap. by exists m.
Qed.

(** X4.  Depths and the lower-bracket classification do not depend on the
    order in which the list gives the matches. *)
Theorem classification_ignores_order fuel fuel' ms ms' c c' :
  distinct_ids ms → ms ≡ₚ ms' →
  depthCacheOf fuel ms = Some c → depthCacheOf fuel' ms' = Some c' →
  (∀ m, m ∈ ms → cachedDepth c m = cachedDepth c' m)
  ∧ buildIsLBMatch c ms = buildIsLBMatch c' ms'.
Proof.
  intros Hids Hperm Hc Hc'.
  assert (distinct_ids ms') as Hids' by (unfold distinct_ids; by rewrite <- Hperm).
  split.
  - intros m Hm.
    pose proof (cachedDepth_hasDepth _ _ _ Hc m Hm) as H1.
    assert (m ∈ ms') as Hm' by (by rewrite <- Hperm).
    pose proof (cachedDepth_hasDepth _ _ _ Hc' m Hm') as H2.
    rewrite <- (buildMatchMap_Permutation _ _ Hids Hperm) in H2.
    by eapply hasDepth_fun.
  - apply set_eq. intros x.
    split; intros Hx.
    + eapply reached_isLB; [done..|].
      eapply feedsLower_Permutation; [done|]. by eapply isLB_reached.
    + eapply reached_isLB; [done..|].
      eapply feedsLower_Permutation; [by symmetry|]. by eapply isLB_reached.
Qed.

Lemma classification_ignores_order_witness :
  ∃ c c', depthCacheOf 7 doubleElim4 = Some c
    ∧ depthCacheOf 7 (reverse doubleElim4) = Some c'
    ∧ (∀ m, m ∈ doubleElim4 → cachedDepth c m = cachedDepth c' m)
    ∧ buildIsLBMatch c doubleElim4 = buildIsLBMatch c' (reverse doubleElim4).
Proof.
  eexists _, _. split; [vm_compute; reflexivity|]. split; [vm_compute; reflexivity|].
  apply (classification_ignores_order 7 7 doubleElim4 (reverse doubleElim4)).
  - apply (bool_decide_unpack _). vm_compute. exact I.
  - symmetry. apply reverse_Permutation.
  - vm_compute. reflexivity.
  - vm_compute. reflexivity.
Defined.

(** *** The grand final *)

Lemma findGrandFinal_deepest fuel ms c lb g :
  ms ≠ [] → depthCacheOf fuel ms = Some c →
  findGrandFinal c lb ms = Some g → g ∈ ms ∧ deepest c ms g.
Proof.
  intros Hne Hc Hg.
  pose proof (findGrandFinal_elem _ _ _ _ Hg) as Hin. split; [done|].
  apply (deepest_iff _ _ _ Hne Hc g Hin).
  unfold findGrandFinal in Hg.
  destruct (find _ ms) as [m|] eqn:Hfind.
  - injection Hg as ->. apply find_some in Hfind as [_ Hconv].
    unfold convergence in Hconv.
    repeat (apply andb_true_iff in Hconv as [Hconv ?]).
    by apply Nat.eqb_eq in Hconv.
  - destruct (filter _ ms) as [|g' [|??]] eqn:Hfilter; [done| |done].
    injection Hg as ->.
    assert (g ∈ filter (λ m, cachedDepth c m = maxDepthOf c) ms) as Hx
      by (rewrite Hfilter; left).
    by apply list_elem_of_filter in Hx as [? _].
Qed.

Lemma round_not_final c (g : PSBracketMatch) (ms : list PSBracketMatch) isLower r m
    (P : PSBracketMatch → Prop) `{!∀ x, Decision (P x)} :
  r ∈ buildRounds c (filter (λ m, isGrandFinal (Some g) m = false ∧ P m) ms) isLower →
  m ∈ matches r → id m ≠ id g.
Proof.
  intros Hr Hm. apply list_elem_of_lookup in Hr as [i Hr].
  apply buildRounds_lookup in Hr as (d & _ & Hms & _).
  rewrite Hms in Hm. apply list_elem_of_filter in Hm as [_ Hm].
  apply list_elem_of_filter in Hm as [[Hgf _] _].
  simpl in Hgf. by apply bool_decide_eq_false in Hgf.
Qed.

(** X5.  The grand final, when a returned bracket has one, is a match of
    the input list that no match of the list is deeper than, and no round
    of either half shows a match with its id. *)
Theorem grand_final_is_deepest fuel ms c pb g :
  depthCacheOf fuel ms = Some c →
  parseBracket fuel ms = Some (Some pb) →
  grandFinal pb = Some g →
  g ∈ ms ∧ deepest c ms g
  ∧ ∀ r m, r ∈ upperBracket pb ++ lowerBracket pb → m ∈ matches r → id m ≠ id g.
Proof.
  intros Hc Hp Hg. destruct (parseBracket_inv _ _ _ _ Hc Hp) as (Hne & Hu & Hl & Hgf).
  rewrite Hg in Hgf. symmetry in Hgf.
  destruct (findGrandFinal_deepest _ _ _ _ _ Hne Hc Hgf) as [Hin Hdeep].
  split_and!; [done..|].
  intros r m Hr Hm. rewrite Hu, Hl, Hgf in Hr. clear Hu Hl.
  apply elem_of_app in Hr as [Hr|Hr].
  - assert (∃ r', r' ∈ buildRounds c (ubMatchesOf (buildIsLBMatch c ms) (Some g) ms) false
                 ∧ matches r = matches r') as (r' & Hr' & Heq).
    { destruct (buildRounds c (lbMatchesOf _ _ ms) true); [|by exists r].
      apply list_elem_of_fmap in Hr as (r' & -> & Hr'). by exists r'. }
    rewrite Heq in Hm.
    exact (round_not_final c g ms false r' m (λ m, id m ∉ buildIsLBMatch c ms) Hr' Hm).
  - exact (round_not_final c g ms true r m (λ m, id m ∈ buildIsLBMatch c ms) Hr Hm).
Qed.

Lemma grand_final_is_deepest_witness :
  ∃ c pb g, depthCacheOf 7 doubleElim4 = Some c
    ∧ parseBracket 7 doubleElim4 = Some (Some pb)
    ∧ grandFinal pb = Some g
    ∧ g ∈ doubleElim4 ∧ deepest c doubleElim4 g
    ∧ ∀ r m, r ∈ upperBracket pb ++ lowerBracket pb → m ∈ matches r → id m ≠ id g.
Proof.
  eexists _, _, _. split; [vm_compute; reflexivity|]. split; [vm_compute; reflexivity|].
  split; [vm_compute; reflexivity|].
  apply (grand_final_is_deepest 7 doubleElim4); vm_compute; reflexivity.
Defined.

Lemma buildRounds_nil c isLower : buildRounds c [] isLower = [].
Proof. done. Qed.

(** X6.  A list of one match: the match is the grand final, and both
    halves of the bracket are empty. *)
Theorem lone_match_is_grand_final rank fuel m :
  acyclic rank [m] → enough fuel rank [m] →
  parseBracket fuel [m]
  = Some (Some {| upperBracket := []; lowerBracket := []; grandFinal := Some m |}).
Proof.
  intros Hacyc Hfuel.
  destruct (parseBracket_returns rank fuel [m] ltac:(done) Hacyc Hfuel) as (c & Hc & Hp).
  cbv zeta in Hp. rewrite Hp. clear Hp.
  assert (findGrandFinal c (buildIsLBMatch c [m]) [m] = Some m) as Hg.
  { apply (findGrandFinal_sole fuel [m] c ltac:(done) Hc _ [] m []).
    - intros m' Hm' [_ (_ & _ & p & Hp & Hlb)].
      apply list_elem_of_singleton in Hm' as ->.
      destruct (isLB_is_match _ _ _ Hlb) as (a & Ha & Haid).
      apply list_elem_of_singleton in Ha as ->.
      unfold acyclic in Hacyc.
      pose proof (proj1 (Forall_forall _ _) Hacyc m ltac:(left)) as Hprev.
      pose proof (proj1 (Forall_forall _ _) Hprev p Hp) as Hrank. simpl in Hrank.
      rewrite Haid in Hrank. lia.
    - done.
    - intros m' Hm'. by apply list_elem_of_singleton in Hm' as ->.
    - intros m' Hm'. by apply elem_of_nil in Hm'. }
  rewrite Hg.
  assert (∀ lb, ubMatchesOf lb (Some m) [m] = []) as ->.
  { intros lb. unfold ubMatchesOf. rewrite filter_cons, decide_False; [done|].
    intros [Hgf _]. simpl in Hgf. by apply bool_decide_eq_false in Hgf. }
  assert (∀ lb, lbMatchesOf lb (Some m) [m] = []) as ->.
  { intros lb. unfold lbMatchesOf. rewrite filter_cons, decide_False; [done|].
    intros [Hgf _]. simpl in Hgf. by apply bool_decide_eq_false in Hgf. }
  done.
Qed.

Lemma lone_match_is_grand_final_witness :
  parseBracket 2 [mkMatch 7 [(winner, 3%Z)]]
  = Some (Some {| upperBracket := []; lowerBracket := [];
                  grandFinal := Some (mkMatch 7 [(winner, 3%Z)]) |}).
Proof.
  apply (lone_match_is_grand_final (λ z, if bool_decide (z = 7%Z) then 1 else 0)).
  - apply (bool_decide_unpack _). vm_compute. exact I.
  - apply (bool_decide_unpack _). vm_compute. exact I.
Defined.

End BracketShapeFacts.

(** ** The pages that render a bracket *)

Module ViewsFacts.
Import Bracket BracketFacts BracketShape Views.

Lemma parts_Permutation fuel ms pb :
  distinct_ids ms → parseBracket fuel ms = Some (Some pb) →
  ms ≡ₚ flat_map matches (upperBracket pb) ++ flat_map matches (lowerBracket pb)
        ++ option_list (grandFinal pb).
Proof.
  intros Hids Hp. destruct (BracketShapeFacts.parseBracket_cache _ _ _ Hp) as [c Hc].
  destruct (BracketShapeFacts.parseBracket_inv _ _ _ _ Hc Hp) as (_ & -> & -> & ->).
  set (lb := buildIsLBMatch c ms). set (gf := findGrandFinal c lb ms).
  assert (filter (λ m, isGrandFinal gf m = true) ms = option_list gf) as Hgf.
  { destruct gf as [g|] eqn:Eg; simpl.
    - apply grandFinal_filter; [done|]. by eapply findGrandFinal_elem.
    - by apply filter_none. }
  rewrite (partition_Permutation lb gf ms) at 1. rewrite Hgf.
  apply Permutation_app; [|apply Permutation_app; [|done]].
  - destruct (buildRounds c (lbMatchesOf lb gf ms) true);
      [rewrite stripUB_matches|]; by rewrite buildRounds_matches.
  - by rewrite buildRounds_matches.
Qed.

Lemma flat_map_nil_length {A B} (f : A → list B) (l : list A) :
  (0 <? length l) = false → flat_map f l = [].
Proof. by destruct l. Qed.

(** A returned bracket always passes the [hasBracket] test. *)
Lemma hasBracket_returned fuel ms pb :
  distinct_ids ms → parseBracket fuel ms = Some (Some pb) → hasBracket (Some pb) = true.
Proof.
  intros Hids Hp. pose proof (parts_Permutation _ _ _ Hids Hp) as Hperm.
  assert (ms ≠ []) as Hne by (intros ->; done).
  unfold hasBracket.
  destruct (upperBracket pb) as [|??] eqn:Hu; [|done].
  destruct (lowerBracket pb) as [|??] eqn:Hl; [|done].
  destruct (grandFinal pb) as [g|]; [done|].
  simpl in Hperm. by apply Permutation_nil_r in Hperm.
Qed.

(** X7.  A stage of [SerieTabs] whose bracket was parsed from a list of
    matches with distinct ids renders the bracket view, not the list
    view, and the view holds one card for every match of the list and no
    other card. *)
Theorem serie_tabs_show_every_match fuel ms bracket :
  ms ≠ [] → distinct_ids ms → parseBracket fuel ms = Some bracket →
  ∃ blocks, serieTabs bracket = Some blocks ∧ cards blocks ≡ₚ ms.
Proof.
  intros Hne Hids Hp.
  destruct bracket as [pb|].
  2: { unfold parseBracket in Hp. destruct ms as [|m ms]; [done|].
       by destruct (depthCacheOf fuel (m :: ms)). }
  pose proof (parts_Permutation _ _ _ Hids Hp) as Hperm.
  unfold serieTabs. rewrite (hasBracket_returned _ _ _ Hids Hp).
  eexists. split; [done|]. rewrite Hperm. unfold cards.
  rewrite !flat_map_app.
  apply Permutation_app; [|apply Permutation_app].
  - destruct (0 <? length (upperBracket pb)) eqn:Hu; simpl.
    + by rewrite app_nil_r.
    + by rewrite flat_map_nil_length.
  - destruct (0 <? length (lowerBracket pb)) eqn:Hl; simpl.
    + by rewrite app_nil_r.
    + by rewrite flat_map_nil_length.
  - by destruct (grandFinal pb).
Qed.

Lemma serie_tabs_show_every_match_witness :
  ∃ blocks, serieTabs (mjoin (parseBracket 7 doubleElim4)) = Some blocks
    ∧ cards blocks ≡ₚ doubleElim4.
Proof.
  apply (serie_tabs_show_every_match 7 doubleElim4).
  - discriminate.
  - apply (bool_decide_unpack _). vm_compute. exact I.
  - vm_compute. reflexivity.
Defined.

(** X8.  The tournament page hangs the grand final on the upper section.
    For a bracket parsed from a list with distinct ids it renders the
    bracket view; when the upper bracket has a round the view holds one
    card for every match of the list, and when the upper bracket is empty
    the grand final has no card at all. *)
Theorem tournament_page_cards fuel ms pb :
  distinct_ids ms → parseBracket fuel ms = Some (Some pb) →
  ∃ blocks, tournamentPage (Some pb) = Some blocks
    ∧ (upperBracket pb ≠ [] → cards blocks ≡ₚ ms)
    ∧ (upperBracket pb = [] → cards blocks = flat_map matches (lowerBracket pb)
         ∧ ∀ g, grandFinal pb = Some g → g ∉ cards blocks).
Proof.
  intros Hids Hp.
  pose proof (parts_Permutation _ _ _ Hids Hp) as Hperm.
  unfold tournamentPage. rewrite (hasBracket_returned _ _ _ Hids Hp).
  eexists. split; [done|]. unfold cards. rewrite !flat_map_app.
  assert (flat_map cardsOf (when (0 <? length (lowerBracket pb))
                              (BracketSection "Lower Bracket" (lowerBracket pb)))
          = flat_map matches (lowerBracket pb)) as ->.
  { destruct (0 <? length (lowerBracket pb)) eqn:Hl; simpl.
    - by rewrite app_nil_r.
    - by rewrite flat_map_nil_length. }
  split.
  - intros Hu. destruct (upperBracket pb) as [|r rs] eqn:Hub; [done|].
    cbn [length Nat.ltb Nat.leb when flat_map cardsOf]. rewrite app_nil_r.
    rewrite Hperm. destruct (grandFinal pb) as [g|]; simpl.
    + rewrite flat_map_app. simpl. rewrite <- !app_assoc.
      apply Permutation_app_head, Permutation_app_head.
      apply Permutation_app_comm.
    + by rewrite app_nil_r.
  - intros Hu. rewrite Hu. simpl. split; [done|].
    intros g Hg Hin.
    assert (NoDup (id <$> ms)) as Hnd by done.
    rewrite Hperm, Hu, Hg in Hnd. simpl in Hnd.
    rewrite fmap_app in Hnd. apply NoDup_app in Hnd as (_ & Hdisj & _).
    apply (Hdisj (id g)).
    + by apply list_elem_of_fmap_2.
    + simpl. left.
Qed.

Lemma tournament_page_cards_witness :
  ∃ blocks,
    tournamentPage (Some {| upperBracket := []; lowerBracket := [];
                            grandFinal := Some (mkMatch 7 []) |}) = Some blocks
    ∧ (@nil BracketRound ≠ [] → cards blocks ≡ₚ [mkMatch 7 []])
    ∧ (@nil BracketRound = [] → cards blocks = []
         ∧ ∀ g, Some (mkMatch 7 []) = Some g → g ∉ cards blocks).
Proof.
  apply (tournament_page_cards 1 [mkMatch 7 []]
           {| upperBracket := []; lowerBracket := []; grandFinal := Some (mkMatch 7 []) |}).
  - apply (bool_decide_unpack _). vm_compute. exact I.
  - vm_compute. reflexivity.
Defined.

End ViewsFacts.

(** ** The stats table *)

Module ColumnsFacts.
Import Stats Columns.
Local Open Scope Qc_scope.

Lemma Qcle_minus_0 (a b : Qc) : 0 ≤ a - b ↔ b ≤ a.
Proof.
  rewrite (Qcplus_le_mono_r 0 (a - b) b).
  assert (a - b + b = a) as -> by ring.
  by rewrite Qcplus_0_l.
Qed.

Lemma Qcle_div_1 (a b : Qc) : 0 < b → 1 ≤ a / b ↔ b ≤ a.
Proof.
  intros Hb. rewrite (Qcmult_le_mono_pos_r 1 (a / b) b Hb).
  assert (a / b * b = a) as ->.
  { field. intros ->. by apply Qclt_not_le in Hb. }
  by rewrite Qcmult_1_l.
Qed.

(** X9.  The "+/-" cell and the "K/D" cell of a row are coloured alike
    whenever the player has a death: both green when the kills reach the
    deaths, both red otherwise.  For a player without a death they differ
    exactly when the kill count lies in [0, 1): "+/-" is green and "K/D"
    is red. *)
Theorem kd_cells_agree (p : NormalizedPlayerStat) :
  kd_invariant p →
  (0 < deaths p → cellColor col_kdDiff p = cellColor col_kdRatio p)
  ∧ (deaths p = 0 →
       (cellColor col_kdDiff p = cellColor col_kdRatio p ↔ ¬ (0 ≤ kills p ∧ kills p < 1))).
Proof.
  intros (Hdiff & Hratio & Hzero). unfold cellColor, colorFn. simpl. split.
  - intros Hd. rewrite Hdiff, (Hratio Hd).
    destruct (decide (deaths p ≤ kills p)) as [Hle|Hgt].
    + rewrite !bool_decide_eq_true_2; [done|by apply Qcle_div_1|by apply Qcle_minus_0].
    + rewrite !bool_decide_eq_false_2; [done|by rewrite Qcle_div_1|by rewrite Qcle_minus_0].
  - intros Hd. rewrite Hdiff, (Hzero Hd), Hd.
    assert (kills p - 0 = kills p) as -> by ring.
    destruct (decide (0 ≤ kills p)) as [H0|H0];
      destruct (decide (1 ≤ kills p)) as [H1|H1].
    + rewrite !bool_decide_eq_true_2 by done. split; [|done].
      intros _ [_ Hlt]. by apply Qclt_not_le in Hlt.
    + rewrite bool_decide_eq_true_2, bool_decide_eq_false_2 by done.
      split; [done|]. intros Hn. exfalso. apply Hn. split; [done|].
      by apply Qcnot_le_lt.
    + exfalso. apply H0. etrans; [|exact H1]. done.
    + rewrite !bool_decide_eq_false_2 by done. split; [|done].
      intros _ [? _]. done.
Qed.

Lemma kd_cells_agree_witness :
  let p := Faceit.normalizePlayer Faceit.parseDigits Faceit.noMvps in
  (0 < deaths p → cellColor col_kdDiff p = cellColor col_kdRatio p)
  ∧ (deaths p = 0 →
       (cellColor col_kdDiff p = cellColor col_kdRatio p ↔ ¬ (0 ≤ kills p ∧ kills p < 1))).
Proof.
  apply (kd_cells_agree (Faceit.normalizePlayer Faceit.parseDigits Faceit.noMvps)).
  split_and!; [reflexivity|intros _; reflexivity|intros H; discriminate H].
Defined.

(** *** Sorting the rows *)

Section Stable.
Context {A : Type} (cmp : A → A → Z).

(** The insertion sort keeps the order of the elements that compare
    equal: a class [P] of such elements is met in the order of the
    input. *)
Lemma insert_sorted_filter (P : A → Prop) `{!∀ x, Decision (P x)} x l :
  (∀ a b, P a → P b → (cmp a b <=? 0)%Z = true) →
  filter P (insert_sorted cmp x l) = filter P (x :: l).
Proof.
  intros Heq. induction l as [|y l IH]; [done|]. simpl.
  destruct (cmp x y <=? 0)%Z eqn:Hxy; [done|].
  rewrite (filter_cons _ y), IH, !filter_cons.
  destruct (decide (P x)) as [Hx|Hx]; [|done].
  destruct (decide (P y)) as [Hy|Hy]; [|done].
  by rewrite (Heq x y Hx Hy) in Hxy.
Qed.

Lemma sort_by_stable (P : A → Prop) `{!∀ x, Decision (P x)} l :
  (∀ a b, P a → P b → (cmp a b <=? 0)%Z = true) →
  filter P (sort_by cmp l) = filter P l.
Proof.
  intros Heq. induction l as [|x l IH]; [done|].
  cbn [sort_by foldr]. fold (sort_by cmp l).
  rewrite insert_sorted_filter by done. by rewrite !filter_cons, IH.
Qed.
End Stable.

Lemma signOf_le (a b : Qc) : (signOf (b - a) <=? 0)%Z = true ↔ b ≤ a.
Proof.
  assert (b ≤ a ↔ b - a ≤ 0) as ->.
  { rewrite (Qcplus_le_mono_r b a (- a)).
    assert (a + - a = 0) as -> by ring. done. }
  rewrite Qcle_alt. unfold signOf.
  destruct (Qccompare (b - a) 0); simpl; split; done.
Qed.

(** X10.  [sortPlayers] returns the rows it is given, each once, in
    descending order of the chosen column, an undefined value counting as
    0; rows that tie in that column keep the order they had. *)
Theorem sortPlayers_sorted (players : list NormalizedPlayerStat) (col : StatColumnKey) :
  sortPlayers players col ≡ₚ players
  ∧ StronglySorted (λ a b, sortValue col b ≤ sortValue col a) (sortPlayers players col)
  ∧ ∀ v, filter (λ p, sortValue col p = v) (sortPlayers players col)
         = filter (λ p, sortValue col p = v) players.
Proof.
  split_and!.
  - apply sort_by_Permutation.
  - assert (Transitive (λ a b : NormalizedPlayerStat, sortValue col b ≤ sortValue col a))
      by (intros a b c Hab Hbc; by etrans).
    apply (sort_by_StronglySorted _ (λ a b, sortValue col b ≤ sortValue col a)).
    + intros a b Hs. by apply signOf_le.
    + intros a b Hs. apply Qclt_le_weak, Qcnot_le_lt. intros Hle.
      apply signOf_le in Hle. congruence.
  - intros v. apply (sort_by_stable _ (λ p, sortValue col p = v)).
    intros a b -> ->. apply signOf_le. done.
Qed.

Lemma existsb_Exists {A} (P : A → Prop) `{!∀ x, Decision (P x)} (l : list A) :
  existsb (λ x, bool_decide (P x)) l = bool_decide (Exists P l).
Proof.
  induction l as [|x l IH]; simpl.
  - done.
  - rewrite IH. apply eq_true_iff_eq.
    rewrite orb_true_iff, !bool_decide_eq_true, Exists_cons. done.
Qed.

Lemma getSortColumn_columnsFor (hasAdr hasKast hasRating : bool) :
  getSortColumn (Panda.columnsFor hasAdr hasKast hasRating)
  = if hasRating then col_rating else col_kills.
Proof. by destruct hasAdr, hasKast, hasRating. Qed.

(** X11.  The column the table is sorted by.  FACEIT and Grid statistics
    are always sorted by kills; PandaScore statistics are sorted by
    rating exactly when some row of the payload has a rating, and by
    kills otherwise. *)
Theorem sort_column_by_source :
  (∀ parseFloat stats n1 n2 s,
     Faceit.normalizeFaceitStats parseFloat stats n1 n2 = Some s →
     getSortColumn (availableColumns s) = col_kills)
  ∧ (∀ seriesState i1 i2 s,
       Grid.normalizeGridStats seriesState i1 i2 = Some (Some s) →
       getSortColumn (availableColumns s) = col_kills)
  ∧ (∀ playerStats games n1 n2 t1 t2 i1 i2 names s,
       Panda.normalizePandaScoreStats playerStats games n1 n2 t1 t2 i1 i2 names = Some s →
       getSortColumn (availableColumns s)
       = if bool_decide (Exists (λ ps, is_Some (Panda.rating (Panda.stats ps))) playerStats)
         then col_rating else col_kills).
Proof.
  split_and!.
  - intros parseFloat stats n1 n2 s. unfold Faceit.normalizeFaceitStats.
    destruct (Faceit.rounds stats); [done|]. by intros [= <-].
  - intros seriesState i1 i2 s. unfold Grid.normalizeGridStats.
    destruct (Grid.games seriesState) as [gs|]; [|done].
    destruct (sort_by _ _) as [|firstGame games]; [done|].
    destruct (Grid.teams firstGame) as [|ta [|tb tl]]; [done..|].
    intros Hs. apply bind_Some in Hs as (ms & _ & [= <-]). done.
  - intros playerStats games n1 n2 t1 t2 i1 i2 names s.
    unfold Panda.normalizePandaScoreStats.
    destruct playerStats as [|ps0 pss]; [done|]. destruct games as [|g0 gs]; [done|].
    destruct (imap _ _) as [|m ms]; [done|]. intros [= <-].
    cbn [availableColumns]. rewrite getSortColumn_columnsFor.
    apply (f_equal (λ b : bool, if b then col_rating else col_kills)).
    rewrite existsb_Exists. apply eq_true_iff_eq.
    by rewrite orb_true_iff, !bool_decide_eq_true, Exists_cons.
Qed.

End ColumnsFacts.

(** ** The normalizers: maps, rows and edge cases *)

Module NormalizerFacts.
Import Stats.
Local Open Scope Qc_scope.

(** What a non-null result of each normalizer is made of. *)
Lemma faceit_inv parseFloat stats n1 n2 s :
  Faceit.normalizeFaceitStats parseFloat stats n1 n2 = Some s →
  Faceit.rounds stats ≠ []
  ∧ maps s = imap (Faceit.normalizeRound parseFloat) (Faceit.rounds stats).
Proof.
  unfold Faceit.normalizeFaceitStats.
  destruct (Faceit.rounds stats) as [|r rs] eqn:E; [done|].
  by intros [= <-].
Qed.

Lemma panda_inv playerStats games n1 n2 t1 t2 i1 i2 names s :
  Panda.normalizePandaScoreStats playerStats games n1 n2 t1 t2 i1 i2 names = Some s →
  playerStats ≠ [] ∧ games ≠ [] ∧ maps s ≠ []
  ∧ maps s = imap (Panda.normalizeGame t1 t2 names playerStats)
               (filter (λ g, Panda.finished g = true ∨ Panda.status g = "running")
                  (sort_by (λ a b, Panda.position a - Panda.position b)%Z games)).
Proof.
  unfold Panda.normalizePandaScoreStats.
  destruct playerStats as [|ps0 pss] eqn:Ep; [done|].
  destruct games as [|g0 gs] eqn:Eg; [done|].
  cbv zeta. destruct (imap _ _) as [|m0 ms] eqn:E; [done|].
  by intros [= <-].
Qed.

Lemma grid_inv seriesState i1 i2 s :
  Grid.normalizeGridStats seriesState i1 i2 = Some (Some s) →
  ∃ gs firstGame rest ta tb tl,
    Grid.games seriesState = Some gs
    ∧ sort_by (λ a b, Grid.sequenceNumber a - Grid.sequenceNumber b)%Z
        (filter (λ g, Grid.finished g = true ∨ Exists (λ t, 0 < Grid.score t) (Grid.teams g)) gs)
      = firstGame :: rest
    ∧ Grid.teams firstGame = ta :: tb :: tl
    ∧ team1Name s = Grid.team_name ta ∧ team2Name s = Grid.team_name tb
    ∧ mapM (λ x, x) (imap (Grid.normalizeGame (Grid.team_name ta) (Grid.team_name tb))
                          (firstGame :: rest)) = Some (maps s).
Proof.
  unfold Grid.normalizeGridStats.
  destruct (Grid.games seriesState) as [gs|]; [|done].
  destruct (sort_by _ _) as [|firstGame games] eqn:E; [done|].
  destruct (Grid.teams firstGame) as [|ta [|tb tl]] eqn:Et; [done..|].
  intros Hs. apply bind_Some in Hs as (ms & Hms & [= <-]).
  by exists gs, firstGame, games, ta, tb, tl.
Qed.

Lemma numbered (l : list NormalizedMapStats) :
  (∀ i m, l !! i = Some m → mapNumber m = (i + 1)%nat) →
  mapNumber <$> l = seq 1 (length l).
Proof.
  intros Hnum. apply list_eq. intros i. rewrite list_lookup_fmap.
  destruct (l !! i) as [m|] eqn:Hm; simpl.
  - rewrite (Hnum _ _ Hm). symmetry. apply lookup_seq. split; [lia|].
    by eapply lookup_lt_Some.
  - symmetry. apply lookup_seq_ge. by apply lookup_ge_None.
Qed.

(** X12.  Maps are numbered from 1 without a gap, in the order of the
    list, by all three normalizers; for PandaScore and Grid the numbers
    are given after the games that have not started were dropped. *)
Theorem map_numbers_consecutive :
  (∀ parseFloat stats n1 n2 s,
     Faceit.normalizeFaceitStats parseFloat stats n1 n2 = Some s →
     mapNumber <$> maps s = seq 1 (length (maps s)))
  ∧ (∀ playerStats games n1 n2 t1 t2 i1 i2 names s,
       Panda.normalizePandaScoreStats playerStats games n1 n2 t1 t2 i1 i2 names = Some s →
       mapNumber <$> maps s = seq 1 (length (maps s)))
  ∧ (∀ seriesState i1 i2 s,
       Grid.normalizeGridStats seriesState i1 i2 = Some (Some s) →
       mapNumber <$> maps s = seq 1 (length (maps s))).
Proof.
  split_and!.
  - intros parseFloat stats n1 n2 s Hs. apply faceit_inv in Hs as (_ & Hmaps).
    apply numbered. intros i m. rewrite Hmaps, list_lookup_imap.
    destruct (Faceit.rounds stats !! i); [|done]. by intros [= <-].
  - intros playerStats games n1 n2 t1 t2 i1 i2 names s Hs.
    apply panda_inv in Hs as (_ & _ & _ & Hmaps).
    apply numbered. intros i m. rewrite Hmaps, list_lookup_imap.
    destruct (filter _ _ !! i); [|done]. by intros [= <-].
  - intros seriesState i1 i2 s Hs.
    apply grid_inv in Hs as (gs & firstGame & rest & ta & tb & tl & _ & _ & _ & _ & _ & Hm).
    apply numbered. intros i m Hi. apply mapM_Some in Hm.
    destruct (Forall2_lookup_r _ _ _ _ _ Hm Hi) as (o & Ho & ->).
    rewrite list_lookup_imap in Ho.
    destruct ((firstGame :: rest) !! i) as [g|]; [|done].
    simpl in Ho. injection Ho as Ho. unfold Grid.normalizeGame in Ho.
    apply bind_Some in Ho as (t1 & _ & Ho). apply bind_Some in Ho as (t2 & _ & [= <-]).
    done.
Qed.

(** *** FACEIT *)

(** X13.  [normalizeFaceitStats] gives [null] exactly when there is no
    round, and otherwise one map per round, in order.  On every map
    [team1Won] says that team 1 has strictly the higher final score, so it
    is false on a tie.  A round without a first (second) team gives that
    side the score 0, no half scores and no player. *)
Theorem faceit_one_map_per_round parseFloat stats n1 n2 :
  (Faceit.normalizeFaceitStats parseFloat stats n1 n2 = None ↔ Faceit.rounds stats = [])
  ∧ ∀ s, Faceit.normalizeFaceitStats parseFloat stats n1 n2 = Some s →
      length (maps s) = length (Faceit.rounds stats)
      ∧ ∀ i round, Faceit.rounds stats !! i = Some round →
          ∃ m, maps s !! i = Some m
            ∧ (team1Won m = true ↔ team2Score m < team1Score m)
            ∧ (Faceit.teams round !! 0%nat = None →
                 team1Score m = 0 ∧ team1FirstHalf m = None ∧ team1SecondHalf m = None
                 ∧ team1Overtime m = None ∧ team1Players m = [])
            ∧ (Faceit.teams round !! 1%nat = None →
                 team2Score m = 0 ∧ team2FirstHalf m = None ∧ team2SecondHalf m = None
                 ∧ team2Overtime m = None ∧ team2Players m = []).
Proof.
  split.
  - unfold Faceit.normalizeFaceitStats. by destruct (Faceit.rounds stats).
  - intros s Hs. apply faceit_inv in Hs as (_ & ->). split; [apply length_imap|].
    intros i round Hround. eexists. rewrite list_lookup_imap, Hround. split; [done|].
    cbn [Faceit.normalizeRound team1Won team1Score team2Score team1FirstHalf team1SecondHalf
         team2FirstHalf team2SecondHalf team1Overtime team2Overtime team1Players team2Players].
    split_and!.
    + apply bool_decide_eq_true.
    + intros ->. cbn. done.
    + intros ->. cbn. done.
Qed.

(** *** PandaScore *)

Lemma StronglySorted_filter {A} (R : relation A) (P : A → Prop) `{!∀ x, Decision (P x)} l :
  StronglySorted R l → StronglySorted R (filter P l).
Proof.
  induction 1 as [|x l Hs IH Hx]; [constructor|].
  rewrite filter_cons. destruct (decide (P x)); [|done].
  constructor; [done|]. apply Forall_forall. intros y Hy.
  apply list_elem_of_filter in Hy as [_ Hy]. by apply (proj1 (Forall_forall _ _) Hx).
Qed.

Lemma sorted_by_position (games : list Panda.PSGame) :
  StronglySorted (λ a b, (Panda.position a ≤ Panda.position b)%Z)
    (sort_by (λ a b, Panda.position a - Panda.position b)%Z games).
Proof.
  assert (Transitive (λ a b : Panda.PSGame, (Panda.position a ≤ Panda.position b)%Z))
    by (intros a b c; lia).
  apply (sort_by_StronglySorted _ (λ a b, (Panda.position a ≤ Panda.position b)%Z));
    intros a b; lia.
Qed.

(** X14.  [normalizePandaScoreStats] gives [null] exactly when there is
    no player row or no game that is finished or running.  Otherwise its
    maps are those games, each once, in ascending order of [position],
    whatever the order of the [games] array. *)
Theorem panda_maps_by_position playerStats games n1 n2 t1 t2 i1 i2 names :
  let kept := filter (λ g, Panda.finished g = true ∨ Panda.status g = "running") games in
  (Panda.normalizePandaScoreStats playerStats games n1 n2 t1 t2 i1 i2 names = None
   ↔ playerStats = [] ∨ kept = [])
  ∧ ∀ s, Panda.normalizePandaScoreStats playerStats games n1 n2 t1 t2 i1 i2 names = Some s →
      ∃ played, played ≡ₚ kept
        ∧ StronglySorted (λ a b, (Panda.position a ≤ Panda.position b)%Z) played
        ∧ maps s = imap (Panda.normalizeGame t1 t2 names playerStats) played.
Proof.
  intros kept.
  assert (filter (λ g, Panda.finished g = true ∨ Panda.status g = "running")
            (sort_by (λ a b, Panda.position a - Panda.position b)%Z games) ≡ₚ kept) as Hperm.
  { unfold kept. by rewrite sort_by_Permutation. }
  split.
  - unfold Panda.normalizePandaScoreStats.
    destruct playerStats as [|ps0 pss]; [by split; [left|]|].
    destruct games as [|g0 gs]; [by split; [right|]|].
    cbv zeta. destruct (filter _ (sort_by _ _)) as [|g played] eqn:E.
    + split; [|done]. intros _. right. by apply Permutation_nil_l in Hperm.
    + rewrite imap_cons. split; [done|]. intros [?|Hk]; [done|].
      rewrite Hk in Hperm. by apply Permutation_nil_r in Hperm.
  - intros s Hs. apply panda_inv in Hs as (_ & _ & _ & ->).
    eexists. split_and!; [exact Hperm| |done].
    apply StronglySorted_filter, sorted_by_position.
Qed.

(** X15.  The player records of a PandaScore result are exactly the
    normalised rows of the payload that belong to a game that is finished
    or running and to one of the two teams.  A row of a third team, of a
    game that has not started or of a game the [games] array does not
    hold yields no record. *)
Theorem panda_rows playerStats games n1 n2 t1 t2 i1 i2 names s :
  Panda.normalizePandaScoreStats playerStats games n1 n2 t1 t2 i1 i2 names = Some s →
  ∀ r, r ∈ playersOf s ↔
    ∃ ps g, ps ∈ playerStats ∧ g ∈ games
      ∧ (Panda.finished g = true ∨ Panda.status g = "running")
      ∧ Panda.game_id ps = Panda.id g
      ∧ (Panda.team_id ps = t1 ∨ Panda.team_id ps = t2)
      ∧ r = Panda.normalizePS names ps.
Proof.
  intros Hs r. apply panda_inv in Hs as (_ & _ & _ & Hmaps).
  unfold playersOf. rewrite Hmaps, elem_of_flat_map. split.
  - intros (m & (i & g & -> & Hg)%elem_of_lookup_imap & Hr).
    apply list_elem_of_lookup_2, list_elem_of_filter in Hg as [Hkept Hg].
    rewrite sort_by_Permutation in Hg.
    apply elem_of_app in Hr as [Hr|Hr]; simpl in Hr;
      apply list_elem_of_fmap in Hr as (ps & -> & Hps);
      apply list_elem_of_filter in Hps as [Hteam Hps];
      apply list_elem_of_filter in Hps as [Hgame Hps];
      exists ps, g; split_and!; auto.
  - intros (ps & g & Hps & Hg & Hkept & Hgame & Hteam & ->).
    assert (g ∈ filter (λ g, Panda.finished g = true ∨ Panda.status g = "running")
                  (sort_by (λ a b, Panda.position a - Panda.position b)%Z games)) as Hin.
    { apply list_elem_of_filter. split; [done|]. by rewrite sort_by_Permutation. }
    apply list_elem_of_lookup in Hin as [i Hi].
    exists (Panda.normalizeGame t1 t2 names playerStats i g). split.
    + by apply elem_of_lookup_imap_2.
    + apply elem_of_app. simpl.
      destruct Hteam as [Ht|Ht]; [left|right];
        apply list_elem_of_fmap_2, list_elem_of_filter; (split; [done|]);
        by apply list_elem_of_filter.
Qed.

Lemma panda_rows_witness :
  ∃ s, Panda.normalizePandaScoreStats Panda.samplePlayerStats Panda.sampleGames
         "alpha" "beta" 1 2 None None None = Some s
    ∧ ∀ r, r ∈ playersOf s ↔
        ∃ ps g, ps ∈ Panda.samplePlayerStats ∧ g ∈ Panda.sampleGames
          ∧ (Panda.finished g = true ∨ Panda.status g = "running")
          ∧ Panda.game_id ps = Panda.id g
          ∧ (Panda.team_id ps = 1%Z ∨ Panda.team_id ps = 2%Z)
          ∧ r = Panda.normalizePS None ps.
Proof.
  eexists. split; [reflexivity|].
  by apply (panda_rows Panda.samplePlayerStats Panda.sampleGames "alpha" "beta" 1 2
              None None None).
Defined.

(** *** Grid *)

Lemma grid_game_total n1 n2 i (g : Grid.GridGameStats) :
  (2 ≤ length (Grid.teams g))%nat → is_Some (Grid.normalizeGame n1 n2 i g).
Proof.
  intros Hlen. unfold Grid.normalizeGame.
  destruct (Grid.teams g) as [|ta [|tb tl]] eqn:Et; simpl in Hlen; [lia..|].
  destruct (find (λ t, String.eqb (Grid.team_name t) n1) (ta :: tb :: tl)) as [t1|];
    destruct (find (λ t, String.eqb (Grid.team_name t) n2) (ta :: tb :: tl)) as [t2|];
    by eexists.
Qed.

(** X16.  When every game that survives the filter (finished, or with a
    team that has scored) lists at least two teams, [normalizeGridStats]
    raises no error, and its result is [null] exactly when no game
    survives the filter. *)
Theorem grid_total seriesState i1 i2 :
  (∀ gs g, Grid.games seriesState = Some gs → g ∈ gs →
     Grid.finished g = true ∨ Exists (λ t, 0 < Grid.score t) (Grid.teams g) →
     (2 ≤ length (Grid.teams g))%nat) →
  ∃ r, Grid.normalizeGridStats seriesState i1 i2 = Some r
    ∧ (r = None ↔
       ∀ gs g, Grid.games seriesState = Some gs → g ∈ gs →
         ¬ (Grid.finished g = true ∨ Exists (λ t, 0 < Grid.score t) (Grid.teams g))).
Proof.
  intros Hteams. unfold Grid.normalizeGridStats.
  destruct (Grid.games seriesState) as [gs|]; [|by exists None].
  specialize (Hteams gs).
  destruct (sort_by _ _) as [|firstGame rest] eqn:E.
  { exists None. split; [done|]. split; [|done]. intros _ gs' g [= <-] Hg Hkept.
    assert (g ∈ sort_by (λ a b, Grid.sequenceNumber a - Grid.sequenceNumber b)%Z
              (filter (λ g, Grid.finished g = true
                            ∨ Exists (λ t, 0 < Grid.score t) (Grid.teams g)) gs)) as Hin.
    { rewrite sort_by_Permutation. by apply list_elem_of_filter. }
    rewrite E in Hin. by apply elem_of_nil in Hin. }
  assert (∀ g, g ∈ firstGame :: rest →
            g ∈ gs ∧ (Grid.finished g = true ∨ Exists (λ t, 0 < Grid.score t) (Grid.teams g)))
    as Hkept.
  { intros g Hg. rewrite <- E, sort_by_Permutation in Hg.
    apply list_elem_of_filter in Hg as [? ?]. done. }
  assert (2 ≤ length (Grid.teams firstGame))%nat as Hfirst.
  { destruct (Hkept firstGame ltac:(left)) as [Hin Hk]. by apply Hteams. }
  destruct (Grid.teams firstGame) as [|ta [|tb tl]] eqn:Et; simpl in Hfirst; [lia..|].
  destruct (mapM (λ x, x) (imap (Grid.normalizeGame (Grid.team_name ta) (Grid.team_name tb))
                             (firstGame :: rest))) as [ms|] eqn:Hm.
  - eexists. split; [done|]. split; [done|]. intros Hnone. exfalso.
    destruct (Hkept firstGame ltac:(left)) as [Hin Hk]. by apply (Hnone gs firstGame).
  - exfalso. apply mapM_None in Hm. apply Exists_exists in Hm as (o & Ho & ->).
    apply elem_of_lookup_imap in Ho as (i & g & Hnone & Hg).
    apply list_elem_of_lookup_2 in Hg. destruct (Hkept g Hg) as [Hin Hk].
    destruct (grid_game_total (Grid.team_name ta) (Grid.team_name tb) i g
                (Hteams g eq_refl Hin Hk)) as [m Hm].
    congruence.
Qed.


Lemma grid_total_witness :
  ∃ r, Grid.normalizeGridStats GridSample.series None None = Some r
    ∧ (r = None ↔
       ∀ gs g, Grid.games GridSample.series = Some gs → g ∈ gs →
         ¬ (Grid.finished g = true ∨ Exists (λ t, 0 < Grid.score t) (Grid.teams g))).
Proof.
  apply (grid_total GridSample.series None None).
  intros gs g [= <-] Hg Hkept.
  apply elem_of_cons in Hg as [->|Hg].
  - exfalso. destruct Hkept as [Hf|Hs]; [discriminate Hf|].
    by apply Exists_nil in Hs.
  - apply list_elem_of_singleton in Hg as ->. vm_compute. lia.
Defined.


(** *** The "All Maps" tab *)

Lemma visit_fresh p (pm : list (string * NormalizedPlayerStat)) :
  playerId p ∉ pm.*1 → Table.visit p pm = pm ++ [(playerId p, p)].
Proof.
  induction pm as [|[k e] pm IH]; [done|]. csimpl. intros Hnotin.
  apply not_elem_of_cons in Hnotin as [Hne Hnotin].
  destruct (String.eqb_spec (playerId p) k) as [?|_]; [done|].
  by rewrite IH.
Qed.

Lemma fold_visit_fresh (l : list NormalizedPlayerStat) pm :
  NoDup (pm.*1 ++ (playerId <$> l)) →
  fold_left (λ pm p, Table.visit p pm) l pm = pm ++ ((λ p, (playerId p, p)) <$> l).
Proof.
  revert pm. induction l as [|p l IH]; intros pm Hnd; csimpl.
  - by rewrite app_nil_r.
  - rewrite visit_fresh.
    + rewrite IH; [by rewrite <- app_assoc|].
      rewrite fmap_app. csimpl. by rewrite <- app_assoc.
    + apply NoDup_app in Hnd as (_ & Hdisj & _). intros Hin.
      apply (Hdisj _ Hin). left.
Qed.

(** X18.  With a single map whose team list names every player once,
    the "All Maps" rows of that team are the rows of the map, unchanged
    and in the same order. *)
Theorem aggregate_single_map (m : NormalizedMapStats) teamKey :
  NoDup (playerId <$> Table.playersAt teamKey m) →
  Table.aggregatePlayerStats [m] teamKey = Table.playersAt teamKey m.
Proof.
  intros Hnd. unfold Table.aggregatePlayerStats. cbn [fold_left].
  rewrite fold_visit_fresh by done. simpl.
  rewrite <- list_fmap_compose. apply list_fmap_id.
Qed.

Lemma aggregate_single_map_witness :
  ∃ m, head Table.sampleMaps = Some m
    ∧ Table.aggregatePlayerStats [m] Table.key_team1Players
      = Table.playersAt Table.key_team1Players m.
Proof.
  eexists. split; [reflexivity|].
  apply aggregate_single_map. apply (bool_decide_unpack _). vm_compute. exact I.
Defined.

(** X19.  The two numbers of the "All Maps (a - b)" label add up to the
    number of maps: a map that team 1 has not won counts for team 2.  For
    PandaScore statistics the second number is therefore the number of
    finished or running games whose winner is not team 1, the games
    without a winner included. *)
Theorem overall_scores_cover :
  (∀ s, (Columns.overallScore1 s + Columns.overallScore2 s = length (maps s))%nat)
  ∧ ∀ playerStats games n1 n2 t1 t2 i1 i2 names s,
      Panda.normalizePandaScoreStats playerStats games n1 n2 t1 t2 i1 i2 names = Some s →
      Columns.overallScore2 s
      = length (filter (λ g, (Panda.finished g = true ∨ Panda.status g = "running")
                             ∧ Panda.wonBy g t1 = false) games).
Proof.
  split.
  - intros s. unfold Columns.overallScore1, Columns.overallScore2.
    induction (maps s) as [|m ms IH]; [done|].
    rewrite !filter_cons. destruct (team1Won m); simpl; lia.
  - intros playerStats games n1 n2 t1 t2 i1 i2 names s Hs.
    apply panda_inv in Hs as (_ & _ & _ & Hmaps).
    unfold Columns.overallScore2. rewrite Hmaps.
    rewrite <- (sort_by_Permutation (λ a b, Panda.position a - Panda.position b)%Z games) at 2.
    generalize (sort_by (λ a b, Panda.position a - Panda.position b)%Z games). intros l.
    rewrite (list_filter_iff
               (λ g, (Panda.finished g = true ∨ Panda.status g = "running")
                     ∧ Panda.wonBy g t1 = false)
               (λ g, Panda.wonBy g t1 = false
                     ∧ (Panda.finished g = true ∨ Panda.status g = "running")))
      by (intros g; tauto).
    rewrite <- (list_filter_filter _ _ l).
    generalize (filter (λ g, Panda.finished g = true ∨ Panda.status g = "running") l).
    clear. intros l'.
    assert (∀ k, length (filter (λ m, negb (team1Won m) = true)
                           (imap (λ i, Panda.normalizeGame t1 t2 names playerStats (k + i)) l'))
                 = length (filter (λ g, Panda.wonBy g t1 = false) l')) as Hgen.
    { clear. induction l' as [|g l IH]; intros k; [done|].
      rewrite imap_cons, !filter_cons. cbn [Panda.normalizeGame team1Won].
      destruct (Panda.wonBy g t1); simpl.
      - rewrite <- (IH (S k)).
        f_equal. f_equal. apply imap_ext. intros i x _. simpl. f_equal. lia.
      - rewrite <- (IH (S k)).
        f_equal. f_equal. f_equal. apply imap_ext. intros i x _. simpl. f_equal. lia. }
    apply (Hgen 0%nat).
Qed.

(** X20.  The map-name formatter drops a leading "de_" whatever the case
    of its letters and puts the first character of what is left in upper
    case; a name without that prefix only has its first character put in
    upper case.  The PandaScore variant turns an absent or empty name into
    "Unknown". *)
Theorem formatMapName_strips (prefix rest : string) :
  toLowerCase prefix = "de_" →
  stripAndCapitalize (prefix +:+ rest)
  = match rest with
    | EmptyString => EmptyString
    | String c rest' => String (upper_ascii c) rest'
    end
  ∧ Panda.formatMapName (Some (prefix +:+ rest)) = stripAndCapitalize (prefix +:+ rest)
  ∧ Panda.formatMapName None = "Unknown" ∧ Panda.formatMapName (Some "") = "Unknown".
Proof.
  intros Hp.
  assert (String.length prefix = 3%nat) as Hlen.
  { destruct prefix as [|a [|b [|c [|d p]]]]; try done. }
  split_and!; [|by destruct prefix|done..].
  unfold stripAndCapitalize.
  pose proof (StringFacts.substring_prefix prefix rest) as H1. rewrite Hlen in H1. rewrite H1, Hp.
  pose proof (StringFacts.substring_app prefix rest) as H2. rewrite Hlen in H2. by rewrite H2.
Qed.

Lemma formatMapName_strips_witness :
  stripAndCapitalize ("DE_" +:+ "dust2") = "Dust2"
  ∧ Panda.formatMapName (Some ("DE_" +:+ "dust2")) = stripAndCapitalize ("DE_" +:+ "dust2")
  ∧ Panda.formatMapName None = "Unknown" ∧ Panda.formatMapName (Some "") = "Unknown".
Proof. apply (formatMapName_strips "DE_" "dust2"). reflexivity. Defined.

End NormalizerFacts.

(** ** The home page: what [groupBySerie] emits *)

Module EventFacts.
Import Home HomeFacts EventList.

(** Every event comes from one group of the grouping loop, and every
    group gives one event. *)
Lemma groups_spec (ts : list AnnotatedTournament) :
  NoDup (buildGroups ts).*1
  ∧ (∀ k vs, (k, vs) ∈ buildGroups ts →
       vs ≠ [] ∧ vs = filter (λ t, String.eqb k (groupKey t) = true) ts)
  ∧ concat (buildGroups ts).*2 ≡ₚ ts.
Proof.
  destruct (grouping_spec String.eqb String.eqb_eq groupKey ts) as (Hnd & Hne & Hget).
  fold (buildGroups ts) in Hnd, Hne, Hget. split_and!; [done| |].
  - intros k vs Hin. split.
    + by apply (proj1 (Forall_forall _ _) Hne (k, vs)).
    + rewrite <- Hget. symmetry. by apply groupGet_elem; [apply String.eqb_eq|..].
  - unfold buildGroups.
    assert (∀ l (g : list (string * list AnnotatedTournament)),
              concat (fold_left (λ groups t, pushGroup String.eqb (groupKey t) t groups) l g).*2
              ≡ₚ concat g.*2 ++ l) as Hgen.
    { induction l as [|t l IH]; intros g; simpl; [by rewrite app_nil_r|].
      rewrite IH, pushGroup_concat. simpl. by rewrite Permutation_middle. }
    by rewrite (Hgen ts []).
Qed.

Lemma event_origin ts e :
  e ∈ groupBySerie ts ↔ ∃ k vs, (k, vs) ∈ buildGroups ts ∧ eventOfGroup vs = Some e.
Proof.
  unfold groupBySerie. rewrite list_elem_of_omap. split.
  - intros ([k vs] & Hin & He). by exists k, vs.
  - intros (k & vs & Hin & He). by exists (k, vs).
Qed.

Lemma eventOfGroup_count vs :
  vs ≠ [] →
  ∃ e, eventOfGroup vs = Some e
    ∧ default 1 (tournamentCount e) = length vs
    ∧ (∀ n, tournamentCount e = Some n → 2 ≤ n).
Proof.
  destruct vs as [|first [|second rest]]; [done|..]; intros _; eexists; (split; [done|]).
  - split; [done|]. by intros n.
  - split; [done|]. intros n [= <-]. simpl. lia.
Qed.

(** X21.  No tournament is lost or counted twice by the grouping: the
    numbers of tournaments behind the emitted events, 1 for an event of a
    single tournament and [tournamentCount] for a grouped one, add up to
    the length of the input, and a [tournamentCount] is never below 2. *)
Theorem groupBySerie_counts (ts : list AnnotatedTournament) :
  sum_list ((λ e, default 1 (tournamentCount e)) <$> groupBySerie ts) = length ts
  ∧ (∀ e n, e ∈ groupBySerie ts → tournamentCount e = Some n → 2 ≤ n)
  ∧ length (groupBySerie ts) ≤ length ts.
Proof.
  destruct (groups_spec ts) as (_ & Hgroups & Hperm).
  assert (∀ g : list (string * list AnnotatedTournament),
            Forall (λ e, e.2 ≠ []) g →
            sum_list ((λ e, default 1 (tournamentCount e)) <$> omap (λ g, eventOfGroup g.2) g)
            = length (concat g.*2)
            ∧ length (omap (λ g, eventOfGroup g.2) g) ≤ length (concat g.*2)) as Hgen.
  { induction 1 as [|[k vs] g Hvs Hg [IH1 IH2]]; [done|]. csimpl in *.
    destruct (eventOfGroup_count vs Hvs) as (e & -> & Hcount & _).
    csimpl. rewrite Hcount, IH1, length_app. split; [done|].
    destruct vs; [done|]. simpl. lia. }
  assert (Forall (λ e : string * list AnnotatedTournament, e.2 ≠ []) (buildGroups ts)) as Hne.
  { apply Forall_forall. intros [k vs] Hin. by apply Hgroups in Hin as [? _]. }
  destruct (Hgen _ Hne) as [Hsum Hlen]. unfold groupBySerie.
  rewrite Hperm in Hsum, Hlen. split_and!; [done| |done].
  intros e n (k & vs & Hin & He)%event_origin Hn.
  destruct (Hgroups k vs Hin) as [Hvs _].
  destruct (eventOfGroup_count vs Hvs) as (e' & He' & _ & Hmin).
  rewrite He in He'. injection He' as <-. by apply Hmin.
Qed.

(** *** The date range of a grouped event *)

Lemma compare_Lt_trans (s1 s2 s3 : string) :
  String.compare s1 s2 = Lt → String.compare s2 s3 = Lt → String.compare s1 s3 = Lt.
Proof.
  revert s2 s3. induction s1 as [|c1 s1 IH]; intros [|c2 s2] [|c3 s3]; simpl; try done.
  unfold Ascii.compare.
  destruct (N.compare_spec (N_of_ascii c1) (N_of_ascii c2)),
           (N.compare_spec (N_of_ascii c2) (N_of_ascii c3)),
           (N.compare_spec (N_of_ascii c1) (N_of_ascii c3));
    try done; try lia. apply IH.
Qed.

Lemma str_le_trans (a b c : string) : str_le a b → str_le b c → str_le a c.
Proof.
  intros Hab Hbc. unfold str_le in *.
  destruct (String.compare a b) eqn:Eab; [|clear Hab|done].
  { apply String.compare_eq_iff in Eab as ->. done. }
  destruct (String.compare b c) eqn:Ebc; [|clear Hbc|done].
  { apply String.compare_eq_iff in Ebc as ->. by rewrite Eab. }
  by rewrite (compare_Lt_trans a b c).
Qed.

Lemma str_le_refl (a : string) : str_le a a.
Proof.
  unfold str_le. pose proof (String.compare_antisym a a) as H.
  by destruct (String.compare a a).
Qed.

Lemma sortStrings_sorted (l : list string) : StronglySorted str_le (sortStrings l).
Proof.
  assert (Transitive str_le) by exact str_le_trans.
  apply (sort_by_StronglySorted _ str_le); intros a b; unfold str_le.
  - by destruct (String.compare a b).
  - rewrite (String.compare_antisym b a). by destruct (String.compare a b).
Qed.

Lemma sorted_head (l : list string) x :
  StronglySorted str_le l → head l = Some x → ∀ y, y ∈ l → str_le x y.
Proof.
  intros Hs Hx y Hy. destruct l as [|x' l]; [done|]. injection Hx as ->.
  apply StronglySorted_inv in Hs as [_ Hall].
  apply elem_of_cons in Hy as [->|Hy]; [apply str_le_refl|].
  by apply (proj1 (Forall_forall _ _) Hall).
Qed.

Lemma sorted_last (l : list string) x :
  StronglySorted str_le l → last l = Some x → ∀ y, y ∈ l → str_le y x.
Proof.
  induction 1 as [|a l Hs IH Ha]; [done|]. intros Hx y Hy.
  destruct l as [|b l].
  - injection Hx as ->. apply list_elem_of_singleton in Hy as ->. apply str_le_refl.
  - rewrite last_cons_cons in Hx.
    apply elem_of_cons in Hy as [->|Hy]; [|by apply IH].
    apply (proj1 (Forall_forall _ _) Ha). by eapply last_Some_elem_of.
Qed.

(** The event that carries the serie identifier [sid] is the grouped
    event of the tournaments of that serie. *)
Lemma serie_event_group ts sid e :
  sid ≠ 0%Z → e ∈ groupBySerie ts → serieId e = Some sid →
  let members := filter (λ t, serie_id <$> serie t = Some sid) ts in
  ∃ first second rest, members = first :: second :: rest ∧ e = groupedEvent first members.
Proof.
  intros Hsid (k & vs & Hin & He)%event_origin Hserie members.
  destruct (groups_spec ts) as (_ & Hgroups & _).
  destruct (Hgroups k vs Hin) as [_ Hvs].
  destruct vs as [|first [|second rest]] eqn:Evs; [done| |]; injection He as <-; [done|].
  cbn [groupedEvent serieId] in Hserie.
  assert (first ∈ filter (λ t, String.eqb k (groupKey t) = true) ts) as Hfirst
    by (rewrite <- Hvs; left).
  apply list_elem_of_filter in Hfirst as [Hkey _]. apply String.eqb_eq in Hkey.
  assert (k = "serie-" +:+ show_Z sid) as ->.
  { rewrite Hkey. symmetry. apply String.eqb_eq, groupKey_serie. by apply serieIdOf_Some. }
  assert (first :: second :: rest = members) as <-.
  { rewrite Hvs. apply list_filter_iff. intros t.
    rewrite groupKey_serie, serieIdOf_Some. tauto. }
  by exists first, second, rest.
Qed.

(** X22.  The grouped event of a serie spans the dates of its stages:
    its [startDate] is the least [begin_at] that a stage has, in the order
    of the default string sort, or the empty string when no stage has one;
    its [endDate] is the greatest [end_at] that a stage has, or [null]
    when no stage has one. *)
Theorem serie_event_dates ts sid e :
  sid ≠ 0%Z → e ∈ groupBySerie ts → serieId e = Some sid →
  let members := filter (λ t, serie_id <$> serie t = Some sid) ts in
  let begins := truthyStrings (begin_at <$> members) in
  let ends := truthyStrings (end_at <$> members) in
  (begins = [] → startDate e = "")
  ∧ (begins ≠ [] → startDate e ∈ begins ∧ ∀ d, d ∈ begins → str_le (startDate e) d)
  ∧ (ends = [] → endDate e = None)
  ∧ (ends ≠ [] → ∃ d, endDate e = Some d ∧ d ∈ ends ∧ ∀ d', d' ∈ ends → str_le d' d).
Proof.
  intros Hsid He Hserie members begins ends.
  destruct (serie_event_group ts sid e Hsid He Hserie) as (first & second & rest & Hm & ->).
  fold members in Hm |- *. cbn [groupedEvent startDate endDate].
  fold begins. fold ends. rewrite head_reverse.
  pose proof (sort_by_Permutation
                (λ a b, match String.compare a b with Lt => (-1)%Z | Eq => 0%Z | Gt => 1%Z end)
                begins) as Hpb.
  pose proof (sort_by_Permutation
                (λ a b, match String.compare a b with Lt => (-1)%Z | Eq => 0%Z | Gt => 1%Z end)
                ends) as Hpe.
  fold (sortStrings begins) in Hpb. fold (sortStrings ends) in Hpe.
  split_and!.
  - intros Hnil. rewrite Hnil. done.
  - intros Hne. destruct (sortStrings begins) as [|d ds] eqn:E.
    { apply Permutation_nil_l in Hpb. done. }
    simpl. split.
    + rewrite <- Hpb. left.
    + intros d' Hd'. rewrite <- Hpb in Hd'.
      apply (sorted_head (d :: ds)); [|done..]. rewrite <- E. apply sortStrings_sorted.
  - intros Hnil. rewrite Hnil. done.
  - intros Hne. destruct (last (sortStrings ends)) as [d|] eqn:E.
    + exists d. split; [done|]. split.
      * rewrite <- Hpe. by eapply last_Some_elem_of.
      * intros d' Hd'. rewrite <- Hpe in Hd'.
        by apply (sorted_last (sortStrings ends)); [apply sortStrings_sorted|..].
    + apply last_None in E. rewrite E in Hpe. by apply Permutation_nil_l in Hpe.
Qed.

Lemma serie_event_dates_witness :
  ∃ e, e ∈ groupBySerie stages ∧ serieId e = Some 42%Z
    ∧ startDate e = "2026-03-01T10:00:00Z" ∧ endDate e = Some "2026-03-15T20:00:00Z"
    ∧ let members := filter (λ t, serie_id <$> serie t = Some 42%Z) stages in
      let begins := truthyStrings (begin_at <$> members) in
      let ends := truthyStrings (end_at <$> members) in
      (begins = [] → startDate e = "")
      ∧ (begins ≠ [] → startDate e ∈ begins ∧ ∀ d, d ∈ begins → str_le (startDate e) d)
      ∧ (ends = [] → endDate e = None)
      ∧ (ends ≠ [] → ∃ d, endDate e = Some d ∧ d ∈ ends ∧ ∀ d', d' ∈ ends → str_le d' d).
Proof.
  eexists. split; [left|]. split; [reflexivity|]. split; [reflexivity|].
  split; [reflexivity|].
  apply (serie_event_dates stages 42); [discriminate|left|reflexivity].
Defined.

(** *** Event ids and the routes built from them *)

Lemma NoDup_fmap_inj {A B} (f : A → B) (l : list A) x y :
  NoDup (f <$> l) → x ∈ l → y ∈ l → f x = f y → x = y.
Proof.
  induction l as [|a l IH]; csimpl; [by intros _ ?%elem_of_nil|].
  intros [Hnotin Hnd]%NoDup_cons Hx Hy Hf.
  apply elem_of_cons in Hx as [->|Hx]; apply elem_of_cons in Hy as [->|Hy].
  - done.
  - exfalso. apply Hnotin. rewrite Hf. by apply list_elem_of_fmap_2.
  - exfalso. apply Hnotin. rewrite <- Hf. by apply list_elem_of_fmap_2.
  - by apply IH.
Qed.

(** The decimal form of an integer never starts with a letter. *)
Lemma show_Z_not_serie (z : Z) (rest : string) : show_Z z ≠ String "s" rest.
Proof.
  unfold show_Z. destruct (Z.to_int z) as [d|d]; simpl; [|done]. by destruct d.
Qed.

(** With pairwise distinct tournament ids, a group of several
    tournaments is the group of a serie. *)
Lemma group_of_several ts k first second rest :
  NoDup (t_id <$> ts) →
  (k, first :: second :: rest) ∈ buildGroups ts →
  ∃ sid, sid ≠ 0%Z ∧ k = "serie-" +:+ show_Z sid ∧ serie_id <$> serie first = Some sid.
Proof.
  intros Hids Hin. destruct (groups_spec ts) as (_ & Hgroups & _).
  destruct (Hgroups _ _ Hin) as [_ Hvs].
  assert (∀ t, t ∈ first :: second :: rest → t ∈ ts ∧ groupKey t = k) as Hmem.
  { intros t Ht. rewrite Hvs in Ht. apply list_elem_of_filter in Ht as [Hk ?].
    apply String.eqb_eq in Hk. done. }
  destruct (Hmem first ltac:(left)) as [Hf1 Hk1].
  destruct (Hmem second ltac:(right; left)) as [Hf2 Hk2].
  destruct (serieIdOf first) as [sid|] eqn:Esid.
  - apply serieIdOf_Some in Esid as [Hs Hne]. exists sid. split_and!; [done| |done].
    rewrite <- Hk1. unfold groupKey.
    by rewrite (proj2 (serieIdOf_Some first sid) (conj Hs Hne)).
  - exfalso. unfold groupKey in Hk1. rewrite Esid in Hk1.
    unfold groupKey in Hk2. rewrite <- Hk1 in Hk2.
    destruct (serieIdOf second); simpl in Hk2; [done|].
    injection Hk2 as Hk2%show_Z_inj.
    assert (second = first) as Heq by (by eapply (NoDup_fmap_inj t_id ts)).
    assert (NoDup (first :: second :: rest)) as Hnd.
    { rewrite Hvs. apply NoDup_filter. by eapply NoDup_fmap_1. }
    apply NoDup_cons in Hnd as [Hnotin _]. apply Hnotin. rewrite Heq. left.
Qed.

(** The id of the event of a group, read off its key. *)
Lemma event_id ts k vs e :
  NoDup (t_id <$> ts) → (k, vs) ∈ buildGroups ts → eventOfGroup vs = Some e →
  (∃ t, vs = [t] ∧ t ∈ ts ∧ groupKey t = k ∧ id e = "ps-" +:+ show_Z (t_id t)
        ∧ tournamentCount e = None)
  ∨ (∃ sid, sid ≠ 0%Z ∧ k = "serie-" +:+ show_Z sid ∧ serieId e = Some sid
        ∧ id e = "ps-serie-" +:+ show_Z sid ∧ tournamentCount e = Some (length vs)).
Proof.
  intros Hids Hin He. destruct (groups_spec ts) as (_ & Hgroups & _).
  destruct (Hgroups _ _ Hin) as [_ Hvs].
  destruct vs as [|first [|second rest]]; [done| |]; injection He as <-.
  - left. exists first.
    assert (first ∈ filter (λ t, String.eqb k (groupKey t) = true) ts) as Hf
      by (rewrite <- Hvs; left).
    apply list_elem_of_filter in Hf as [Hk%String.eqb_eq Hf]. done.
  - right. destruct (group_of_several ts k first second rest Hids Hin) as (sid & ? & -> & Hs).
    exists sid. cbn [groupedEvent id serieId tournamentCount]. rewrite Hs. done.
Qed.

(** X23.  When the tournaments of the input have pairwise distinct ids,
    so do the emitted events: "ps-" followed by the tournament id for an
    event of one tournament, "ps-serie-" followed by the serie id for a
    grouped one. *)
Theorem event_ids_distinct (ts : list AnnotatedTournament) :
  NoDup (t_id <$> ts) →
  NoDup (id <$> groupBySerie ts)
  ∧ ∀ e, e ∈ groupBySerie ts →
      (∃ t, t ∈ ts ∧ tournamentCount e = None ∧ id e = "ps-" +:+ show_Z (t_id t))
      ∨ (∃ sid, sid ≠ 0%Z ∧ serieId e = Some sid ∧ id e = "ps-serie-" +:+ show_Z sid).
Proof.
  intros Hids. destruct (groups_spec ts) as (Hnd & Hgroups & _). split.
  - unfold groupBySerie.
    assert (∀ g1 g2 e1 e2, g1 ∈ buildGroups ts → g2 ∈ buildGroups ts →
              eventOfGroup g1.2 = Some e1 → eventOfGroup g2.2 = Some e2 →
              id e1 = id e2 → g1.1 = g2.1) as Hinj.
    { intros [k1 vs1] [k2 vs2] e1 e2 H1 H2 He1 He2 Hid. simpl in *.
      destruct (event_id ts k1 vs1 e1 Hids H1 He1)
        as [(t1 & _ & Ht1 & Hk1 & Hid1 & _)|(s1 & _ & Hk1 & _ & Hid1 & _)];
      destruct (event_id ts k2 vs2 e2 Hids H2 He2)
        as [(t2 & _ & Ht2 & Hk2 & Hid2 & _)|(s2 & _ & Hk2 & _ & Hid2 & _)];
      rewrite Hid1, Hid2 in Hid; simpl in Hid.
      - injection Hid as Hid%show_Z_inj.
        rewrite <- Hk1, <- Hk2. f_equal. by eapply (NoDup_fmap_inj t_id ts).
      - exfalso. injection Hid as Hid. by apply show_Z_not_serie in Hid.
      - exfalso. injection Hid as Hid. symmetry in Hid. by apply show_Z_not_serie in Hid.
      - injection Hid as Hid. apply (show_Z_inj s1 s2) in Hid. by rewrite Hk1, Hk2, Hid. }
    revert Hnd Hinj. generalize (buildGroups ts). intros g.
    induction g as [|[k vs] g IH]; intros Hnd Hinj; csimpl; [constructor|].
    apply NoDup_cons in Hnd as [Hnotin Hnd].
    assert (NoDup (id <$> omap (λ g, eventOfGroup g.2) g)) as IHg.
    { apply IH; [done|]. intros g1 g2 e1 e2 H1 H2. apply Hinj; by right. }
    destruct (eventOfGroup vs) as [e|] eqn:He; [|done]. csimpl.
    apply NoDup_cons. split; [|done].
    intros (e' & Hid & ([k' vs'] & Hin' & He')%list_elem_of_omap)%list_elem_of_fmap.
    apply Hnotin. simpl in He'.
    rewrite (Hinj (k, vs) (k', vs') e e' ltac:(left) ltac:(by right) He He' Hid).
    by apply (list_elem_of_fmap_2 fst _ (k', vs')).
  - intros e (k & vs & Hin & He)%event_origin.
    destruct (event_id ts k vs e Hids Hin He)
      as [(t & _ & Ht & _ & Hid & Hc)|(sid & Hsid & _ & Hs & Hid & _)].
    + left. by exists t.
    + right. by exists sid.
Qed.

Lemma event_ids_distinct_witness :
  NoDup (id <$> groupBySerie stages)
  ∧ ∀ e, e ∈ groupBySerie stages →
      (∃ t, t ∈ stages ∧ tournamentCount e = None ∧ id e = "ps-" +:+ show_Z (t_id t))
      ∨ (∃ sid, sid ≠ 0%Z ∧ serieId e = Some sid ∧ id e = "ps-serie-" +:+ show_Z sid).
Proof.
  apply (event_ids_distinct stages). apply (bool_decide_unpack _). vm_compute. exact I.
Defined.

Lemma prefix_serie_false (z : Z) : String.prefix "ps-serie-" ("ps-" +:+ show_Z z) = false.
Proof.
  change (String.prefix "serie-" (show_Z z) = false).
  destruct (show_Z z) as [|c rest] eqn:E; [done|]. cbn [String.prefix].
  destruct (ascii_dec "s" c) as [<-|_]; [|done].
  by apply show_Z_not_serie in E.
Qed.

(** X24.  The link of an event on the home page.  With pairwise distinct
    tournament ids, the card of a grouped event leads to the page of its
    serie, "/matches/pro/serie/" followed by the serie id, and the card of
    any other event to the page of its tournament, "/matches/pro/"
    followed by the tournament id. *)
Theorem event_links (ts : list AnnotatedTournament) (e : ProEvent) :
  NoDup (t_id <$> ts) → e ∈ groupBySerie ts →
  (∃ t, t ∈ ts ∧ tournamentCount e = None
        ∧ href (proToUnified e) = Some ("/matches/pro/" +:+ show_Z (t_id t)))
  ∨ (∃ sid n, serieId e = Some sid ∧ tournamentCount e = Some n
        ∧ n = length (filter (λ t, serie_id <$> serie t = Some sid) ts)
        ∧ href (proToUnified e) = Some ("/matches/pro/serie/" +:+ show_Z sid)).
Proof.
  intros Hids (k & vs & Hin & He)%event_origin.
  destruct (groups_spec ts) as (_ & Hgroups & _).
  destruct (Hgroups _ _ Hin) as [_ Hvs].
  destruct (event_id ts k vs e Hids Hin He)
    as [(t & _ & Ht & _ & Hid & Hc)|(sid & Hsid & Hk & Hs & Hid & Hc)].
  - left. exists t. split_and!; [done..|].
    unfold proToUnified. cbn [href]. rewrite Hid, prefix_serie_false.
    by rewrite StringFacts.replace_first_prefix.
  - right. exists sid, (length vs). split_and!; [done..| |].
    + f_equal. rewrite Hvs, Hk. apply list_filter_iff. intros t.
      rewrite groupKey_serie, serieIdOf_Some. tauto.
    + unfold proToUnified. cbn [href]. rewrite Hid, StringFacts.prefix_app.
      by rewrite StringFacts.replace_first_prefix.
Qed.

Lemma event_links_witness :
  ∃ e, e ∈ groupBySerie stages
    ∧ href (proToUnified e) = Some "/matches/pro/serie/42"
    ∧ ((∃ t, t ∈ stages ∧ tournamentCount e = None
          ∧ href (proToUnified e) = Some ("/matches/pro/" +:+ show_Z (t_id t)))
       ∨ (∃ sid n, serieId e = Some sid ∧ tournamentCount e = Some n
          ∧ n = length (filter (λ t, serie_id <$> serie t = Some sid) stages)
          ∧ href (proToUnified e) = Some ("/matches/pro/serie/" +:+ show_Z sid))).
Proof.
  eexists. split; [left|]. split; [reflexivity|].
  apply (event_links stages); [|left].
  apply (bool_decide_unpack _). vm_compute. exact I.
Defined.

End EventFacts.

(** ** Match cards and the pro overview *)

Module ProfileFacts.
Import Profile.
Local Open Scope Qc_scope.

Lemma find_team_absent (rs : list PSResult) teamId :
  (∀ r, r ∈ rs → team_id r ≠ teamId) →
  find (λ r, bool_decide (team_id r = teamId)) rs = None.
Proof.
  intros Habs. induction rs as [|r rs IH]; [done|]. simpl.
  rewrite bool_decide_eq_false_2 by (apply Habs; left).
  apply IH. intros r' Hr'. apply Habs. by right.
Qed.

Lemma find_team_present (rs : list PSResult) r :
  NoDup (team_id <$> rs) → r ∈ rs →
  find (λ r', bool_decide (team_id r' = team_id r)) rs = Some r.
Proof.
  induction rs as [|r0 rs IH]; [by intros _ ?%elem_of_nil|]. csimpl.
  intros [Hnotin Hnd]%NoDup_cons [->|Hin]%elem_of_cons.
  - by rewrite bool_decide_eq_true_2.
  - rewrite bool_decide_eq_false_2; [by apply IH|].
    intros Heq. apply Hnotin. rewrite Heq. by apply list_elem_of_fmap_2.
Qed.

(** X25.  Scores and opponents of a match card.  The score of a team is
    0 when [results] has no entry for it and the score of its entry when
    the entries name every team once.  The opponent is the first listed
    team whose id differs from the given one: [null] exactly when there
    is none, and the first listed team when the given team does not play
    in the match. *)
Theorem card_lookups (m : PSMatchResult) (teamId : Z) :
  getMatchTeamScore m teamId = getScore m teamId
  ∧ ((∀ r, r ∈ results m → team_id r ≠ teamId) → getScore m teamId = 0%Z)
  ∧ (NoDup (team_id <$> results m) →
     ∀ r, r ∈ results m → team_id r = teamId → getScore m teamId = score r)
  ∧ (getOpponent m teamId = None ↔ ∀ o, o ∈ opponents m → opp_id (opponent o) = teamId)
  ∧ (∀ t, getOpponent m teamId = Some t →
       opp_id t ≠ teamId ∧ ∃ o, o ∈ opponents m ∧ opponent o = t)
  ∧ (∀ o rest, opponents m = o :: rest → opp_id (opponent o) ≠ teamId →
       getOpponent m teamId = Some (opponent o)).
Proof.
  split_and!.
  - done.
  - intros Habs. unfold getScore. by rewrite find_team_absent.
  - intros Hnd r Hr <-. unfold getScore. by rewrite find_team_present.
  - unfold getOpponent. rewrite fmap_None. split.
    + intros Hnone o Ho.
      destruct (decide (opp_id (opponent o) = teamId)) as [|Hne]; [done|exfalso].
      assert (∀ l, o ∈ l →
                find (λ o, negb (bool_decide (opp_id (opponent o) = teamId))) l ≠ None) as Hf.
      { induction l as [|o' l IH]; [by intros ?%elem_of_nil|]. simpl.
        intros [->|Hin]%elem_of_cons.
        - by rewrite bool_decide_eq_false_2.
        - destruct (negb _); [done|by apply IH]. }
      by apply (Hf _ Ho).
    + intros Hall. induction (opponents m) as [|o l IH]; [done|]. simpl.
      rewrite bool_decide_eq_true_2 by (apply Hall; left). simpl.
      apply IH. intros o' Ho'. apply Hall. by right.
  - intros t Ht. unfold getOpponent in Ht.
    apply fmap_Some in Ht as (o & Hfind & ->).
    apply find_some in Hfind as [Hin Hne].
    apply negb_true_iff, bool_decide_eq_false in Hne.
    split; [done|]. exists o. split; [by apply list_elem_of_In|done].
  - intros o rest Hops Hne. unfold getOpponent. rewrite Hops. simpl.
    by rewrite bool_decide_eq_false_2.
Qed.

Lemma truthy_nonempty v s : truthy v = Some s → s ≠ "".
Proof.
  destruct v as [s'|]; [|done]. simpl.
  destruct (String.eqb_spec s' ""); [done|]. by intros [= <-].
Qed.

Lemma or_else_nonempty a b s : or_else a b = Some s → s ≠ "".
Proof.
  unfold or_else. destruct (truthy a) as [s'|] eqn:E.
  - intros [= <-]. by eapply truthy_nonempty.
  - apply truthy_nonempty.
Qed.

(** X26.  The display name of a tournament is never empty.  When the
    serie has a usable name, the full name before the short one, the
    display name starts with it; when neither the serie nor the
    tournament nor the league has one, it is "Unknown Event". *)
Theorem buildTournamentName_nonempty (m : PSMatchResult) :
  buildTournamentName m ≠ ""
  ∧ (∀ s, or_else (serie m ≫= full_name) (serie m ≫= serie_ref_name) = Some s →
       String.prefix s (buildTournamentName m) = true)
  ∧ (or_else (serie m ≫= full_name) (serie m ≫= serie_ref_name) = None →
     truthy (named_name <$> tournament m) = None →
     truthy (named_name <$> league m) = None →
     buildTournamentName m = "Unknown Event").
Proof.
  unfold buildTournamentName.
  destruct (or_else _ _) as [s|] eqn:Es;
    destruct (truthy (named_name <$> tournament m)) as [t|] eqn:Et;
    destruct (truthy (named_name <$> league m)) as [l|] eqn:El;
    try (apply or_else_nonempty in Es); try (apply truthy_nonempty in Et);
    try (apply truthy_nonempty in El);
    (split_and!; [|intros s' Hs'; try injection Hs' as <-; try done|try done]);
    repeat case_match; try done;
    try (by apply StringFacts.append_nonempty); try apply StringFacts.prefix_refl; try apply StringFacts.prefix_app.
Qed.

(** X27.  [deriveEffectiveStats] returns [null] exactly when there are no
    career statistics and the computed ones are absent or cover no round.
    Career statistics take precedence: with them the result comes from
    PandaScore whatever the computed statistics are.  A K/D ratio is shown
    only as a quotient by a positive number, the kills per round by the
    deaths per round for career statistics and the total kills by the total
    deaths for statistics computed from Grid games, and it is [null]
    whenever that divisor is absent or not positive. *)
Theorem effective_stats_kd (careerStats : option PSPlayerCareerStats)
    (computedStats : option ComputedPlayerStats) :
  (deriveEffectiveStats careerStats computedStats = None
   ↔ careerStats = None ∧ ∀ c, computedStats = Some c → ¬ 0 < totalRounds c)
  ∧ ∀ r, deriveEffectiveStats careerStats computedStats = Some r →
      (e_source r = from_pandascore ↔ is_Some careerStats)
      ∧ (e_source r = from_pandascore →
           (∀ x, kd r = Some x ↔ ∃ k d, kpr r = Some k ∧ dpr r = Some d ∧ 0 < d ∧ x = k / d))
      ∧ (e_source r = from_grid →
           ∃ c, computedStats = Some c ∧ 0 < totalRounds c
             ∧ kpr r = Some (totalKills c / totalRounds c)
             ∧ dpr r = Some (totalDeaths c / totalRounds c)
             ∧ (∀ x, kd r = Some x ↔ 0 < totalDeaths c ∧ x = totalKills c / totalDeaths c)).
Proof.
  unfold deriveEffectiveStats. split.
  - destruct careerStats as [cs|]; [by split; [|intros [? _]]|].
    destruct computedStats as [c|]; [|by split; [split; [|intros ?]|]].
    destruct (decide (0 < totalRounds c)) as [Hpos|Hnpos].
    + rewrite bool_decide_eq_true_2 by done. split; [done|].
      intros [_ Hc]. by destruct (Hc c eq_refl).
    + rewrite bool_decide_eq_false_2 by done. split; [|done].
      intros _. split; [done|]. by intros c' [= <-].
  - intros r. destruct careerStats as [cs|].
    + intros [= <-]. cbn [kd kpr dpr e_source]. split_and!; [by split; [eexists|]| |done].
      intros _ x.
      destruct (kills_per_round cs) as [k|], (deaths_per_round cs) as [d|];
        [|by split; [|intros (? & ? & ? & ? & _)]..].
      case_bool_decide as Hd; split.
      * intros [= <-]. by exists k, d.
      * by intros (k' & d' & [= <-] & [= <-] & _ & ->).
      * done.
      * by intros (k' & d' & [= <-] & [= <-] & ? & _).
    + destruct computedStats as [c|]; [|done].
      destruct (decide (0 < totalRounds c)) as [Hpos|Hnpos];
        [rewrite bool_decide_eq_true_2 by done|by rewrite bool_decide_eq_false_2].
      intros [= <-]. cbn [kd kpr dpr e_source].
      split_and!; [by split; [|intros [? ?]]|done|].
      intros _. exists c. split_and!; [done..|].
      intros x. case_bool_decide as Hd; split.
      * by intros [= <-].
      * by intros [_ ->].
      * done.
      * by intros [? _].
Qed.

End ProfileFacts.

(** ** The FACEIT match API route: paging *)

Module PagingFacts.
Import Paging.

Section WithItems.
Context {A : Type}.

Lemma fetchLoop_paged (db : list A) fuel offset acc :
  length db - offset < limit * fuel →
  fetchLoop fuel (paged db) offset acc = Some (Items (acc ++ drop offset db)).
Proof.
  revert offset acc. induction fuel as [|fuel IH]; intros offset acc Hfuel; [unfold limit in *; lia|].
  cbn [fetchLoop paged].
  pose proof (take_drop limit (drop offset db)) as Hsplit.
  pose proof (length_drop db offset) as Hlen.
  destruct (Nat.ltb_spec (length (take limit (drop offset db))) limit) as [Hshort|Hfull].
  - rewrite length_take in Hshort.
    rewrite take_ge by lia. done.
  - rewrite length_take in Hfull.
    rewrite IH.
    + rewrite drop_drop in Hsplit. rewrite <- app_assoc. by rewrite Hsplit.
    + unfold limit in *. lia.
Qed.

(** X28.  Against a server that serves a list page by page,
    [fetchAllPages] comes back after at most one request more than there
    are full pages and returns the whole list, every item once and in
    order, also when the length of the list is a multiple of the page
    size. *)
Theorem fetchAllPages_collects (db : list A) (fuel : nat) :
  length db < limit * fuel →
  fetchAllPages fuel (paged db) = Some (Items db).
Proof.
  intros Hfuel. unfold fetchAllPages. rewrite fetchLoop_paged by lia. done.
Qed.



End WithItems.

Lemma fetchAllPages_collects_witness :
  fetchAllPages 3 (paged (seq 0 200)) = Some (Items (seq 0 200)).
Proof. apply (fetchAllPages_collects (seq 0 200) 3). vm_compute. lia. Defined.

End PagingFacts.

(** ** The PandaScore match page: durations *)

Module MatchPageFacts.
Import MatchPage.

(** The seconds of a minute, printed on two digits. *)
Lemma seconds_two_digits (r : Z) :
  (0 ≤ r < 60)%Z →
  padStart2 (show_Z r) = (if (r <? 10)%Z then "0" +:+ show_Z r else show_Z r)
  ∧ String.length (padStart2 (show_Z r)) = 2.
Proof.
  intros Hr.
  assert (Forall (λ n, padStart2 (show_Z (Z.of_nat n))
                       = (if (Z.of_nat n <? 10)%Z then "0" +:+ show_Z (Z.of_nat n)
                          else show_Z (Z.of_nat n))
                       ∧ String.length (padStart2 (show_Z (Z.of_nat n))) = 2) (seq 0 60)) as Hall.
  { apply (bool_decide_unpack _). vm_compute. exact I. }
  rewrite Forall_forall in Hall. specialize (Hall (Z.to_nat r)).
  rewrite Z2Nat.id in Hall by lia. apply Hall. apply elem_of_seq. lia.
Qed.

Lemma seconds_inj (a b : Z) :
  (0 ≤ a < 60)%Z → (0 ≤ b < 60)%Z → padStart2 (show_Z a) = padStart2 (show_Z b) → a = b.
Proof.
  intros Ha Hb Heq.
  assert (Forall (λ n, Forall (λ k, padStart2 (show_Z (Z.of_nat n)) = padStart2 (show_Z (Z.of_nat k))
                                    → n = k) (seq 0 60)) (seq 0 60)) as Hall.
  { apply (bool_decide_unpack _). vm_compute. exact I. }
  rewrite Forall_forall in Hall. specialize (Hall (Z.to_nat a) ltac:(apply elem_of_seq; lia)).
  rewrite Forall_forall in Hall. specialize (Hall (Z.to_nat b) ltac:(apply elem_of_seq; lia)).
  rewrite !Z2Nat.id in Hall by lia. specialize (Hall Heq). lia.
Qed.

(** X30.  A positive duration is printed as its whole minutes, a colon
    and the remaining seconds on exactly two digits, and two different
    positive durations are never printed alike; no duration and the
    duration 0 are printed as the empty string. *)
Theorem formatDuration_shape (s : Z) :
  (0 < s)%Z →
  formatDuration (Some s)
  = show_Z (s / 60) +:+ ":"
    +:+ (if (s mod 60 <? 10)%Z then "0" +:+ show_Z (s mod 60) else show_Z (s mod 60))
  ∧ (∀ s', (0 < s')%Z → formatDuration (Some s') = formatDuration (Some s) → s' = s)
  ∧ formatDuration None = "" ∧ formatDuration (Some 0%Z) = "".
Proof.
  intros Hs.
  assert (∀ x, (0 < x)%Z →
            formatDuration (Some x)
            = show_Z (x / 60) +:+ ":" +:+ padStart2 (show_Z (x mod 60))) as Hfmt.
  { intros x Hx. unfold formatDuration. rewrite (proj2 (Z.eqb_neq x 0)) by lia.
    by rewrite Z.rem_mod_nonneg by lia. }
  split_and!; [|intros s' Hs' Heq|done..].
  - rewrite (Hfmt s Hs).
    by destruct (seconds_two_digits (s mod 60) ltac:(apply Z.mod_pos_bound; lia)) as [-> _].
  - rewrite (Hfmt s Hs), (Hfmt s' Hs') in Heq.
    destruct (seconds_two_digits (s mod 60) ltac:(apply Z.mod_pos_bound; lia)) as [_ Hl].
    destruct (seconds_two_digits (s' mod 60) ltac:(apply Z.mod_pos_bound; lia)) as [_ Hl'].
    assert (String.length (show_Z (s' / 60)) = String.length (show_Z (s / 60))) as Hlen.
    { apply (f_equal String.length) in Heq.
      rewrite !StringFacts.length_append, Hl, Hl' in Heq. simpl in Heq. lia. }
    destruct (StringFacts.app_inj_length _ _ _ _ Hlen Heq) as [Hmin Hsec].
    apply HomeFacts.show_Z_inj in Hmin. injection Hsec as Hsec.
    apply seconds_inj in Hsec; [|apply Z.mod_pos_bound; lia..].
    rewrite (Z.div_mod s 60), (Z.div_mod s' 60) by lia. by rewrite Hmin, Hsec.
Qed.

Lemma formatDuration_shape_witness :
  formatDuration (Some 125%Z) = "2:05"
  ∧ (∀ s', (0 < s')%Z → formatDuration (Some s') = formatDuration (Some 125%Z) → s' = 125%Z)
  ∧ formatDuration None = "" ∧ formatDuration (Some 0%Z) = "".
Proof. apply (formatDuration_shape 125). lia. Defined.

End MatchPageFacts.
